(** * Proxy-bidding auction engine: shallow embedding and verification

    The development follows the Go packages of the repository:
    - [models]: precision.go (dollar/cent conversion), bidder.go, result.go,
      errors.go;
    - [internal]: engine.go (the round loop, winner selection and the
      minimum winning bid);
    - [validation]: the validator of bidders;
    - [auction]: the service that validates and then runs the engine.

    Numbers are modelled as the code has them: [float64] is IEEE-754
    binary64 (the specification floats of the standard library, precision
    53, emax 1024), [int64] is [Z] with the two's-complement wrap-around
    written out, slices are lists living in a store indexed by the address
    of their backing array. *)

From Stdlib Require Import ZArith Bool Lia String Sorted.
From Stdlib Require Import Floats.SpecFloat.
From stdpp Require Import base list strings gmap.

Local Open Scope Z_scope.

(** ** Machine numbers *)

(** [int64] arithmetic wraps around. *)
Definition wrap64 (z : Z) : Z := (z + 2 ^ 63) mod 2 ^ 64 - 2 ^ 63.

Definition int64_add (a b : Z) : Z := wrap64 (a + b).

Definition in_int64 (z : Z) : Prop := - 2 ^ 63 <= z < 2 ^ 63.

(** [float64]: binary64 numbers and the correctly rounded operations the
    program uses. *)
Definition float64 : Type := spec_float.

Definition f64_mul : float64 -> float64 -> float64 := SFmul 53 1024.
Definition f64_div : float64 -> float64 -> float64 := SFdiv 53 1024.

(** Conversion of an integer to [float64] (round to nearest even), as in
    [float64(cents)] and for the literals [100] and [100.0]. *)
Definition f64_of_Z (z : Z) : float64 := binary_normalize 53 1024 z 0 false.

(** The decimal literal [n/d] as the compiler reads it: the binary64
    number nearest to the quotient. *)
Definition f64_lit (n d : Z) : float64 := f64_div (f64_of_Z n) (f64_of_Z d).

(** [math.Round]: the nearest integer, halves away from zero; zeros,
    infinities and NaN are returned unchanged. *)
Definition round_half_away (m : positive) (e : Z) : Z :=
  let q := Z.shiftr (Z.pos m) (- e) in
  let r := Z.pos m - Z.shiftl q (- e) in
  if Z.shiftl 1 (- e) <=? 2 * r then q + 1 else q.

Definition math_Round (x : float64) : float64 :=
  match x with
  | S754_finite s m e =>
      if 0 <=? e then x
      else
        let n := round_half_away m e in
        binary_normalize 53 1024 (if s then - n else n) 0 s
  | _ => x
  end.

(** The conversion [int64(f)] truncates towards zero.  For a value that
    does not fit (and for NaN and the infinities) Go leaves the result to
    the implementation; amd64 yields the minimal [int64]. *)
Definition int64_of_f64 (x : float64) : Z :=
  match x with
  | S754_zero _ => 0
  | S754_finite s m e =>
      let a := if 0 <=? e then Z.shiftl (Z.pos m) e
               else Z.shiftr (Z.pos m) (- e) in
      let v := if s then - a else a in
      if (- 2 ^ 63 <=? v) && (v <? 2 ^ 63) then v else - 2 ^ 63
  | _ => - 2 ^ 63
  end.

(** ** models/precision.go *)

Definition DollarsToCents (dollars : float64) : Z :=
  int64_of_f64 (math_Round (f64_mul dollars (f64_of_Z 100))).

Definition CentsToDollars (cents : Z) : float64 :=
  f64_div (f64_of_Z cents) (f64_of_Z 100).

(** ** models/bidder.go *)

(** [time.Time] values are compared with [Before] only: an instant on the
    time line. *)
Definition Time : Type := Z.
Definition Before (t u : Time) : bool := t <? u.

Record Bidder : Type := mkBidder {
  ID : string;
  Name : string;
  StartingBid : float64;
  MaxBid : float64;
  AutoIncrement : float64;
  CurrentBid : float64;
  EntryTime : Time;
  IsActive : bool;
  startingBidCents : Z;
  maxBidCents : Z;
  autoIncrementCents : Z;
  currentBidCents : Z
}.

(** [NewBidder] reads the clock ([time.Now()]); the reading is an explicit
    argument. *)
Definition NewBidder (now : Time) (id name : string)
    (startingBid maxBid autoIncrement : float64) : Bidder :=
  {| ID := id;
     Name := name;
     StartingBid := startingBid;
     MaxBid := maxBid;
     AutoIncrement := autoIncrement;
     CurrentBid := startingBid;
     EntryTime := now;
     IsActive := true;
     startingBidCents := DollarsToCents startingBid;
     maxBidCents := DollarsToCents maxBid;
     autoIncrementCents := DollarsToCents autoIncrement;
     currentBidCents := DollarsToCents startingBid |}.

Definition set_EntryTime (t : Time) (b : Bidder) : Bidder :=
  mkBidder (ID b) (Name b) (StartingBid b) (MaxBid b) (AutoIncrement b)
    (CurrentBid b) t (IsActive b) (startingBidCents b) (maxBidCents b)
    (autoIncrementCents b) (currentBidCents b).

Definition set_IsActive (a : bool) (b : Bidder) : Bidder :=
  mkBidder (ID b) (Name b) (StartingBid b) (MaxBid b) (AutoIncrement b)
    (CurrentBid b) (EntryTime b) a (startingBidCents b) (maxBidCents b)
    (autoIncrementCents b) (currentBidCents b).

Definition set_currentBidCents (c : Z) (b : Bidder) : Bidder :=
  mkBidder (ID b) (Name b) (StartingBid b) (MaxBid b) (AutoIncrement b)
    (CurrentBid b) (EntryTime b) (IsActive b) (startingBidCents b)
    (maxBidCents b) (autoIncrementCents b) c.

Definition set_CurrentBid (f : float64) (b : Bidder) : Bidder :=
  mkBidder (ID b) (Name b) (StartingBid b) (MaxBid b) (AutoIncrement b)
    f (EntryTime b) (IsActive b) (startingBidCents b) (maxBidCents b)
    (autoIncrementCents b) (currentBidCents b).

Definition CanIncrement (b : Bidder) : bool :=
  IsActive b &&
  (int64_add (currentBidCents b) (autoIncrementCents b) <=? maxBidCents b).

(** [Increment] mutates its receiver: the result is the returned flag and
    the receiver after the call. *)
Definition Increment (b : Bidder) : bool * Bidder :=
  if negb (CanIncrement b) then (false, b)
  else
    let b1 :=
      set_currentBidCents
        (int64_add (currentBidCents b) (autoIncrementCents b)) b in
    let b2 :=
      if maxBidCents b1 <=? currentBidCents b1
      then set_IsActive false (set_currentBidCents (maxBidCents b1) b1)
      else b1 in
    (true, set_CurrentBid (CentsToDollars (currentBidCents b2)) b2).

Definition GetCurrentBidCents (b : Bidder) : Z := currentBidCents b.
Definition GetMaxBidCents (b : Bidder) : Z := maxBidCents b.
Definition GetAutoIncrementCents (b : Bidder) : Z := autoIncrementCents b.
Definition GetStartingBidCents (b : Bidder) : Z := startingBidCents b.

Definition SyncFloatFields (b : Bidder) : Bidder :=
  mkBidder (ID b) (Name b)
    (CentsToDollars (startingBidCents b))
    (CentsToDollars (maxBidCents b))
    (CentsToDollars (autoIncrementCents b))
    (CentsToDollars (currentBidCents b))
    (EntryTime b) (IsActive b) (startingBidCents b) (maxBidCents b)
    (autoIncrementCents b) (currentBidCents b).

(** ** models/errors.go

    The error values carry a type, a message and an optional cause.  The
    diagnostic context (operation name, formatted amounts) does not
    influence control flow and is left out. *)

Inductive ErrorType : Type :=
  | ErrorTypeValidation
  | ErrorTypeProcessing
  | ErrorTypeSystem
  | ErrorTypeInput
  | ErrorTypeTimeout.

Inductive AuctionError : Type :=
  | mkAuctionError (Type_ : ErrorType) (Message : string)
  | mkAuctionErrorWithCause (Type_ : ErrorType) (Message : string)
      (Cause : AuctionError).

Definition error_type (e : AuctionError) : ErrorType :=
  match e with
  | mkAuctionError t _ => t
  | mkAuctionErrorWithCause t _ _ => t
  end.

Definition NewAuctionError (t : ErrorType) (message : string) : AuctionError :=
  mkAuctionError t message.

Definition NewAuctionErrorWithCause (t : ErrorType) (message : string)
    (cause : AuctionError) : AuctionError :=
  mkAuctionErrorWithCause t message cause.

Definition NewProcessingErrorWithCause (message : string)
    (cause : AuctionError) : AuctionError :=
  NewAuctionErrorWithCause ErrorTypeProcessing message cause.

Definition NewSystemError (message : string) : AuctionError :=
  NewAuctionError ErrorTypeSystem message.

Definition NewInputError (message : string) : AuctionError :=
  NewAuctionError ErrorTypeInput message.

Definition NewTimeoutError (message : string) : AuctionError :=
  NewAuctionError ErrorTypeTimeout message.

(** A Go result pair [(value, err)]. *)
Definition result (A : Type) : Type := AuctionError + A.

(** ** Slices and the store

    A slice is the address of its backing array; the store maps addresses
    to array contents.  A nil slice is an address the store does not
    hold.  Functions that mutate a slice in place are functions on its
    contents, run on the store with [in_place]. *)

Abbreviation slice := positive.

Abbreviation store := (gmap positive (list Bidder)).

Definition slice_contents (h : store) (s : slice) : list Bidder :=
  default [] (h !! s).

Definition in_place {A : Type} (f : list Bidder -> list Bidder * A)
    (s : slice) (h : store) : store * A :=
  let '(l', a) := f (slice_contents h s) in
  (alter (fun _ => l') s h, a).

(** [for i := range l { l[i] = f(l[i]) }] *)
Definition for_each {A : Type} (f : A -> A) (l : list A) : list A :=
  foldl (fun acc i =>
           match acc !! i with
           | Some x => <[i := f x]> acc
           | None => acc
           end) l (seq 0 (length l)).

(** ** models/result.go *)

Record BidResult : Type := mkBidResult {
  Winner : option (slice * nat);   (* pointer to an element of a slice *)
  WinningBid : float64;
  TotalBidders : Z;
  BiddingRounds : Z;
  AllBidders : slice;
  winningBidCents : Z
}.

Definition NewBidResult (winner : option (slice * nat)) (winningBid : float64)
    (totalBidders biddingRounds : Z) (allBidders : slice) (h : store)
    : store * BidResult :=
  (alter (for_each SyncFloatFields) allBidders h,
   {| Winner := winner;
      WinningBid := winningBid;
      TotalBidders := totalBidders;
      BiddingRounds := biddingRounds;
      AllBidders := allBidders;
      winningBidCents := DollarsToCents winningBid |}).

Definition NewBidResultFromCents (winner : option (slice * nat))
    (winningBidCents : Z) (totalBidders biddingRounds : Z)
    (allBidders : slice) (h : store) : store * BidResult :=
  (alter (for_each SyncFloatFields) allBidders h,
   {| Winner := winner;
      WinningBid := CentsToDollars winningBidCents;
      TotalBidders := totalBidders;
      BiddingRounds := biddingRounds;
      AllBidders := allBidders;
      winningBidCents := winningBidCents |}).

Definition GetWinningBidCents (br : BidResult) : Z := winningBidCents br.

(** The bidder a result's [Winner] points to, read in store [h]. *)
Definition Winner_deref (h : store) (br : BidResult) : option Bidder :=
  match Winner br with
  | Some (s, i) => slice_contents h s !! i
  | None => None
  end.

(** ** sort.Slice

    The library sort is used through its documented contract: for a
    [less] that is a strict weak ordering the slice ends up sorted, and
    its elements are those it started with.  The documentation states
    that the sort is not guaranteed to be stable. *)

Record strict_weak {A : Type} (less : A -> A -> bool) : Prop := {
  sw_irrefl : forall x, less x x = false;
  sw_trans : forall x y z, less x y = true -> less y z = true -> less x z = true;
  sw_incomparable :
    forall x y z, less x y = false -> less y z = false -> less x z = false
}.

Definition sorted_by {A : Type} (less : A -> A -> bool) : list A -> Prop :=
  StronglySorted (fun x y => less y x = false).

Record Sorter : Type := mkSorter {
  sort_Slice : forall A : Type, (A -> A -> bool) -> list A -> list A
}.

Record Sorter_contract (srt : Sorter) : Prop := {
  sort_Slice_Permutation :
    forall (A : Type) (less : A -> A -> bool) (l : list A),
      sort_Slice srt A less l ≡ₚ l;
  sort_Slice_sorted :
    forall (A : Type) (less : A -> A -> bool) (l : list A),
      strict_weak less -> sorted_by less (sort_Slice srt A less l)
}.

(** Two sorts that meet the contract.  Insertion sort, which is what the
    library runs on short slices: every element moves left past the
    elements it is less than, so equal elements keep their order.  And
    its mirror image, where an element also moves past its equals. *)
Fixpoint insert_before {A : Type} (stop : A -> A -> bool) (x : A)
    (l : list A) : list A :=
  match l with
  | [] => [x]
  | y :: l' =>
      if stop x y then x :: y :: l' else y :: insert_before stop x l'
  end.

Definition insertion_sort {A : Type} (stop : A -> A -> bool) (l : list A)
    : list A :=
  foldl (fun sorted x => insert_before stop x sorted) [] l.

Definition insertion_Sorter : Sorter :=
  mkSorter (fun A less l => insertion_sort less l).

Definition ties_reversing_Sorter : Sorter :=
  mkSorter (fun A less l => insertion_sort (fun x y => negb (less y x)) l).

(** ** internal/engine.go *)

Record BiddingEngine : Type := { maxRounds : Z }.

Definition NewBiddingEngine : BiddingEngine := {| maxRounds := 1000 |}.

Fixpoint findHighestBidCents_loop (rest : list Bidder) (highestCents : Z)
    : result Z :=
  match rest with
  | [] => inr highestCents
  | bidder :: rest' =>
      let bidderCents := GetCurrentBidCents bidder in
      if bidderCents <? 0
      then inl (NewSystemError "bidder has negative current bid")
      else findHighestBidCents_loop rest'
             (if highestCents <? bidderCents then bidderCents
              else highestCents)
  end.

Definition findHighestBidCents (bidders : list Bidder) : result Z :=
  match bidders with
  | [] => inr 0
  | first :: rest =>
      let highestCents := GetCurrentBidCents first in
      if highestCents <? 0
      then inl (NewSystemError "bidder has negative current bid")
      else
        match findHighestBidCents_loop rest highestCents with
        | inl err => inl err
        | inr highestCents =>
            if highestCents <? 0
            then inl (NewSystemError "calculated highest bid is negative")
            else inr highestCents
        end
  end.

(** The body of [for i := range bidders] in [IncrementBids]; [idxs] are
    the indices still to visit. *)
Fixpoint IncrementBids_loop (highestBidCents : Z) (idxs : list nat)
    (bidders : list Bidder) (anyIncremented : bool)
    : list Bidder * result bool :=
  match idxs with
  | [] => (bidders, inr anyIncremented)
  | i :: idxs' =>
      match bidders !! i with
      | None => (bidders, inr anyIncremented)
      | Some bidder =>
          if (highestBidCents <=? GetCurrentBidCents bidder)
             || negb (CanIncrement bidder)
          then IncrementBids_loop highestBidCents idxs' bidders anyIncremented
          else
            let '(ok, bidder') := Increment bidder in
            let bidders' := <[i := bidder']> bidders in
            if ok
            then IncrementBids_loop highestBidCents idxs' bidders' true
            else (bidders',
                  inl (NewSystemError
                    "bidder increment failed despite CanIncrement() returning true"))
      end
  end.

Definition IncrementBids (bidders : list Bidder) : list Bidder * result bool :=
  if (length bidders <=? 1)%nat then (bidders, inr false)
  else
    match findHighestBidCents bidders with
    | inl err =>
        (bidders,
         inl (NewProcessingErrorWithCause "failed to find highest bid" err))
    | inr highestBidCents =>
        IncrementBids_loop highestBidCents (seq 0 (length bidders))
          bidders false
    end.

Definition same_ID (a b : Bidder) : bool := String.eqb (ID a) (ID b).

Definition CalculateMinimumWinningBidCents (bidders : list Bidder)
    (winner : option Bidder) : result Z :=
  match winner with
  | None => inl (NewInputError "winner cannot be nil")
  | Some winner =>
      if (length bidders =? 0)%nat
      then inl (NewInputError "bidders slice cannot be empty")
      else if negb (existsb (fun bidder => same_ID bidder winner) bidders)
      then inl (NewInputError "winner not found in bidders slice")
      else
        let secondHighestCents :=
          foldl (fun secondHighestCents bidder =>
                   if same_ID bidder winner then secondHighestCents
                   else if secondHighestCents <? GetMaxBidCents bidder
                        then GetMaxBidCents bidder
                        else secondHighestCents) 0 bidders in
        if secondHighestCents =? 0
        then inr (GetStartingBidCents winner)
        else
          let m := int64_add secondHighestCents (GetAutoIncrementCents winner) in
          let m := if GetMaxBidCents winner <? m then GetMaxBidCents winner
                   else m in
          let m := if m <? GetStartingBidCents winner
                   then GetStartingBidCents winner else m in
          if m <? 0
          then inl (NewSystemError "calculated minimum winning bid is negative")
          else inr m
  end.

(** [findWinner] returns a pointer into [bidders]: the index. *)
Fixpoint findWinner_loop (bidders : list Bidder) (idxs : list nat)
    (winner : nat) : result nat :=
  match idxs with
  | [] => inr winner
  | i :: idxs' =>
      match bidders !! i, bidders !! winner with
      | Some current, Some w =>
          if GetCurrentBidCents current <? 0
          then inl (NewSystemError "bidder has negative current bid")
          else if GetCurrentBidCents w <? GetCurrentBidCents current
          then findWinner_loop bidders idxs' i
          else if GetCurrentBidCents current =? GetCurrentBidCents w
          then
            if Before (EntryTime current) (EntryTime w)
            then findWinner_loop bidders idxs' i
            else findWinner_loop bidders idxs' winner
          else findWinner_loop bidders idxs' winner
      | _, _ => inr winner
      end
  end.

Definition findWinner (bidders : list Bidder) : result (option nat) :=
  if (length bidders =? 0)%nat then inr None
  else
    match findWinner_loop bidders (seq 1 (length bidders - 1)) 0%nat with
    | inl err => inl err
    | inr winner =>
        match bidders !! winner with
        | Some w =>
            if GetCurrentBidCents w <? 0
            then inl (NewSystemError "winner has negative current bid")
            else inr (Some winner)
        | None => inr (Some winner)
        end
    end.

(** The re-initialisation of a working bidder; the entry time set by
    [NewBidder] is overwritten with the original one. *)
Definition reinitialize (now : Time) (bidder : Bidder) : Bidder :=
  let originalEntryTime := EntryTime bidder in
  set_EntryTime originalEntryTime
    (NewBidder now (ID bidder) (Name bidder) (StartingBid bidder)
       (MaxBid bidder) (AutoIncrement bidder)).

Definition by_EntryTime (a b : Bidder) : bool :=
  Before (EntryTime a) (EntryTime b).

(** [for rounds < be.maxRounds { ... }]: [fuel] is [maxRounds - rounds],
    the number of times the loop condition can still hold. *)
Fixpoint round_loop (fuel : nat) (rounds : Z) (workingBidders : slice)
    (h : store) : store * result Z :=
  match fuel with
  | O => (h, inr rounds)
  | S fuel' =>
      let '(h', r) := in_place IncrementBids workingBidders h in
      match r with
      | inl err =>
          (h', inl (NewProcessingErrorWithCause "failed to increment bids" err))
      | inr incremented =>
          if incremented
          then round_loop fuel' (rounds + 1) workingBidders h'
          else (h', inr rounds)
      end
  end.

Definition ProcessBids (srt : Sorter) (be : BiddingEngine) (now : Time)
    (bidders : slice) (h : store) : store * result BidResult :=
  let input := slice_contents h bidders in
  if (length input =? 0)%nat then
    let '(h', br) := NewBidResult None (f64_of_Z 0) 0 0 bidders h in
    (h', inr br)
  else
    let workingBidders : slice := fresh (dom h) in
    let h := <[workingBidders := input]> h in
    let h := alter (for_each (reinitialize now)) workingBidders h in
    let h := alter (sort_Slice srt Bidder by_EntryTime) workingBidders h in
    let '(h, r) :=
      round_loop (Z.to_nat (maxRounds be)) 0 workingBidders h in
    match r with
    | inl err => (h, inl err)
    | inr rounds =>
        if maxRounds be <=? rounds
        then (h, inl (NewTimeoutError "bidding process exceeded maximum rounds"))
        else
          let total := Z.of_nat (length input) in
          match findWinner (slice_contents h workingBidders) with
          | inl err =>
              (h, inl (NewProcessingErrorWithCause
                         "failed to determine winner" err))
          | inr None =>
              let '(h', br) :=
                NewBidResult None (f64_of_Z 0) total rounds workingBidders h in
              (h', inr br)
          | inr (Some i) =>
              match CalculateMinimumWinningBidCents
                      (slice_contents h workingBidders)
                      (slice_contents h workingBidders !! i) with
              | inl err =>
                  (h, inl (NewProcessingErrorWithCause
                             "failed to calculate minimum winning bid" err))
              | inr winningBidCents =>
                  let '(h', br) :=
                    NewBidResultFromCents (Some (workingBidders, i))
                      winningBidCents total rounds workingBidders h in
                  (h', inr br)
              end
          end
    end.

(** * Specification vocabulary *)

(** [n] successive calls of [Increment] on a bidder. *)
Fixpoint Increment_n (n : nat) (b : Bidder) : Bidder :=
  match n with
  | O => b
  | S n' => snd (Increment (Increment_n n' b))
  end.

(** The parameters fixed at creation. *)
Definition params (b : Bidder) : string * Time * Z * Z * Z :=
  (ID b, EntryTime b, startingBidCents b, maxBidCents b, autoIncrementCents b).

Definition same_params (a b : Bidder) : Prop := params a = params b.

(** A bidder whose amounts leave room for the arithmetic. *)
Definition bid_inv (b : Bidder) : Prop :=
  in_int64 (startingBidCents b) /\
  startingBidCents b <= currentBidCents b <= maxBidCents b /\
  0 < autoIncrementCents b /\
  maxBidCents b + autoIncrementCents b < 2 ^ 63.


(** A bidder is losing against the bid [H] and able to raise. *)
Definition losing (H : Z) (b : Bidder) : bool :=
  (currentBidCents b <? H) && CanIncrement b.

(** What one pass does to a bidder: one [Increment] call if losing. *)
Definition round_step (H : Z) (b : Bidder) : Bidder :=
  if losing H b then snd (Increment b) else b.

(** The rounds of [ProcessBids] on the contents of the working slice. *)
Fixpoint rounds_from (fuel : nat) (rounds : Z) (ws : list Bidder)
    : list Bidder * result Z :=
  match fuel with
  | O => (ws, inr rounds)
  | S fuel' =>
      let '(ws', r) := IncrementBids ws in
      match r with
      | inl err =>
          (ws', inl (NewProcessingErrorWithCause "failed to increment bids" err))
      | inr incremented =>
          if incremented then rounds_from fuel' (rounds + 1) ws'
          else (ws', inr rounds)
      end
  end.

(** The working set after preprocessing. *)
Definition prepare (srt : Sorter) (now : Time) (input : list Bidder)
    : list Bidder :=
  sort_Slice srt Bidder by_EntryTime (map (reinitialize now) input).

(** What [ProcessBids] computes for a non-empty input, as a function of
    the input contents: the final contents of the working slice [w] and
    the result. *)
Definition run (srt : Sorter) (be : BiddingEngine) (now : Time) (w : slice)
    (input : list Bidder) : list Bidder * result BidResult :=
  let '(ws, r) :=
    rounds_from (Z.to_nat (maxRounds be)) 0 (prepare srt now input) in
  match r with
  | inl err => (ws, inl err)
  | inr rounds =>
      if maxRounds be <=? rounds
      then (ws, inl (NewTimeoutError "bidding process exceeded maximum rounds"))
      else
        let total := Z.of_nat (length input) in
        match findWinner ws with
        | inl err =>
            (ws, inl (NewProcessingErrorWithCause
                        "failed to determine winner" err))
        | inr None =>
            (map SyncFloatFields ws,
             inr (mkBidResult None (f64_of_Z 0) total rounds w
                    (DollarsToCents (f64_of_Z 0))))
        | inr (Some i) =>
            match CalculateMinimumWinningBidCents ws (ws !! i) with
            | inl err =>
                (ws, inl (NewProcessingErrorWithCause
                            "failed to calculate minimum winning bid" err))
            | inr c =>
                (map SyncFloatFields ws,
                 inr (mkBidResult (Some (w, i)) (CentsToDollars c) total
                        rounds w c))
            end
        end
  end.

(** Amounts in minor units that are positive, ordered and small enough
    for sums of two of them to be [int64] values. *)
Definition amounts_ok (s m i : Z) : Prop :=
  0 < s /\ s <= m /\ m < 2 ^ 62 /\ 0 < i /\ i < 2 ^ 62.

(** A bidder as handed to the engine: the amounts are those of its
    decimal fields. *)
Definition valid_input (b : Bidder) : Prop :=
  amounts_ok (DollarsToCents (StartingBid b)) (DollarsToCents (MaxBid b))
    (DollarsToCents (AutoIncrement b)).

(** A bidder of the working set. *)
Definition valid_state (b : Bidder) : Prop :=
  amounts_ok (startingBidCents b) (maxBidCents b) (autoIncrementCents b) /\
  startingBidCents b <= currentBidCents b <= maxBidCents b.

(** The number of increments a bidder can still make. *)
Definition headroom (b : Bidder) : Z :=
  (maxBidCents b - currentBidCents b) / autoIncrementCents b.

Definition total_headroom (l : list Bidder) : Z :=
  foldr (fun b acc => headroom b + acc) 0 l.

(** The bidders other than [w]; bidders are identified by their [ID]. *)
Definition others (w : Bidder) (l : list Bidder) : list Bidder :=
  filter (fun b => ID b <> ID w) l.

Definition highest (f : Bidder -> Z) (l : list Bidder) : Z :=
  foldr (fun b acc => Z.max (f b) acc) 0 l.

Definition clamp (lo hi x : Z) : Z := Z.max lo (Z.min hi x).

(** The price rule of the specification: the starting bid if there is no
    other bidder, else the highest maximum among the others plus the
    winner's increment, clamped between the winner's starting and
    maximum bid.  [maxOf] reads a bidder's maximum in minor units. *)
Definition minimum_winning_bid (maxOf : Bidder -> Z) (w : Bidder)
    (l : list Bidder) : Z :=
  match others w l with
  | [] => startingBidCents w
  | os =>
      clamp (startingBidCents w) (maxBidCents w)
        (highest maxOf os + autoIncrementCents w)
  end.





(** ** Example auctions *)

(** A dollar amount given in cents, as its decimal literal reads. *)
Definition dollars (cents : Z) : float64 := f64_lit cents 100.

(** A bidder as the tests build it: [NewBidder], then the entry time. *)
Definition bidder_at (t : Time) (id name : string) (s m i : float64)
    : Bidder :=
  set_EntryTime t (NewBidder 0 id name s m i).

(** A store holding one slice, at address 1. *)
Definition store_of (l : list Bidder) : store := {[ 1%positive := l ]}.

Definition second_price_auction : list Bidder :=
  [ bidder_at 0 "A" "Alice" (dollars 10000) (dollars 30000) (dollars 2500);
    bidder_at 1 "B" "Bob" (dollars 11000) (dollars 25000) (dollars 2000) ].

Definition slow_auction : list Bidder :=
  [ bidder_at 0 "A" "Alice" (dollars 1) (dollars 10000) (dollars 1);
    bidder_at 1 "B" "Bob" (dollars 5000) (dollars 6000) (dollars 100) ].





(** ** Exact values of floating-point numbers *)





(** * Vocabulary for further properties *)

Definition error_cause (e : AuctionError) : option AuctionError :=
  match e with
  | mkAuctionError _ _ => None
  | mkAuctionErrorWithCause _ _ cause => Some cause
  end.

(** The bidder [w] at index [i] prevails over [b] at index [j]: it bids at
    least as much; on equal bids it did not enter later; on equal bids
    and entry times it does not come later in the slice. *)
Definition prevails (i : nat) (w : Bidder) (j : nat) (b : Bidder) : Prop :=
  currentBidCents b <= currentBidCents w /\
  (currentBidCents b = currentBidCents w ->
   EntryTime w <= EntryTime b /\
   (EntryTime b = EntryTime w -> (i <= j)%nat)).

Definition negative_bid (b : Bidder) : Prop := currentBidCents b < 0.

(** A working bidder whose amounts are not negative and leave room for
    the arithmetic; the increment may be zero. *)
Definition roomy (b : Bidder) : Prop :=
  0 <= currentBidCents b < 2 ^ 62 /\
  0 <= autoIncrementCents b < 2 ^ 62 /\
  maxBidCents b < 2 ^ 62.

(** The same for a bidder as handed to the engine. *)
Definition roomy_input (b : Bidder) : Prop :=
  0 <= DollarsToCents (StartingBid b) < 2 ^ 62 /\
  0 <= DollarsToCents (AutoIncrement b) < 2 ^ 62 /\
  DollarsToCents (MaxBid b) < 2 ^ 62.

(** An active bidder below its maximum whose increment is zero cents. *)
Definition idle (b : Bidder) : Prop :=
  IsActive b = true /\ autoIncrementCents b = 0 /\
  currentBidCents b < maxBidCents b.

(** A bidder set the validator accepts although one increment is below
    half a cent. *)
Definition sub_cent_auction : list Bidder :=
  [ bidder_at 0 "A" "Alice" (dollars 10000) (dollars 20000) (f64_lit 1 1000);
    bidder_at 1 "B" "Bob" (dollars 15000) (dollars 30000) (dollars 1000) ].

(** * Error values with all their fields

    models/errors.go.  The engine model above keeps of an error its type,
    its message and its cause.  The validator and the service report
    through the details, the operation and the context of an error, so
    here the values of [ValidationError] and [AuctionError] are modelled
    with every field, and the methods as functions from the receiver
    before the call to the receiver after it. *)

From stdpp Require Import pretty.

Local Open Scope Z_scope.

(** [fmt.Sprintf("%d", n)] *)
Definition Sprintf_d (n : Z) : string := pretty n.

Module errors.

(** The Go [error] held as a cause. *)
Definition error : Type := AuctionError.

(** The field [Message] of [ValidationError] is [Reason] here: the name
    [Message] is the one of [AuctionError]'s field. *)
Record ValidationError : Type := mkValidationError {
  BidderID : string;
  Field : string;
  Reason : string;
  Value : string
}.

Definition NewValidationError (bidderID field message : string)
    : ValidationError :=
  {| BidderID := bidderID; Field := field; Reason := message; Value := "" |}.

Definition NewValidationErrorWithValue (bidderID field message value : string)
    : ValidationError :=
  {| BidderID := bidderID; Field := field; Reason := message;
     Value := value |}.

Definition set_Value (value : string) (ve : ValidationError)
    : ValidationError :=
  mkValidationError (BidderID ve) (Field ve) (Reason ve) value.

(** [Context_] is [None] for a nil map. *)
Record AuctionError : Type := mkAuctionError {
  Type_ : ErrorType;
  Message : string;
  Details : list ValidationError;
  Cause : option error;
  Context_ : option (gmap string string);
  Operation : string
}.

Definition set_Details (details : list ValidationError) (ae : AuctionError)
    : AuctionError :=
  mkAuctionError (Type_ ae) (Message ae) details (Cause ae) (Context_ ae)
    (Operation ae).

Definition set_Context (context : option (gmap string string))
    (ae : AuctionError) : AuctionError :=
  mkAuctionError (Type_ ae) (Message ae) (Details ae) (Cause ae) context
    (Operation ae).

Definition set_Operation (operation : string) (ae : AuctionError)
    : AuctionError :=
  mkAuctionError (Type_ ae) (Message ae) (Details ae) (Cause ae)
    (Context_ ae) operation.

Definition NewAuctionError (errorType : ErrorType) (message : string)
    (details : list ValidationError) : AuctionError :=
  {| Type_ := errorType; Message := message; Details := details;
     Cause := None; Context_ := Some ∅; Operation := "" |}.

Definition NewAuctionErrorWithCause (errorType : ErrorType)
    (message : string) (cause : error) : AuctionError :=
  {| Type_ := errorType; Message := message; Details := [];
     Cause := Some cause; Context_ := Some ∅; Operation := "" |}.

Definition Unwrap (ae : AuctionError) : option error := Cause ae.

Definition AddValidationError (ae : AuctionError)
    (bidderID field message : string) : AuctionError :=
  set_Details (Details ae ++ [NewValidationError bidderID field message]) ae.

Definition AddValidationErrorWithValue (ae : AuctionError)
    (bidderID field message value : string) : AuctionError :=
  set_Details
    (Details ae ++ [NewValidationErrorWithValue bidderID field message value])
    ae.

Definition HasValidationErrors (ae : AuctionError) : bool :=
  (0 <? length (Details ae))%nat.

Definition AddContext (ae : AuctionError) (key value : string)
    : AuctionError :=
  let ae := match Context_ ae with
            | None => set_Context (Some ∅) ae
            | Some _ => ae
            end in
  set_Context (Some (<[key := value]> (default ∅ (Context_ ae)))) ae.

Definition GetContext (ae : AuctionError) (key : string) : string * bool :=
  match Context_ ae with
  | None => ("", false)
  | Some context =>
      match context !! key with
      | Some value => (value, true)
      | None => ("", false)
      end
  end.

Definition WithOperation (ae : AuctionError) (operation : string)
    : AuctionError :=
  set_Operation operation ae.

(** [for k, v := range context] visits the entries of the map in an
    order the language leaves open: [visited] is the sequence of entries
    as the loop meets them. *)
Definition WithContext (ae : AuctionError) (visited : list (string * string))
    : AuctionError :=
  let ae := match Context_ ae with
            | None => set_Context (Some ∅) ae
            | Some _ => ae
            end in
  foldl (fun ae kv =>
           set_Context (Some (<[kv.1 := kv.2]> (default ∅ (Context_ ae)))) ae)
    ae visited.

Definition GetValidationErrorsByField (ae : AuctionError)
    : gmap string (list ValidationError) :=
  foldl (fun result detail =>
           <[Field detail := default [] (result !! Field detail) ++ [detail]]>
             result)
    ∅ (Details ae).

Definition GetValidationErrorsByBidder (ae : AuctionError)
    : gmap string (list ValidationError) :=
  foldl (fun result detail =>
           <[BidderID detail :=
               default [] (result !! BidderID detail) ++ [detail]]> result)
    ∅ (Details ae).

End errors.

(** * The validator

    Package validation.  [strings.TrimSpace] and the formatting of a
    decimal amount by [fmt.Sprintf("%.2f", x)] are taken as given. *)

Module validation.

Export errors.

Section validator.

Variable TrimSpace : string -> string.
Variable Sprintf_2f : float64 -> string.

(** The comparisons of [float64] values; the constant [0] is the
    number zero. *)
Definition f64_lt (x y : float64) : bool := SFltb x y.
Definition f64_le (x y : float64) : bool := SFleb x y.

(** [ValidateBidder] returns an [error] that is nil or a
    [*models.AuctionError]. *)
Definition ValidateBidder (bidder : Bidder) : option AuctionError :=
  let validationErrors : list ValidationError := [] in
  let validationErrors :=
    if String.eqb (TrimSpace (ID bidder)) ""
    then validationErrors ++
         [NewValidationErrorWithValue "" "ID" "bidder ID is required"
            (ID bidder)]
    else validationErrors in
  let validationErrors :=
    if String.eqb (TrimSpace (Name bidder)) ""
    then validationErrors ++
         [NewValidationErrorWithValue (ID bidder) "Name"
            "bidder name is required" (Name bidder)]
    else validationErrors in
  let validationErrors :=
    if f64_lt (StartingBid bidder) (f64_of_Z 0)
    then validationErrors ++
         [NewValidationErrorWithValue (ID bidder) "StartingBid"
            "starting bid cannot be negative"
            (Sprintf_2f (StartingBid bidder))]
    else validationErrors in
  let validationErrors :=
    if f64_lt (MaxBid bidder) (f64_of_Z 0)
    then validationErrors ++
         [NewValidationErrorWithValue (ID bidder) "MaxBid"
            "maximum bid cannot be negative" (Sprintf_2f (MaxBid bidder))]
    else validationErrors in
  let validationErrors :=
    if f64_le (AutoIncrement bidder) (f64_of_Z 0)
    then validationErrors ++
         [NewValidationErrorWithValue (ID bidder) "AutoIncrement"
            "auto-increment amount must be greater than zero"
            (Sprintf_2f (AutoIncrement bidder))]
    else validationErrors in
  let validationErrors :=
    if f64_lt (MaxBid bidder) (StartingBid bidder)
    then validationErrors ++
         [NewValidationErrorWithValue (ID bidder) "StartingBid"
            "starting bid cannot be greater than maximum bid"
            ("starting: " +:+ Sprintf_2f (StartingBid bidder) +:+
             ", max: " +:+ Sprintf_2f (MaxBid bidder))]
    else validationErrors in
  if (0 <? length validationErrors)%nat
  then
    let auctionErr :=
      NewAuctionError ErrorTypeValidation
        ("validation failed for bidder " +:+ ID bidder) validationErrors in
    let auctionErr := WithOperation auctionErr "ValidateBidder" in
    let auctionErr := AddContext auctionErr "bidder_id" (ID bidder) in
    let auctionErr := AddContext auctionErr "bidder_name" (Name bidder) in
    Some auctionErr
  else None.

(** The loop of [ValidateBidders] over the bidders from index [i] on.
    Reading [bidderIDs] at an absent key gives [false].  The error of
    [ValidateBidder] is a [*models.AuctionError], so the branch for
    other error types is never taken.  The counter is bounded by the
    length of the slice. *)
Fixpoint ValidateBidders_loop (i : nat) (bidders : list Bidder)
    (allValidationErrors : list ValidationError)
    (bidderIDs : gmap string bool) (validBidderCount : Z)
    : list ValidationError * Z :=
  match bidders with
  | [] => (allValidationErrors, validBidderCount)
  | bidder :: rest =>
      if default false (bidderIDs !! ID bidder)
      then
        ValidateBidders_loop (S i) rest
          (allValidationErrors ++
           [NewValidationErrorWithValue (ID bidder) "ID"
              "duplicate bidder ID" (ID bidder)])
          bidderIDs validBidderCount
      else
        let bidderIDs := <[ID bidder := true]> bidderIDs in
        match ValidateBidder bidder with
        | Some auctionErr =>
            let details :=
              map (fun detail =>
                     set_Value
                       ("position " +:+ Sprintf_d (Z.of_nat i + 1) +:+ ": "
                        +:+ Value detail) detail)
                (Details auctionErr) in
            ValidateBidders_loop (S i) rest (allValidationErrors ++ details)
              bidderIDs validBidderCount
        | None =>
            ValidateBidders_loop (S i) rest allValidationErrors bidderIDs
              (validBidderCount + 1)
        end
  end.

Definition ValidateBidders (bidders : list Bidder) : option AuctionError :=
  if (length bidders =? 0)%nat
  then
    let auctionErr :=
      NewAuctionError ErrorTypeValidation "no bidders provided" [] in
    let auctionErr := WithOperation auctionErr "ValidateBidders" in
    let auctionErr := AddContext auctionErr "bidder_count" "0" in
    Some auctionErr
  else
    let '(allValidationErrors, validBidderCount) :=
      ValidateBidders_loop 0 bidders [] ∅ 0 in
    if (0 <? length allValidationErrors)%nat
    then
      let errorsByBidder : gmap string Z :=
        foldl (fun (m : gmap string Z) err =>
                 <[BidderID err := default 0 (m !! BidderID err) + 1]> m)
          ∅ allValidationErrors in
      let auctionErr :=
        NewAuctionError ErrorTypeValidation
          ("validation failed for " +:+
           Sprintf_d (Z.of_nat (size errorsByBidder)) +:+ " out of " +:+
           Sprintf_d (Z.of_nat (length bidders)) +:+ " bidders")
          allValidationErrors in
      let auctionErr := WithOperation auctionErr "ValidateBidders" in
      let auctionErr :=
        AddContext auctionErr "total_bidders"
          (Sprintf_d (Z.of_nat (length bidders))) in
      let auctionErr :=
        AddContext auctionErr "valid_bidders" (Sprintf_d validBidderCount) in
      let auctionErr :=
        AddContext auctionErr "invalid_bidders"
          (Sprintf_d (Z.of_nat (size errorsByBidder))) in
      let auctionErr :=
        AddContext auctionErr "total_validation_errors"
          (Sprintf_d (Z.of_nat (length allValidationErrors))) in
      Some auctionErr
    else None.

(** ** Vocabulary for the validator *)

(** The rules a bidder has to meet. *)
Definition acceptable (bidder : Bidder) : Prop :=
  TrimSpace (ID bidder) <> "" /\
  TrimSpace (Name bidder) <> "" /\
  f64_lt (StartingBid bidder) (f64_of_Z 0) = false /\
  f64_lt (MaxBid bidder) (f64_of_Z 0) = false /\
  f64_le (AutoIncrement bidder) (f64_of_Z 0) = false /\
  f64_lt (MaxBid bidder) (StartingBid bidder) = false.

(** The details [ValidateBidder] reports for a bidder. *)
Definition bidder_details (bidder : Bidder) : list ValidationError :=
  match ValidateBidder bidder with
  | Some auctionErr => Details auctionErr
  | None => []
  end.

Definition at_position (i : nat) (detail : ValidationError)
    : ValidationError :=
  set_Value
    ("position " +:+ Sprintf_d (Z.of_nat i + 1) +:+ ": " +:+ Value detail)
    detail.

(** The details expected for the bidder at index [i]: one detail if its
    id occurs before it, else its own details marked with its
    position. *)
Definition details_at (bidders : list Bidder) (i : nat) (bidder : Bidder)
    : list ValidationError :=
  if decide (ID bidder ∈ ID <$> take i bidders)
  then [NewValidationErrorWithValue (ID bidder) "ID" "duplicate bidder ID"
          (ID bidder)]
  else at_position i <$> bidder_details bidder.

Definition expected_details (bidders : list Bidder) : list ValidationError :=
  concat (imap (details_at bidders) bidders).

End validator.

End validation.

(** * The service

    Package auction.  The service holds its validator and its engine
    behind interfaces and tells the errors it receives apart by their
    dynamic type: a [*models.AuctionError] is passed on, any other error
    is wrapped. *)

Module auction.

Export validation.

(** An [error] value: a [*models.AuctionError], or a value of another
    type, of which the type, the message and the cause are kept. *)
Inductive go_error : Type :=
  | of_AuctionError (auctionErr : AuctionError)
  | of_other (err : error).

(** The interface [validation.BidValidator]. *)
Record BidValidator : Type := mkBidValidator {
  BidValidator_ValidateBidder : Bidder -> option go_error;
  BidValidator_ValidateBidders : list Bidder -> option go_error
}.

(** The struct [internal.BiddingEngine], as opposed to the interface of
    this package. *)
Definition internal_BiddingEngine : Type := BiddingEngine.

(** The interface [auction.BiddingEngine]; a call returns the pair
    [(result, err)] and may write to the store. *)
Record BiddingEngine : Type := mkBiddingEngine {
  BiddingEngine_ProcessBids :
    slice -> store -> store * (option BidResult * option go_error)
}.

Record AuctionService : Type := mkAuctionService {
  validator : BidValidator;
  engine : BiddingEngine
}.

Definition DetermineWinner (as_ : AuctionService) (bidders : slice)
    (h : store) : store * (go_error + BidResult) :=
  match BidValidator_ValidateBidders (validator as_)
          (slice_contents h bidders) with
  | Some (of_AuctionError auctionErr) =>
      let auctionErr :=
        WithOperation auctionErr "DetermineWinner.Validation" in
      let auctionErr := AddContext auctionErr "service" "AuctionService" in
      (h, inl (of_AuctionError auctionErr))
  | Some (of_other err) =>
      let wrappedErr :=
        NewAuctionErrorWithCause ErrorTypeValidation
          "unexpected validation error" err in
      let wrappedErr :=
        WithOperation wrappedErr "DetermineWinner.Validation" in
      let wrappedErr := AddContext wrappedErr "service" "AuctionService" in
      (h, inl (of_AuctionError wrappedErr))
  | None =>
      let '(h', (result, err)) :=
        BiddingEngine_ProcessBids (engine as_) bidders h in
      match err with
      | Some (of_AuctionError auctionErr) =>
          let auctionErr :=
            WithOperation auctionErr "DetermineWinner.Processing" in
          let auctionErr :=
            AddContext auctionErr "service" "AuctionService" in
          (h', inl (of_AuctionError auctionErr))
      | Some (of_other err) =>
          let wrappedErr :=
            NewAuctionErrorWithCause ErrorTypeProcessing
              "unexpected processing error" err in
          let wrappedErr :=
            WithOperation wrappedErr "DetermineWinner.Processing" in
          let wrappedErr :=
            AddContext wrappedErr "service" "AuctionService" in
          (h', inl (of_AuctionError wrappedErr))
      | None =>
          match result with
          | None =>
              let processingErr :=
                NewAuctionError ErrorTypeProcessing
                  "failed to process bids: result is nil" [] in
              let processingErr :=
                WithOperation processingErr
                  "DetermineWinner.ResultValidation" in
              let processingErr :=
                AddContext processingErr "service" "AuctionService" in
              let processingErr :=
                AddContext processingErr "bidder_count"
                  (Sprintf_d (Z.of_nat (length (slice_contents h bidders))))
              in
              (h', inl (of_AuctionError processingErr))
          | Some result => (h', inr result)
          end
      end
  end.

Section service.

Variable TrimSpace : string -> string.
Variable Sprintf_2f : float64 -> string.

(** [validation.NewBidValidator()]: the methods of [DefaultBidValidator]
    behind the interface. *)
Definition NewBidValidator : BidValidator :=
  {| BidValidator_ValidateBidder := fun bidder =>
       of_AuctionError <$> ValidateBidder TrimSpace Sprintf_2f bidder;
     BidValidator_ValidateBidders := fun bidders =>
       of_AuctionError <$> ValidateBidders TrimSpace Sprintf_2f bidders |}.

(** The engine of package internal behind the interface.  Every error
    [ProcessBids] returns is made by [NewProcessingErrorWithCause] or
    [NewTimeoutError]: a [*ProcessingError] or a [*TimeoutError], not a
    [*AuctionError]. *)
Definition internal_engine (srt : Sorter) (now : Time)
    (be : internal_BiddingEngine) : BiddingEngine :=
  {| BiddingEngine_ProcessBids := fun bidders h =>
       let '(h', r) := ProcessBids srt be now bidders h in
       match r with
       | inl err => (h', (None, Some (of_other err)))
       | inr result => (h', (Some result, None))
       end |}.

Definition NewAuctionService (srt : Sorter) (now : Time) : AuctionService :=
  {| validator := NewBidValidator;
     engine := internal_engine srt now NewBiddingEngine |}.

End service.

End auction.

(** ** The library functions, for the examples

    [strings.TrimSpace] on strings of ASCII characters, and
    [fmt.Sprintf("%.2f", x)]: the decimal with two fractional digits
    nearest to [x], ties to even. *)

Definition ascii_space (c : Ascii.ascii) : bool :=
  let n := Ascii.nat_of_ascii c in
  ((9 <=? n) && (n <=? 13) || (n =? 32))%nat.

Fixpoint trim_left (s : string) : string :=
  match s with
  | String c s' => if ascii_space c then trim_left s' else s
  | EmptyString => EmptyString
  end.

Definition ascii_TrimSpace (s : string) : string :=
  String.rev (trim_left (String.rev (trim_left s))).

(** The integer nearest to [m * 2^e * 100], ties to even. *)
Definition hundredths (m : positive) (e : Z) : Z :=
  let n := Z.pos m * 100 in
  if 0 <=? e then Z.shiftl n e
  else
    let q := Z.shiftr n (- e) in
    let r := n - Z.shiftl q (- e) in
    let half := Z.shiftl 1 (- e - 1) in
    if (half <? r) || ((r =? half) && Z.odd q) then q + 1 else q.

Definition decimal_2f (x : float64) : string :=
  match x with
  | S754_nan => "NaN"
  | S754_infinity s => if s then "-Inf" else "+Inf"
  | S754_zero s => (if s then "-" else "") +:+ "0.00"
  | S754_finite s m e =>
      let n := hundredths m e in
      (if s then "-" else "") +:+ pretty (n / 100) +:+ "." +:+
      (if n mod 100 <? 10 then "0" else "") +:+ pretty (n mod 100)
  end.

(** Two bidders with one id, the second with a negative increment, and a
    third with a blank name. *)
Definition rejected_bidders : list Bidder :=
  [ bidder_at 0 "A" "Alice" (dollars 10000) (dollars 20000) (dollars 500);
    bidder_at 1 "A" "Bob" (dollars 10000) (dollars 20000)
      (SFopp (dollars 500));
    bidder_at 2 "C" "  " (dollars 30000) (dollars 20000) (dollars 500) ].

(** A [float64] that is not below zero: NaN, a zero, a positive number
    or the positive infinity. *)
Definition not_negative (x : float64) : Prop :=
  match x with
  | S754_finite true _ _ | S754_infinity true => False
  | _ => True
  end.

(** An amount whose cents are in range: the conversion did not yield
    the out-of-range value, and sums of two such amounts fit [int64]. *)
Definition in_range_cents (x : float64) : Prop :=
  - 2 ^ 63 < DollarsToCents x < 2 ^ 62.

Definition amounts_in_range (b : Bidder) : Prop :=
  in_range_cents (StartingBid b) /\ in_range_cents (MaxBid b) /\
  in_range_cents (AutoIncrement b).

(** * Vocabulary for the amended claims *)

(** The price rule of the specification for the input bidder [b] at
    index [i], read on the decimal amounts of the input: the other
    bidders are the bidders at the other indices. *)
Definition minimum_winning_bid_at (input : list Bidder) (i : nat)
    (b : Bidder) : Z :=
  match delete i input with
  | [] => DollarsToCents (StartingBid b)
  | os =>
      clamp (DollarsToCents (StartingBid b)) (DollarsToCents (MaxBid b))
        (highest (fun o => DollarsToCents (MaxBid o)) os
         + DollarsToCents (AutoIncrement b))
  end.

(** The conditions the claims put on a bidder's amounts, in minor units,
    without a bound on their size. *)
Definition positive_amounts (b : Bidder) : Prop :=
  0 < DollarsToCents (StartingBid b) /\
  DollarsToCents (StartingBid b) <= DollarsToCents (MaxBid b) /\
  0 < DollarsToCents (AutoIncrement b).

(** Amounts of 9e16 dollars: their cents are [int64] values, the sum of
    two of them is not. *)
Definition overflow_auction : list Bidder :=
  [ bidder_at 0 "O" "Olga" (dollars 10000) (f64_of_Z 90000000000000000)
      (f64_of_Z 91000000000000000);
    bidder_at 1 "W" "Walt" (dollars 20000) (dollars 30000)
      (f64_of_Z 90000000000000000) ].

(** Two bidders under one id. *)
Definition same_id_auction : list Bidder :=
  [ bidder_at 0 "A" "Alice" (dollars 10000) (dollars 20000) (dollars 1000);
    bidder_at 1 "A" "Bob" (dollars 10000) (dollars 15000) (dollars 1000) ].

(** Who a bidder is: the name and the parameters fixed at creation. *)
Definition identity (b : Bidder) : string * (string * Time * Z * Z * Z) :=
  (Name b, params b).
(** * Properties *)

(** ** Machine numbers *)

Lemma wrap64_small (z : Z) : in_int64 z -> wrap64 z = z.
Proof.
  unfold in_int64, wrap64. intros Hz.
  rewrite Z.mod_small; lia.
Qed.



Lemma int64_of_f64_range (x : float64) : in_int64 (int64_of_f64 x).
Proof.
  unfold in_int64. destruct x as [s|s| |s m e]; simpl; try lia.
  match goal with |- context [if ?c then _ else _] =>
    match c with andb _ _ => destruct c eqn:Hc end end; [|lia].
  apply andb_prop in Hc as [H1 H2].
  apply Z.leb_le in H1. apply Z.ltb_lt in H2.
  revert H1 H2. generalize (2 ^ 63). intros. lia.
Qed.

Lemma DollarsToCents_range (x : float64) : in_int64 (DollarsToCents x).
Proof. apply int64_of_f64_range. Qed.

(** ** The bidder entity *)

Lemma same_params_refl (b : Bidder) : same_params b b.
Proof. reflexivity. Qed.

Lemma same_params_trans (a b c : Bidder) :
  same_params a b -> same_params b c -> same_params a c.
Proof. unfold same_params; congruence. Qed.

Lemma same_params_fields (a b : Bidder) :
  same_params a b ->
  ID a = ID b /\ EntryTime a = EntryTime b /\
  startingBidCents a = startingBidCents b /\
  maxBidCents a = maxBidCents b /\
  autoIncrementCents a = autoIncrementCents b.
Proof. unfold same_params, params. intros [= -> -> -> -> ->]. tauto. Qed.

Lemma Increment_params (b : Bidder) : same_params b (snd (Increment b)).
Proof.
  unfold Increment. destruct (negb (CanIncrement b)); simpl.
  - apply same_params_refl.
  - destruct (_ <=? _); reflexivity.
Qed.

Lemma Increment_n_params (n : nat) (b : Bidder) :
  same_params b (Increment_n n b).
Proof.
  induction n as [|n IH]; simpl.
  - apply same_params_refl.
  - eapply same_params_trans; [exact IH|apply Increment_params].
Qed.

Lemma Increment_false (b : Bidder) :
  CanIncrement b = false -> Increment b = (false, b).
Proof. unfold Increment. intros ->. reflexivity. Qed.

Lemma Increment_true (b : Bidder) :
  CanIncrement b = true -> fst (Increment b) = true.
Proof. unfold Increment. intros ->. reflexivity. Qed.


(** The current bid after a successful call, whatever the amounts: the
    wrapped sum; the clamp replaces it by an equal value. *)
Lemma Increment_current (b : Bidder) :
  CanIncrement b = true ->
  currentBidCents (snd (Increment b))
  = int64_add (currentBidCents b) (autoIncrementCents b).
Proof.
  unfold Increment. intros Hc. rewrite Hc. simpl.
  unfold CanIncrement in Hc. apply andb_prop in Hc as [_ Hle].
  apply Z.leb_le in Hle.
  destruct (_ <=? _) eqn:Hge; simpl; [|reflexivity].
  apply Z.leb_le in Hge. lia.
Qed.

Lemma Increment_active (b : Bidder) :
  CanIncrement b = true ->
  IsActive (snd (Increment b))
  = negb (maxBidCents b
          <=? int64_add (currentBidCents b) (autoIncrementCents b)).
Proof.
  unfold Increment. intros Hc. rewrite Hc. simpl.
  unfold CanIncrement in Hc. apply andb_prop in Hc as [Ha _].
  destruct (_ <=? _); simpl; [reflexivity|exact Ha].
Qed.

Lemma Increment_exact (b : Bidder) :
  bid_inv b -> CanIncrement b = true ->
  currentBidCents (snd (Increment b))
  = currentBidCents b + autoIncrementCents b /\
  currentBidCents b + autoIncrementCents b <= maxBidCents b.
Proof.
  intros (Hs & Hc & Hi & Hm) Hcan.
  rewrite (Increment_current _ Hcan).
  unfold CanIncrement in Hcan. apply andb_prop in Hcan as [_ Hle].
  apply Z.leb_le in Hle. revert Hle. unfold int64_add.
  rewrite wrap64_small; [lia|].
  unfold in_int64 in *. lia.
Qed.

Lemma Increment_inv (b : Bidder) : bid_inv b -> bid_inv (snd (Increment b)).
Proof.
  intros Hb. destruct (CanIncrement b) eqn:Hcan.
  - destruct (Increment_exact b Hb Hcan) as [Hcur Hle].
    destruct (same_params_fields _ _ (Increment_params b)) as (_ & _ & Hs & Hm & Hi).
    destruct Hb as (H1 & H2 & H3 & H4).
    unfold bid_inv, in_int64 in *. rewrite <- Hs, <- Hm, <- Hi, Hcur.
    repeat split; lia.
  - rewrite (Increment_false _ Hcan). exact Hb.
Qed.

Lemma Increment_n_inv (n : nat) (b : Bidder) :
  bid_inv b -> bid_inv (Increment_n n b).
Proof.
  intros Hb. induction n as [|n IH]; simpl; [exact Hb|].
  apply Increment_inv, IH.
Qed.

Lemma NewBidder_inv now id name s m a :
  let b0 := NewBidder now id name s m a in
  startingBidCents b0 <= maxBidCents b0 ->
  0 < autoIncrementCents b0 ->
  maxBidCents b0 + autoIncrementCents b0 < 2 ^ 63 ->
  bid_inv b0.
Proof.
  simpl. intros H1 H2 H3. unfold bid_inv; simpl.
  split; [apply DollarsToCents_range|]. lia.
Qed.





(** C3, refuted.  A bidder with starting bid 9e16, maximum bid 9.1e16 and
    increment 9e16 dollars meets [startingBid <= maxBid] and
    [autoIncrement > 0]; all three amounts are [int64] values in cents.
    The sum [currentBid + autoIncrement] wraps around to a negative
    number, which passes the test of [CanIncrement]: [Increment] succeeds
    and the current bid drops from 9e18 cents below the starting bid. *)
Lemma C3_invariant_breaks_on_overflow :
  let b0 := NewBidder 0 "1" "Alice" (f64_of_Z 90000000000000000)
              (f64_of_Z 91000000000000000) (f64_of_Z 90000000000000000) in
  startingBidCents b0 <= maxBidCents b0 /\
  0 < autoIncrementCents b0 /\
  currentBidCents b0 = 9000000000000000000 /\
  fst (Increment b0) = true /\
  currentBidCents (snd (Increment b0)) = - 446744073709551616 /\
  ~ (startingBidCents b0 <= currentBidCents (snd (Increment b0))) /\
  ~ (currentBidCents b0 <= currentBidCents (snd (Increment b0))).
Proof. vm_compute. repeat split; congruence. Qed.




(** ** One pass of the round loop *)

Lemma findHighestBidCents_loop_spec (rest : list Bidder) (h H : Z) :
  findHighestBidCents_loop rest h = inr H ->
  h <= H /\
  Forall (fun b => 0 <= currentBidCents b <= H) rest /\
  (H = h \/ exists b, b ∈ rest /\ currentBidCents b = H).
Proof.
  revert h. induction rest as [|b rest IH]; simpl; intros h Hr.
  - injection Hr as <-. split; [lia|]. split; [constructor|]. now left.
  - unfold GetCurrentBidCents in Hr.
    destruct (currentBidCents b <? 0) eqn:Hneg; [discriminate|].
    apply Z.ltb_ge in Hneg. apply IH in Hr as (Hle & Hall & Hin).
    destruct (h <? currentBidCents b) eqn:Hlt.
    + apply Z.ltb_lt in Hlt. split; [lia|]. split.
      * constructor; [lia|exact Hall].
      * right. destruct Hin as [->|(b' & Hb' & Hcur)].
        -- exists b. split; [left|reflexivity].
        -- exists b'. split; [now right|exact Hcur].
    + apply Z.ltb_ge in Hlt. split; [lia|]. split.
      * constructor; [lia|exact Hall].
      * destruct Hin as [->|(b' & Hb' & Hcur)]; [now left|].
        right. exists b'. split; [now right|exact Hcur].
Qed.

Lemma findHighestBidCents_spec (bidders : list Bidder) (H : Z) :
  bidders <> [] ->
  findHighestBidCents bidders = inr H ->
  Forall (fun b => 0 <= currentBidCents b <= H) bidders /\
  exists b, b ∈ bidders /\ currentBidCents b = H.
Proof.
  destruct bidders as [|b0 rest]; [congruence|]. intros _. simpl.
  unfold GetCurrentBidCents.
  destruct (currentBidCents b0 <? 0) eqn:Hneg; [discriminate|].
  apply Z.ltb_ge in Hneg.
  destruct (findHighestBidCents_loop rest (currentBidCents b0)) as [e|H']
    eqn:Hloop; [discriminate|].
  destruct (H' <? 0); [discriminate|]. intros [= <-].
  apply findHighestBidCents_loop_spec in Hloop as (Hle & Hall & Hin).
  split.
  - constructor; [lia|exact Hall].
  - destruct Hin as [->|(b' & Hb' & Hcur)].
    + exists b0. split; [left|reflexivity].
    + exists b'. split; [now right|exact Hcur].
Qed.

Lemma findHighestBidCents_loop_total (rest : list Bidder) (h : Z) :
  Forall (fun b => 0 <= currentBidCents b) rest ->
  exists H, findHighestBidCents_loop rest h = inr H.
Proof.
  intros Hall. revert h. induction Hall as [|b rest Hb _ IH]; simpl; intros h.
  - eauto.
  - unfold GetCurrentBidCents.
    destruct (currentBidCents b <? 0) eqn:Hneg.
    + apply Z.ltb_lt in Hneg. lia.
    + apply IH.
Qed.

Lemma findHighestBidCents_total (bidders : list Bidder) :
  Forall (fun b => 0 <= currentBidCents b) bidders ->
  exists H, findHighestBidCents bidders = inr H.
Proof.
  intros Hall. destruct Hall as [|b rest Hb Hrest]; simpl; [eauto|].
  unfold GetCurrentBidCents.
  destruct (currentBidCents b <? 0) eqn:Hneg.
  { apply Z.ltb_lt in Hneg. lia. }
  destruct (findHighestBidCents_loop_total rest (currentBidCents b) Hrest)
    as [H HH].
  rewrite HH.
  apply findHighestBidCents_loop_spec in HH as (Hle & _ & _).
  destruct (H <? 0) eqn:Hn; [|eauto].
  apply Z.ltb_lt in Hn. lia.
Qed.

Lemma IncrementBids_loop_spec (H : Z) (todo done : list Bidder) (any : bool) :
  IncrementBids_loop H (seq (length done) (length todo)) (done ++ todo) any
  = (done ++ map (round_step H) todo, inr (any || existsb (losing H) todo)).
Proof.
  revert done any. induction todo as [|b todo IH]; intros done any; simpl.
  - rewrite orb_false_r. reflexivity.
  - rewrite list_lookup_middle by reflexivity.
    unfold GetCurrentBidCents, round_step, losing.
    rewrite (Z.ltb_antisym H (currentBidCents b)).
    destruct (H <=? currentBidCents b) eqn:Hle; simpl.
    + specialize (IH (done ++ [b]) any).
      rewrite length_app, Nat.add_1_r, <- !app_assoc in IH. exact IH.
    + destruct (CanIncrement b) eqn:Hcan; simpl.
      * pose proof (Increment_true b Hcan) as Hok.
        destruct (Increment b) as [ok b'] eqn:HI. simpl in Hok. subst ok.
        simpl.
        rewrite insert_app_r_alt by lia. rewrite Nat.sub_diag. simpl.
        specialize (IH (done ++ [b']) true).
        rewrite length_app, Nat.add_1_r, <- !app_assoc in IH. simpl in IH.
        rewrite IH, orb_true_r. reflexivity.
      * specialize (IH (done ++ [b]) any).
        rewrite length_app, Nat.add_1_r, <- !app_assoc in IH. exact IH.
Qed.

Lemma IncrementBids_spec (bidders : list Bidder) (H : Z) :
  (2 <= length bidders)%nat ->
  findHighestBidCents bidders = inr H ->
  IncrementBids bidders
  = (map (round_step H) bidders, inr (existsb (losing H) bidders)).
Proof.
  intros Hlen HH. unfold IncrementBids.
  destruct (length bidders <=? 1)%nat eqn:Hle.
  { apply Nat.leb_le in Hle. lia. }
  rewrite HH. apply (IncrementBids_loop_spec H bidders [] false).
Qed.

(** C2. In a pass over at least two bidders, with [H] the highest
    current bid computed at the start of the pass: [H] is the maximum of
    the current bids; the pass leaves the slice with exactly the bidders
    that are below [H] and can increment changed by one [Increment] call,
    every other bidder untouched; in particular a bidder at [H] is
    untouched, and all comparisons use the round-start [H]. *)
Theorem C2_round_pass (bidders : list Bidder) (H : Z) :
  (2 <= length bidders)%nat ->
  findHighestBidCents bidders = inr H ->
  (Forall (fun b => currentBidCents b <= H) bidders /\
   exists b, b ∈ bidders /\ currentBidCents b = H) /\
  IncrementBids bidders
  = (map (round_step H) bidders, inr (existsb (losing H) bidders)) /\
  forall (i : nat) (b : Bidder),
    bidders !! i = Some b ->
    fst (IncrementBids bidders) !! i
    = Some (if (currentBidCents b <? H) && CanIncrement b
            then snd (Increment b) else b) /\
    ((currentBidCents b <? H) && CanIncrement b = true ->
     fst (Increment b) = true) /\
    (currentBidCents b = H -> fst (IncrementBids bidders) !! i = Some b).
Proof.
  intros Hlen HH.
  assert (Hne : bidders <> []) by (destruct bidders; simpl in *; [lia|congruence]).
  destruct (findHighestBidCents_spec bidders H Hne HH) as [Hall Hex].
  pose proof (IncrementBids_spec bidders H Hlen HH) as Hspec.
  split.
  { split; [|exact Hex]. eapply Forall_impl; [exact Hall|]. simpl. lia. }
  split; [exact Hspec|].
  intros i b Hi. rewrite Hspec. simpl.
  rewrite list_lookup_fmap, Hi. simpl. unfold round_step, losing.
  split; [reflexivity|]. split.
  - intros Hl. apply andb_prop in Hl as [_ Hcan]. apply Increment_true, Hcan.
  - intros ->. rewrite Z.ltb_irrefl. reflexivity.
Qed.

(** ** The store *)

Lemma for_each_map_aux {A : Type} (f : A -> A) (todo done : list A) :
  foldl (fun acc i =>
           match acc !! i with
           | Some x => <[i := f x]> acc
           | None => acc
           end) (done ++ todo) (seq (length done) (length todo))
  = done ++ map f todo.
Proof.
  revert done. induction todo as [|x todo IH]; intros done; simpl.
  - reflexivity.
  - rewrite list_lookup_middle by reflexivity.
    rewrite insert_app_r_alt by lia. rewrite Nat.sub_diag. simpl.
    specialize (IH (done ++ [f x])).
    rewrite length_app, Nat.add_1_r, <- !app_assoc in IH. exact IH.
Qed.

Lemma for_each_map {A : Type} (f : A -> A) (l : list A) :
  for_each f l = map f l.
Proof. apply (for_each_map_aux f l []). Qed.

Lemma slice_contents_insert (h : store) (s : slice) (l : list Bidder) :
  slice_contents (<[s := l]> h) s = l.
Proof. unfold slice_contents. rewrite lookup_insert_eq. reflexivity. Qed.

Lemma in_place_insert {A : Type} (f : list Bidder -> list Bidder * A)
    (h : store) (s : slice) (l : list Bidder) :
  in_place f s (<[s := l]> h) = (<[s := fst (f l)]> h, snd (f l)).
Proof.
  unfold in_place. rewrite slice_contents_insert.
  destruct (f l) as [l' a]. simpl.
  rewrite alter_insert_eq. reflexivity.
Qed.

Lemma round_loop_rounds_from (fuel : nat) (rounds : Z) (w : slice)
    (h : store) (ws : list Bidder) :
  round_loop fuel rounds w (<[w := ws]> h)
  = (<[w := fst (rounds_from fuel rounds ws)]> h,
     snd (rounds_from fuel rounds ws)).
Proof.
  revert rounds ws. induction fuel as [|fuel IH]; intros rounds ws; simpl.
  - reflexivity.
  - rewrite in_place_insert.
    destruct (IncrementBids ws) as [ws' [err|incremented]]; simpl.
    + reflexivity.
    + destruct incremented; [apply IH|reflexivity].
Qed.

(** [ProcessBids] on a non-empty slice allocates a fresh working slice and
    leaves in it what [run] computes. *)
Lemma ProcessBids_run (srt : Sorter) (be : BiddingEngine) (now : Time)
    (s : slice) (h : store) :
  slice_contents h s <> [] ->
  ProcessBids srt be now s h
  = (<[fresh (dom h) := fst (run srt be now (fresh (dom h))
                               (slice_contents h s))]> h,
     snd (run srt be now (fresh (dom h)) (slice_contents h s))).
Proof.
  intros Hne. unfold ProcessBids, run, prepare.
  set (input := slice_contents h s) in *.
  set (w := fresh (dom h)).
  destruct (length input =? 0)%nat eqn:Hlen.
  { apply Nat.eqb_eq in Hlen. destruct input; simpl in *; congruence. }
  rewrite alter_insert_eq, alter_insert_eq, for_each_map.
  rewrite round_loop_rounds_from.
  destruct (rounds_from _ 0 _) as [ws [err|rounds]]; simpl; [reflexivity|].
  destruct (maxRounds be <=? rounds); [reflexivity|].
  rewrite slice_contents_insert.
  destruct (findWinner ws) as [err|[i|]]; simpl.
  - reflexivity.
  - destruct (CalculateMinimumWinningBidCents ws (ws !! i)) as [err|c];
      simpl; [reflexivity|].
    rewrite alter_insert_eq, for_each_map. reflexivity.
  - rewrite alter_insert_eq, for_each_map. reflexivity.
Qed.

Lemma slice_contents_empty (h : store) (s : slice) :
  slice_contents h s = [] -> h !! s = None \/ h !! s = Some [].
Proof.
  unfold slice_contents. destruct (h !! s) as [l|]; simpl.
  - intros ->. now right.
  - now left.
Qed.

Lemma ProcessBids_empty (srt : Sorter) (be : BiddingEngine) (now : Time)
    (s : slice) (h : store) :
  slice_contents h s = [] ->
  ProcessBids srt be now s h
  = (h, inr (mkBidResult None (f64_of_Z 0) 0 0 s 0)).
Proof.
  intros He. unfold ProcessBids, NewBidResult. rewrite He. simpl.
  assert (Hh : alter (for_each SyncFloatFields) s h = h).
  { apply map_eq. intros j.
    destruct (decide (s = j)) as [<-|Hne].
    - rewrite lookup_alter_eq.
      destruct (slice_contents_empty h s He) as [-> | ->]; reflexivity.
    - rewrite lookup_alter_ne by assumption. reflexivity. }
  rewrite Hh. reflexivity.
Qed.

(** C8. On the empty bidder list [ProcessBids] returns, without an error,
    the empty result: no winner, winning bid zero (as a dollar amount and
    in cents), zero bidders, zero rounds, and the (empty) list it was
    given as final bidder list; the store is unchanged. *)
Theorem C8_empty_input (srt : Sorter) (be : BiddingEngine) (now : Time)
    (bidders : slice) (h : store) :
  slice_contents h bidders = [] ->
  exists br,
    ProcessBids srt be now bidders h = (h, inr br) /\
    Winner br = None /\
    WinningBid br = S754_zero false /\
    GetWinningBidCents br = 0 /\
    TotalBidders br = 0 /\
    BiddingRounds br = 0 /\
    slice_contents h (AllBidders br) = [].
Proof.
  intros He. eexists. split; [apply ProcessBids_empty, He|].
  simpl. repeat split; try reflexivity. exact He.
Qed.

Lemma C8_empty_input_witness :
  exists br,
    ProcessBids insertion_Sorter NewBiddingEngine 0 1%positive
      {[ 1%positive := [] ]}
    = ({[ 1%positive := [] ]}, inr br) /\
    Winner br = None /\
    WinningBid br = S754_zero false /\
    GetWinningBidCents br = 0 /\
    TotalBidders br = 0 /\
    BiddingRounds br = 0 /\
    slice_contents {[ 1%positive := [] ]} (AllBidders br) = [].
Proof.
  apply (C8_empty_input insertion_Sorter NewBiddingEngine 0 1%positive
           {[ 1%positive := [] ]}).
  reflexivity.
Defined.

(** C10. [ProcessBids] never modifies the caller's slice, nor any other
    slice of the store it was called in: the engine writes to a freshly
    allocated working copy only. *)
Theorem C10_caller_slice_unchanged (srt : Sorter) (be : BiddingEngine)
    (now : Time) (bidders : slice) (h : store) :
  fst (ProcessBids srt be now bidders h) !! bidders = h !! bidders /\
  forall s : slice,
    is_Some (h !! s) -> fst (ProcessBids srt be now bidders h) !! s = h !! s.
Proof.
  destruct (decide (slice_contents h bidders = [])) as [He|Hne].
  - rewrite (ProcessBids_empty _ _ _ _ _ He). simpl. split; reflexivity.
  - rewrite (ProcessBids_run _ _ _ _ _ Hne). simpl.
    assert (Hfresh : forall s, is_Some (h !! s) -> fresh (dom h) <> s).
    { intros s Hs <-. apply (is_fresh (dom h)). apply elem_of_dom, Hs. }
    split.
    + apply lookup_insert_ne, Hfresh.
      unfold slice_contents in Hne.
      destruct (h !! bidders); [eauto|]. simpl in Hne. congruence.
    + intros s Hs. apply lookup_insert_ne, Hfresh, Hs.
Qed.

(** ** The sorts meet the contract of [sort.Slice] *)

Lemma insert_before_perm_any {A : Type} (stop : A -> A -> bool) (x : A)
    (l : list A) : insert_before stop x l ≡ₚ x :: l.
Proof.
  induction l as [|y l IH]; simpl; [reflexivity|].
  destruct (stop x y); [reflexivity|].
  rewrite IH. apply Permutation_swap.
Qed.

Section InsertionSort.
Context {A : Type} (less stop : A -> A -> bool).
Hypothesis stop_before : forall x y, stop x y = false -> less x y = false.
Hypothesis stop_after : forall x y, stop x y = true -> less y x = false.
Hypothesis stop_rest :
  forall x y z, stop x y = true -> less z y = false -> less z x = false.

Lemma insert_before_sorted (x : A) (l : list A) :
  sorted_by less l -> sorted_by less (insert_before stop x l).
Proof.
  unfold sorted_by. induction 1 as [|y l Hl IH Hy]; simpl.
  - repeat constructor.
  - destruct (stop x y) eqn:Hs.
    + constructor; [constructor; assumption|].
      constructor; [apply stop_after, Hs|].
      eapply Forall_impl; [exact Hy|]. simpl. intros z Hz.
      eapply stop_rest; eassumption.
    + constructor; [exact IH|].
      rewrite insert_before_perm_any.
      constructor; [apply stop_before, Hs|exact Hy].
Qed.

Lemma insertion_sort_aux (l acc : list A) :
  sorted_by less acc ->
  sorted_by less (foldl (fun sorted x => insert_before stop x sorted) acc l)
  /\ foldl (fun sorted x => insert_before stop x sorted) acc l ≡ₚ l ++ acc.
Proof.
  revert acc. induction l as [|x l IH]; intros acc Hacc; simpl.
  - split; [exact Hacc|reflexivity].
  - destruct (IH (insert_before stop x acc)) as [Hs Hp].
    { apply insert_before_sorted, Hacc. }
    split; [exact Hs|].
    rewrite Hp, insert_before_perm_any.
    symmetry. apply Permutation_middle.
Qed.
End InsertionSort.

Lemma strict_weak_asym {A : Type} (less : A -> A -> bool) (x y : A) :
  strict_weak less -> less x y = true -> less y x = false.
Proof.
  intros Hsw Hxy. destruct (less y x) eqn:Hyx; [|reflexivity].
  rewrite <- (sw_irrefl less Hsw x). symmetry.
  eapply sw_trans; eassumption.
Qed.

Lemma insertion_sort_Permutation {A : Type} (stop : A -> A -> bool)
    (l : list A) : insertion_sort stop l ≡ₚ l.
Proof.
  unfold insertion_sort.
  assert (H : forall acc,
             foldl (fun sorted x => insert_before stop x sorted) acc l
             ≡ₚ l ++ acc).
  { induction l as [|x l IH]; intros acc; simpl; [reflexivity|].
    rewrite IH, insert_before_perm_any. symmetry. apply Permutation_middle. }
  rewrite H, app_nil_r. reflexivity.
Qed.

Lemma insertion_Sorter_contract : Sorter_contract insertion_Sorter.
Proof.
  split; simpl; intros A less l.
  - apply insertion_sort_Permutation.
  - intros Hsw. unfold insertion_sort.
    apply (insertion_sort_aux less less).
    + auto.
    + intros x y. apply strict_weak_asym, Hsw.
    + intros x y z Hxy Hzy. destruct (less z x) eqn:Hzx; [|reflexivity].
      rewrite <- Hzy. symmetry. eapply sw_trans; eassumption.
    + constructor.
Qed.

Lemma ties_reversing_Sorter_contract : Sorter_contract ties_reversing_Sorter.
Proof.
  split; simpl; intros A less l.
  - apply insertion_sort_Permutation.
  - intros Hsw. unfold insertion_sort.
    apply (insertion_sort_aux less (fun x y => negb (less y x))).
    + intros x y Hs. apply negb_false_iff in Hs.
      apply strict_weak_asym; assumption.
    + intros x y Hs. apply negb_true_iff in Hs. exact Hs.
    + intros x y z Hs Hzy. apply negb_true_iff in Hs.
      eapply sw_incomparable; eassumption.
    + constructor.
Qed.

Lemma by_EntryTime_strict_weak : strict_weak by_EntryTime.
Proof.
  split; unfold by_EntryTime, Before.
  - intros x. apply Z.ltb_irrefl.
  - intros x y z H1 H2. apply Z.ltb_lt in H1, H2. apply Z.ltb_lt. lia.
  - intros x y z H1 H2. apply Z.ltb_ge in H1, H2. apply Z.ltb_ge. lia.
Qed.

(** ** Invariants of the working set *)

Lemma valid_state_bid_inv (b : Bidder) : valid_state b -> bid_inv b.
Proof.
  unfold valid_state, amounts_ok, bid_inv, in_int64.
  intros ((H1 & H2 & H3 & H4 & H5) & H6).
  assert (2 ^ 63 = 2 * 2 ^ 62) by reflexivity. lia.
Qed.

Lemma headroom_nonneg (b : Bidder) : valid_state b -> 0 <= headroom b.
Proof.
  unfold valid_state, amounts_ok, headroom.
  intros ((H1 & H2 & H3 & H4 & H5) & H6).
  apply Z.div_pos; lia.
Qed.

Lemma total_headroom_nonneg (l : list Bidder) :
  Forall valid_state l -> 0 <= total_headroom l.
Proof.
  induction 1 as [|b l Hb _ IH]; simpl; [lia|].
  pose proof (headroom_nonneg b Hb). lia.
Qed.

Lemma round_step_params (H : Z) (b : Bidder) :
  params (round_step H b) = params b.
Proof.
  unfold round_step. destruct (losing H b); [|reflexivity].
  symmetry. apply Increment_params.
Qed.

Lemma round_step_valid (H : Z) (b : Bidder) :
  valid_state b -> valid_state (round_step H b).
Proof.
  intros Hb. unfold round_step. destruct (losing H b) eqn:Hl; [|exact Hb].
  apply andb_prop in Hl as [_ Hcan].
  destruct (Increment_exact b (valid_state_bid_inv b Hb) Hcan) as [Hcur Hle].
  destruct (same_params_fields _ _ (Increment_params b))
    as (_ & _ & Hs & Hm & Hi).
  unfold valid_state in *. rewrite <- Hs, <- Hm, <- Hi, Hcur.
  unfold amounts_ok in *. lia.
Qed.

Lemma round_step_headroom (H : Z) (b : Bidder) :
  valid_state b ->
  headroom (round_step H b) + (if losing H b then 1 else 0) <= headroom b.
Proof.
  intros Hb. unfold round_step. destruct (losing H b) eqn:Hl; [|lia].
  apply andb_prop in Hl as [_ Hcan].
  destruct (Increment_exact b (valid_state_bid_inv b Hb) Hcan) as [Hcur Hle].
  destruct (same_params_fields _ _ (Increment_params b))
    as (_ & _ & Hs & Hm & Hi).
  unfold headroom. rewrite <- Hm, <- Hi, Hcur.
  destruct Hb as ((H1 & H2 & H3 & H4 & H5) & H6).
  replace (maxBidCents b - (currentBidCents b + autoIncrementCents b))
    with (maxBidCents b - currentBidCents b + (- 1) * autoIncrementCents b)
    by lia.
  rewrite Z.div_add by lia. lia.
Qed.

Lemma round_step_idle (H : Z) (b : Bidder) :
  losing H b = false -> round_step H b = b.
Proof. unfold round_step. intros ->. reflexivity. Qed.

Lemma round_steps (H : Z) (ws : list Bidder) :
  Forall valid_state ws ->
  Forall valid_state (map (round_step H) ws) /\
  map params (map (round_step H) ws) = map params ws /\
  total_headroom (map (round_step H) ws)
    + (if existsb (losing H) ws then 1 else 0) <= total_headroom ws /\
  (existsb (losing H) ws = false -> map (round_step H) ws = ws).
Proof.
  induction 1 as [|b ws Hb Hws (IH1 & IH2 & IH3 & IH4)]; simpl.
  - repeat split; [constructor|lia].
  - pose proof (round_step_headroom H b Hb) as Hh.
    pose proof (headroom_nonneg _ (round_step_valid H b Hb)) as Hn.
    pose proof (total_headroom_nonneg _ IH1) as Hn'.
    repeat split.
    + constructor; [apply round_step_valid, Hb|exact IH1].
    + rewrite round_step_params, IH2. reflexivity.
    + destruct (losing H b); simpl; [|lia].
      destruct (existsb (losing H) ws); lia.
    + intros Hor. apply orb_false_elim in Hor as [Hl Hr].
      rewrite (round_step_idle _ _ Hl), (IH4 Hr). reflexivity.
Qed.

Lemma valid_state_current_nonneg (ws : list Bidder) :
  Forall valid_state ws -> Forall (fun b => 0 <= currentBidCents b) ws.
Proof.
  intros Hws. eapply Forall_impl; [exact Hws|].
  unfold valid_state, amounts_ok. intros b. lia.
Qed.

(** One pass on a valid working set never fails. *)
Lemma IncrementBids_valid (ws : list Bidder) :
  Forall valid_state ws ->
  exists ws' incremented,
    IncrementBids ws = (ws', inr incremented) /\
    Forall valid_state ws' /\
    map params ws' = map params ws /\
    total_headroom ws' + (if incremented then 1 else 0) <= total_headroom ws /\
    (incremented = false -> ws' = ws).
Proof.
  intros Hws. destruct (le_lt_dec (length ws) 1) as [Hshort|Hlong].
  - exists ws, false. unfold IncrementBids.
    apply Nat.leb_le in Hshort. rewrite Hshort.
    repeat split; [exact Hws|lia].
  - destruct (findHighestBidCents_total ws (valid_state_current_nonneg ws Hws))
      as [H HH].
    destruct (round_steps H ws Hws) as (H1 & H2 & H3 & H4).
    exists (map (round_step H) ws), (existsb (losing H) ws).
    rewrite (IncrementBids_spec ws H) by (assumption || lia).
    repeat split; assumption.
Qed.

Lemma rounds_from_valid (fuel : nat) (rounds : Z) (ws : list Bidder) :
  Forall valid_state ws ->
  Forall valid_state (fst (rounds_from fuel rounds ws)) /\
  map params (fst (rounds_from fuel rounds ws)) = map params ws.
Proof.
  revert rounds ws. induction fuel as [|fuel IH]; intros rounds ws Hws; simpl.
  - split; [exact Hws|reflexivity].
  - destruct (IncrementBids_valid ws Hws)
      as (ws' & inc & -> & Hws' & Hp & _ & _).
    destruct inc; simpl.
    + destruct (IH (rounds + 1) ws' Hws') as [H1 H2].
      split; [exact H1|congruence].
    + split; assumption.
Qed.


(** ** Winner selection *)

Lemma findWinner_loop_total (bidders : list Bidder) (idxs : list nat)
    (winner : nat) :
  Forall (fun b => 0 <= currentBidCents b) bidders ->
  (winner < length bidders)%nat ->
  Forall (fun i => (i < length bidders)%nat) idxs ->
  exists w, findWinner_loop bidders idxs winner = inr w /\
            (w < length bidders)%nat.
Proof.
  intros Hpos Hw Hidx. revert winner Hw.
  induction Hidx as [|i idxs Hi _ IH]; intros winner Hw; simpl.
  - eauto.
  - destruct (lookup_lt_is_Some_2 bidders i Hi) as [current Hc].
    destruct (lookup_lt_is_Some_2 bidders winner Hw) as [w Hwb].
    rewrite Hc, Hwb. unfold GetCurrentBidCents.
    assert (Hcn : 0 <= currentBidCents current).
    { exact (Forall_lookup_1 _ _ _ _ Hpos Hc). }
    destruct (currentBidCents current <? 0) eqn:Hneg.
    { apply Z.ltb_lt in Hneg. lia. }
    destruct (currentBidCents w <? currentBidCents current); [apply IH, Hi|].
    destruct (currentBidCents current =? currentBidCents w); [|apply IH, Hw].
    destruct (Before _ _); [apply IH, Hi|apply IH, Hw].
Qed.

Lemma findWinner_total (bidders : list Bidder) :
  bidders <> [] ->
  Forall (fun b => 0 <= currentBidCents b) bidders ->
  exists i w, findWinner bidders = inr (Some i) /\ bidders !! i = Some w.
Proof.
  intros Hne Hpos. unfold findWinner.
  destruct (length bidders =? 0)%nat eqn:Hlen.
  { apply Nat.eqb_eq in Hlen. destruct bidders; simpl in *; congruence. }
  apply Nat.eqb_neq in Hlen.
  destruct (findWinner_loop_total bidders (seq 1 (length bidders - 1)) 0%nat
              Hpos) as (i & -> & Hi).
  { lia. }
  { apply Forall_forall. intros j Hj. apply elem_of_seq in Hj. lia. }
  destruct (lookup_lt_is_Some_2 bidders i Hi) as [w Hw].
  exists i, w. rewrite Hw. unfold GetCurrentBidCents.
  assert (Hcn : 0 <= currentBidCents w).
  { exact (Forall_lookup_1 _ _ _ _ Hpos Hw). }
  destruct (currentBidCents w <? 0) eqn:Hneg.
  { apply Z.ltb_lt in Hneg. lia. }
  split; reflexivity.
Qed.

(** ** The minimum winning bid *)

Lemma highest_nonneg (f : Bidder -> Z) (l : list Bidder) : 0 <= highest f l.
Proof. induction l as [|b l IH]; simpl; lia. Qed.

Lemma highest_bound (f : Bidder -> Z) (l : list Bidder) (B : Z) :
  0 < B -> Forall (fun b => f b < B) l -> highest f l < B.
Proof. intros HB. induction 1 as [|b l Hb _ IH]; simpl; lia. Qed.

Lemma highest_zero (f : Bidder -> Z) (l : list Bidder) :
  Forall (fun b => 0 < f b) l -> (highest f l = 0 <-> l = []).
Proof.
  intros Hl. split; [|intros ->; reflexivity].
  destruct Hl as [|b l Hb _]; [reflexivity|]. simpl.
  pose proof (highest_nonneg f l). lia.
Qed.


Lemma same_ID_decide (b w : Bidder) :
  same_ID b w = bool_decide (ID b = ID w).
Proof.
  unfold same_ID. destruct (String.eqb_spec (ID b) (ID w)) as [He|Hne].
  - rewrite bool_decide_eq_true_2; [reflexivity|exact He].
  - rewrite bool_decide_eq_false_2; [reflexivity|exact Hne].
Qed.

Lemma others_cons (w b : Bidder) (l : list Bidder) :
  others w (b :: l) = if same_ID b w then others w l else b :: others w l.
Proof.
  unfold others. rewrite filter_cons, same_ID_decide.
  destruct (decide (ID b <> ID w)) as [Hne|He].
  - rewrite bool_decide_eq_false_2; [reflexivity|exact Hne].
  - rewrite bool_decide_eq_true_2; [reflexivity|].
    destruct (decide (ID b = ID w)); [assumption|contradiction].
Qed.


Lemma others_Forall (P : Bidder -> Prop) (w : Bidder) (l : list Bidder) :
  Forall P l -> Forall P (others w l).
Proof.
  induction 1 as [|b l Hb _ IH]; [constructor|].
  rewrite others_cons. destruct (same_ID b w); [exact IH|].
  constructor; assumption.
Qed.

(** With pairwise distinct ids the other bidders are all the bidders but
    the one at the winner's position. *)
Lemma others_unique_ids (l : list Bidder) (i : nat) (w : Bidder) :
  NoDup (map ID l) -> l !! i = Some w -> others w l = delete i l.
Proof.
  revert i. induction l as [|b l IH]; intros i Hnd Hi; [discriminate|].
  simpl in Hnd. apply NoDup_cons in Hnd as [Hb Hnd].
  rewrite others_cons. destruct i as [|i]; simpl in Hi.
  - injection Hi as ->. unfold same_ID. rewrite String.eqb_refl. simpl.
    clear IH. induction l as [|c l IH]; [reflexivity|].
    simpl in Hb, Hnd. apply NoDup_cons in Hnd as [_ Hnd].
    rewrite others_cons. unfold same_ID.
    destruct (String.eqb_spec (ID c) (ID w)) as [He|_].
    + exfalso. apply Hb. rewrite He. left.
    + rewrite IH; [reflexivity| |exact Hnd].
      intros Hin. apply Hb. right. exact Hin.
  - unfold same_ID. destruct (String.eqb_spec (ID b) (ID w)) as [He|_].
    + exfalso. apply Hb. rewrite He.
      apply (list_elem_of_fmap_2 ID), (list_elem_of_lookup_2 _ _ _ Hi).
    + simpl. rewrite (IH i Hnd Hi). reflexivity.
Qed.


Lemma second_highest_fold (w : Bidder) (ws : list Bidder) (acc : Z) :
  0 <= acc ->
  foldl (fun secondHighestCents bidder =>
           if same_ID bidder w then secondHighestCents
           else if secondHighestCents <? GetMaxBidCents bidder
                then GetMaxBidCents bidder
                else secondHighestCents) acc ws
  = Z.max acc (highest maxBidCents (others w ws)).
Proof.
  revert acc. induction ws as [|b ws IH]; intros acc Hacc; simpl.
  - unfold others. simpl. lia.
  - rewrite others_cons. unfold GetMaxBidCents.
    destruct (same_ID b w); [apply IH, Hacc|]. simpl.
    destruct (Z.ltb_spec acc (maxBidCents b)); rewrite IH; lia.
Qed.

Lemma minimum_winning_bid_highest (f : Bidder -> Z) (w : Bidder)
    (l : list Bidder) :
  Forall (fun b => 0 < f b) l ->
  minimum_winning_bid f w l
  = if highest f (others w l) =? 0 then startingBidCents w
    else clamp (startingBidCents w) (maxBidCents w)
           (highest f (others w l) + autoIncrementCents w).
Proof.
  intros Hl. unfold minimum_winning_bid.
  pose proof (highest_zero f (others w l) (others_Forall _ w l Hl)) as Hz.
  destruct (others w l) as [|o os] eqn:Ho.
  - reflexivity.
  - destruct (Z.eqb_spec (highest f (o :: os)) 0) as [He|Hne];
      [|reflexivity].
    apply Hz in He. discriminate.
Qed.

(** On a valid working set the computation succeeds and follows the price
    rule. *)
Lemma CalculateMinimumWinningBidCents_valid (ws : list Bidder) (w : Bidder) :
  Forall valid_state ws -> w ∈ ws ->
  CalculateMinimumWinningBidCents ws (Some w)
  = inr (minimum_winning_bid maxBidCents w ws).
Proof.
  intros Hws Hw. unfold CalculateMinimumWinningBidCents.
  destruct (length ws =? 0)%nat eqn:Hlen.
  { apply Nat.eqb_eq in Hlen. destruct ws; [|discriminate].
    apply elem_of_nil in Hw. contradiction. }
  assert (Hfound : existsb (fun bidder => same_ID bidder w) ws = true).
  { apply existsb_exists. exists w. split.
    - apply list_elem_of_In, Hw.
    - unfold same_ID. apply String.eqb_refl. }
  rewrite Hfound. simpl.
  rewrite second_highest_fold by lia.
  assert (Hpos : Forall (fun b => 0 < maxBidCents b) ws).
  { eapply Forall_impl; [exact Hws|]. unfold valid_state, amounts_ok.
    intros b. simpl. lia. }
  assert (Hlt : Forall (fun b => maxBidCents b < 2 ^ 62) (others w ws)).
  { apply others_Forall. eapply Forall_impl; [exact Hws|].
    unfold valid_state, amounts_ok. intros b. simpl. lia. }
  rewrite (minimum_winning_bid_highest _ _ _ Hpos).
  pose proof (highest_nonneg maxBidCents (others w ws)) as Hn.
  pose proof (highest_bound maxBidCents _ (2 ^ 62) ltac:(lia) Hlt) as Hb.
  rewrite Z.max_r by lia.
  set (S := highest maxBidCents (others w ws)) in *.
  destruct (Z.eqb_spec S 0) as [_|Hne]; [reflexivity|].
  pose proof (Forall_forall valid_state ws) as [Hall _].
  destruct (Hall Hws w Hw) as ((H1 & H2 & H3 & H4 & H5) & _).
  unfold GetAutoIncrementCents, GetMaxBidCents, GetStartingBidCents, int64_add.
  assert (H63 : 2 ^ 63 = 2 * 2 ^ 62) by reflexivity.
  rewrite wrap64_small by (unfold in_int64; lia).
  unfold clamp.
  destruct (Z.ltb_spec (maxBidCents w) (S + autoIncrementCents w)).
  - rewrite Z.min_l by lia.
    destruct (Z.ltb_spec (maxBidCents w) (startingBidCents w)); [lia|].
    rewrite Z.max_r by lia.
    destruct (Z.ltb_spec (maxBidCents w) 0); [lia|reflexivity].
  - rewrite Z.min_r by lia.
    destruct (Z.ltb_spec (S + autoIncrementCents w) (startingBidCents w)).
    + rewrite Z.max_l by lia.
      destruct (Z.ltb_spec (startingBidCents w) 0); [lia|reflexivity].
    + rewrite Z.max_r by lia.
      destruct (Z.ltb_spec (S + autoIncrementCents w) 0); [lia|reflexivity].
Qed.

(** ** Preprocessing *)

Lemma reinitialize_valid (now : Time) (b : Bidder) :
  valid_input b -> valid_state (reinitialize now b).
Proof.
  unfold valid_input, valid_state, amounts_ok. simpl. lia.
Qed.


Lemma prepare_Permutation (srt : Sorter) (now : Time) (input : list Bidder) :
  Sorter_contract srt ->
  prepare srt now input ≡ₚ map (reinitialize now) input.
Proof. intros Hsrt. apply (sort_Slice_Permutation srt Hsrt). Qed.

Lemma prepare_valid (srt : Sorter) (now : Time) (input : list Bidder) :
  Sorter_contract srt ->
  Forall valid_input input -> Forall valid_state (prepare srt now input).
Proof.
  intros Hsrt Hin. rewrite (prepare_Permutation srt now input Hsrt).
  apply Forall_fmap. eapply Forall_impl; [exact Hin|].
  intros b. apply reinitialize_valid.
Qed.





Lemma highest_ext (f g : Bidder -> Z) (l : list Bidder) :
  (forall b, f b = g b) -> highest f l = highest g l.
Proof.
  intros Hfg. induction l as [|b l IH]; simpl; [reflexivity|].
  rewrite Hfg, IH. reflexivity.
Qed.


(** ** Termination of the rounds *)






(** ** The tie of two identical bidders *)




(** ** The order of the working set *)

Lemma round_step_map_params (H : Z) (ws : list Bidder) :
  map params (map (round_step H) ws) = map params ws.
Proof.
  induction ws as [|b ws IH]; simpl; [reflexivity|].
  rewrite round_step_params, IH. reflexivity.
Qed.

Lemma IncrementBids_params (ws : list Bidder) :
  map params (fst (IncrementBids ws)) = map params ws.
Proof.
  unfold IncrementBids. destruct (length ws <=? 1)%nat; [reflexivity|].
  destruct (findHighestBidCents ws) as [err|H]; [reflexivity|].
  pose proof (IncrementBids_loop_spec H ws [] false) as Hl.
  simpl in Hl. rewrite Hl. simpl.
  apply round_step_map_params.
Qed.

Lemma rounds_from_params (fuel : nat) (rounds : Z) (ws : list Bidder) :
  map params (fst (rounds_from fuel rounds ws)) = map params ws.
Proof.
  revert rounds ws. induction fuel as [|fuel IH]; intros rounds ws; simpl.
  - reflexivity.
  - pose proof (IncrementBids_params ws) as Hp.
    destruct (IncrementBids ws) as [ws' [err|inc]]; simpl in *; [exact Hp|].
    destruct inc; [rewrite IH|]; exact Hp.
Qed.




Lemma prepare_sorted (srt : Sorter) (now : Time) (input : list Bidder) :
  Sorter_contract srt ->
  StronglySorted (fun a b => EntryTime a <= EntryTime b)
    (prepare srt now input).
Proof.
  intros Hsrt.
  pose proof (sort_Slice_sorted srt Hsrt Bidder by_EntryTime
                (map (reinitialize now) input) by_EntryTime_strict_weak) as Hs.
  fold (prepare srt now input) in Hs. unfold sorted_by in Hs.
  induction Hs as [|z l Hl IH Hz]; constructor; [exact IH|].
  eapply Forall_impl; [exact Hz|]. simpl.
  unfold by_EntryTime, Before. intros b Hb. apply Z.ltb_ge in Hb. exact Hb.
Qed.




(** ** The claims on example auctions *)

Lemma second_price_auction_valid : Forall valid_input second_price_auction.
Proof. repeat constructor; vm_compute; congruence. Qed.


(** C1, refuted.  Two bidder lists that meet the conditions of the claim
    (positive amounts, [startingBid <= maxBid]).  In the first the highest
    maximum among the other bidders, 9e18 cents, plus the winner's
    increment, 9e18 cents, is not an [int64]: the sum wraps around to a
    negative number, the clamp raises it to the starting bid, and the
    winner pays 200.00 where the rule gives 300.00.  In the second both
    bidders carry the id "A": the code skips every bidder with the
    winner's id, finds no other bidder, and the winner pays its starting
    bid 100.00 where the rule, with the other bidder's maximum 150.00,
    gives 160.00. *)
Lemma C1_price_rule_breaks :
  (Forall positive_amounts overflow_auction /\
   exists h' br w b,
     ProcessBids insertion_Sorter NewBiddingEngine 0 1%positive
       (store_of overflow_auction) = (h', inr br) /\
     Winner_deref h' br = Some w /\ ID w = "W" /\
     overflow_auction !! 1%nat = Some b /\
     params w = params (reinitialize 0 b) /\
     GetWinningBidCents br = 20000 /\
     minimum_winning_bid_at overflow_auction 1 b = 30000) /\
  (Forall positive_amounts same_id_auction /\
   exists h' br w b,
     ProcessBids insertion_Sorter NewBiddingEngine 0 1%positive
       (store_of same_id_auction) = (h', inr br) /\
     Winner_deref h' br = Some w /\ Name w = "Alice" /\
     same_id_auction !! 0%nat = Some b /\
     params w = params (reinitialize 0 b) /\
     GetWinningBidCents br = 10000 /\
     minimum_winning_bid_at same_id_auction 0 b = 16000).
Proof.
  split; (split; [repeat constructor; vm_compute; congruence|]).
  - eexists _, _, _, _. split; [vm_compute; reflexivity|].
    repeat split; vm_compute; reflexivity.
  - eexists _, _, _, _. split; [vm_compute; reflexivity|].
    repeat split; vm_compute; reflexivity.
Qed.

Lemma C2_round_pass_witness :
  let bidders :=
    [ NewBidder 0 "1" "Alice" (dollars 1000) (dollars 1500) (dollars 200);
      NewBidder 0 "2" "Bob" (dollars 1200) (dollars 1300) (dollars 100);
      NewBidder 0 "3" "Charlie" (dollars 800) (dollars 800) (dollars 100) ] in
  IncrementBids bidders
  = (map (round_step 1200) bidders, inr (existsb (losing 1200) bidders)).
Proof.
  intros bidders.
  refine (proj1 (proj2 (C2_round_pass bidders 1200 _ _))).
  - simpl. lia.
  - vm_compute. reflexivity.
Defined.





(** ** Dollar/cent conversion *)













(** * Further properties of the engine *)

(** ** Repeated increments *)

Lemma div_step_le (d i j : Z) :
  0 < i -> 0 <= d -> ((j + 1) * i <= d <-> j + 1 <= d / i).
Proof.
  intros Hi Hd. split; intros H.
  - apply Z.div_le_lower_bound; lia.
  - pose proof (Z.mul_div_le d i Hi). nia.
Qed.

Lemma Increment_n_state (b0 : Bidder) (n : nat) :
  bid_inv b0 -> currentBidCents b0 = startingBidCents b0 ->
  IsActive b0 = true ->
  let k := (maxBidCents b0 - startingBidCents b0) / autoIncrementCents b0 in
  currentBidCents (Increment_n n b0)
  = startingBidCents b0 + Z.min (Z.of_nat n) k * autoIncrementCents b0 /\
  IsActive (Increment_n n b0)
  = negb ((1 <=? k) && (k <=? Z.of_nat n)
          && (startingBidCents b0 + k * autoIncrementCents b0
              =? maxBidCents b0)).
Proof.
  intros Hinv Hcur Hact k.
  destruct Hinv as (Hs & Hc & Hi & Hf).
  assert (Hd : 0 <= maxBidCents b0 - startingBidCents b0) by lia.
  assert (Hk : 0 <= k) by (apply Z.div_pos; lia).
  pose proof (Z.mul_div_le _ _ Hi : autoIncrementCents b0 * k <= _) as Hk1.
  pose proof (Z.mul_succ_div_gt (maxBidCents b0 - startingBidCents b0) _ Hi)
    as Hk2. fold k in Hk2.
  induction n as [|n IH].
  - change (Z.of_nat 0) with 0. simpl Increment_n.
    split; [rewrite Z.min_l by lia; lia|].
    rewrite Hact. symmetry. apply negb_true_iff.
    destruct (Z.leb_spec 1 k); [|reflexivity].
    destruct (Z.leb_spec k 0); [lia|reflexivity].
  - destruct IH as [IHc IHa]. simpl Increment_n.
    set (b := Increment_n n b0) in *.
    destruct (same_params_fields _ _ (Increment_n_params n b0))
      as (_ & _ & Hps & Hpm & Hpi). fold b in Hps, Hpm, Hpi.
    assert (Hb : bid_inv b).
    { apply Increment_n_inv. unfold bid_inv. tauto. }
    rewrite Nat2Z.inj_succ.
    destruct (Z_lt_ge_dec (Z.of_nat n) k) as [Hlt|Hge].
    + rewrite Z.min_l in IHc by lia.
      assert (Hcan : CanIncrement b = true).
      { unfold CanIncrement, int64_add. rewrite IHa.
        destruct (Z.leb_spec k (Z.of_nat n)); [lia|].
        rewrite andb_false_r. simpl.
        rewrite wrap64_small.
        - apply Z.leb_le. rewrite IHc, <- Hpi, <- Hpm. nia.
        - destruct Hb as (Hb1 & Hb2 & Hb3 & Hb4). unfold in_int64 in *. lia. }
      destruct (Increment_exact b Hb Hcan) as [Hnew Hle].
      rewrite Hnew, IHc, <- Hpi. rewrite Z.min_l by lia.
      split; [lia|].
      rewrite (Increment_active b Hcan). unfold int64_add.
      rewrite wrap64_small
        by (destruct Hb as (Hb1 & Hb2 & Hb3 & Hb4); unfold in_int64 in *; lia).
      rewrite IHc, <- Hpi, <- Hpm. f_equal.
      destruct (Z.leb_spec 1 k); [|lia].
      destruct (Z.leb_spec k (Z.succ (Z.of_nat n))); simpl.
      * replace k with (Z.of_nat n + 1) in * by lia.
        destruct (Z.eqb_spec (startingBidCents b0
                              + (Z.of_nat n + 1) * autoIncrementCents b0)
                    (maxBidCents b0));
          destruct (Z.leb_spec (maxBidCents b0)
                      (startingBidCents b0
                       + Z.of_nat n * autoIncrementCents b0
                       + autoIncrementCents b0)); lia.
      * destruct (Z.leb_spec (maxBidCents b0)
                    (startingBidCents b0
                     + Z.of_nat n * autoIncrementCents b0
                     + autoIncrementCents b0)); [nia|reflexivity].
    + rewrite Z.min_r in IHc by lia.
      assert (Hcan : CanIncrement b = false).
      { unfold CanIncrement, int64_add.
        rewrite wrap64_small
          by (destruct Hb as (Hb1 & Hb2 & Hb3 & Hb4);
              unfold in_int64 in *; lia).
        apply andb_false_iff. right. apply Z.leb_gt.
        rewrite IHc, <- Hpi, <- Hpm. nia. }
      rewrite (Increment_false b Hcan). simpl snd.
      rewrite Z.min_r by lia. split; [exact IHc|].
      rewrite IHa. f_equal.
      destruct (Z.leb_spec k (Z.of_nat n)); [|lia].
      destruct (Z.leb_spec k (Z.succ (Z.of_nat n))); [reflexivity|lia].
Qed.

(** X1. Repeated increments never drift: after [n] calls of [Increment]
    on a new bidder the current bid is the starting bid plus
    [min n k] increments, where [k] is the number of whole increments
    that fit between the starting and the maximum bid; the bidder is
    inactive exactly when at least one increment was made and the bid
    has landed on the maximum.  In particular a bidder created at its
    maximum stays active. *)
Theorem Increment_n_closed_form (now : Time) (id name : string)
    (startingBid maxBid autoIncrement : float64) (n : nat) :
  let b0 := NewBidder now id name startingBid maxBid autoIncrement in
  startingBidCents b0 <= maxBidCents b0 ->
  0 < autoIncrementCents b0 ->
  maxBidCents b0 + autoIncrementCents b0 < 2 ^ 63 ->
  let k := (maxBidCents b0 - startingBidCents b0) / autoIncrementCents b0 in
  let b := Increment_n n b0 in
  currentBidCents b
  = startingBidCents b0 + Z.min (Z.of_nat n) k * autoIncrementCents b0 /\
  IsActive b
  = negb ((1 <=? k) && (k <=? Z.of_nat n)
          && (startingBidCents b0 + k * autoIncrementCents b0
              =? maxBidCents b0)).
Proof.
  intros b0 H1 H2 H3 k b.
  apply (Increment_n_state b0 n); [|reflexivity|reflexivity].
  apply NewBidder_inv; assumption.
Qed.

Lemma Increment_n_closed_form_witness :
  let b0 := NewBidder 0 "1" "Alice" (dollars 1001) (dollars 2099)
              (dollars 33) in
  currentBidCents (Increment_n 40 b0)
  = startingBidCents b0
    + Z.min 40 ((maxBidCents b0 - startingBidCents b0)
                / autoIncrementCents b0) * autoIncrementCents b0 /\
  IsActive (Increment_n 40 b0)
  = negb ((1 <=? (maxBidCents b0 - startingBidCents b0)
                 / autoIncrementCents b0)
          && ((maxBidCents b0 - startingBidCents b0)
              / autoIncrementCents b0 <=? 40)
          && (startingBidCents b0
              + (maxBidCents b0 - startingBidCents b0)
                / autoIncrementCents b0 * autoIncrementCents b0
              =? maxBidCents b0)).
Proof.
  apply (Increment_n_closed_form 0 "1" "Alice" (dollars 1001) (dollars 2099)
           (dollars 33) 40); vm_compute; congruence.
Defined.

(** ** Outcomes of the scans *)

Lemma negative_bid_dec (l : list Bidder) :
  Forall (fun b => 0 <= currentBidCents b) l \/ Exists negative_bid l.
Proof.
  induction l as [|b l [IH|IH]].
  - left. constructor.
  - destruct (Z_lt_ge_dec (currentBidCents b) 0) as [Hn|Hp].
    + right. left. exact Hn.
    + left. constructor; [lia|exact IH].
  - right. right. exact IH.
Qed.

Lemma findHighestBidCents_loop_error (rest : list Bidder) (h : Z)
    (e : AuctionError) :
  findHighestBidCents_loop rest h = inl e ->
  Exists negative_bid rest /\ error_type e = ErrorTypeSystem.
Proof.
  revert h. induction rest as [|b rest IH]; simpl; intros h Hr;
    [discriminate|].
  unfold GetCurrentBidCents in Hr.
  destruct (Z.ltb_spec (currentBidCents b) 0) as [Hn|_].
  - injection Hr as <-. split; [left; exact Hn|reflexivity].
  - apply IH in Hr as [Hex Ht]. split; [right; exact Hex|exact Ht].
Qed.

Lemma findHighestBidCents_error (bidders : list Bidder) (e : AuctionError) :
  findHighestBidCents bidders = inl e ->
  Exists negative_bid bidders /\ error_type e = ErrorTypeSystem.
Proof.
  destruct bidders as [|b rest]; simpl; [discriminate|].
  unfold GetCurrentBidCents.
  destruct (Z.ltb_spec (currentBidCents b) 0) as [Hn|Hp].
  - intros [= <-]. split; [left; exact Hn|reflexivity].
  - destruct (findHighestBidCents_loop rest (currentBidCents b)) as [e'|H]
      eqn:Hloop.
    + intros [= <-].
      apply findHighestBidCents_loop_error in Hloop as [Hex Ht].
      split; [right; exact Hex|exact Ht].
    + apply findHighestBidCents_loop_spec in Hloop as (Hle & _ & _).
      destruct (Z.ltb_spec H 0); [lia|discriminate].
Qed.

Lemma Exists_negative_not_Forall (l : list Bidder) :
  Exists negative_bid l -> Forall (fun b => 0 <= currentBidCents b) l -> False.
Proof.
  induction 1 as [b l Hb|b l _ IH]; intros Hall;
    apply Forall_cons in Hall as [H1 H2].
  - unfold negative_bid in Hb. lia.
  - apply IH, H2.
Qed.

(** X2. [findHighestBidCents] returns 0 for the empty slice; it fails, with
    a system error, exactly when some bidder has a negative current bid;
    otherwise it returns a bid that some bidder holds and none exceeds. *)
Theorem findHighestBidCents_outcome (bidders : list Bidder) :
  findHighestBidCents [] = inr 0 /\
  ((exists e, findHighestBidCents bidders = inl e) <->
   Exists negative_bid bidders) /\
  (forall e, findHighestBidCents bidders = inl e ->
             error_type e = ErrorTypeSystem) /\
  (forall H, bidders <> [] -> findHighestBidCents bidders = inr H ->
             Forall (fun b => currentBidCents b <= H) bidders /\
             exists b, b ∈ bidders /\ currentBidCents b = H).
Proof.
  split; [reflexivity|]. split; [|split].
  - split.
    + intros [e He]. apply (findHighestBidCents_error _ _ He).
    + intros Hex. destruct (findHighestBidCents bidders) as [e|H] eqn:HH;
        [eauto|].
      destruct bidders as [|b rest]; [inversion Hex|].
      destruct (findHighestBidCents_spec (b :: rest) H ltac:(discriminate) HH)
        as [Hall _].
      exfalso. apply (Exists_negative_not_Forall _ Hex).
      eapply Forall_impl; [exact Hall|]. simpl. lia.
  - intros e He. apply (findHighestBidCents_error _ _ He).
  - intros H Hne HH.
    destruct (findHighestBidCents_spec bidders H Hne HH) as [Hall Hex].
    split; [|exact Hex]. eapply Forall_impl; [exact Hall|]. simpl. lia.
Qed.

Lemma IncrementBids_error (bidders : list Bidder) (e : AuctionError) :
  snd (IncrementBids bidders) = inl e ->
  fst (IncrementBids bidders) = bidders /\
  (2 <= length bidders)%nat /\ Exists negative_bid bidders /\
  error_type e = ErrorTypeProcessing /\
  exists cause, error_cause e = Some cause /\
                error_type cause = ErrorTypeSystem.
Proof.
  unfold IncrementBids.
  destruct (Nat.leb_spec (length bidders) 1) as [Hs|Hl]; [discriminate|].
  destruct (findHighestBidCents bidders) as [err|H] eqn:HH; simpl.
  - intros [= <-]. destruct (findHighestBidCents_error _ _ HH) as [Hex Ht].
    repeat split; try assumption; try lia. eauto.
  - pose proof (IncrementBids_loop_spec H bidders [] false) as Hl'.
    simpl in Hl'. rewrite Hl'. discriminate.
Qed.

(** X3. [IncrementBids] does nothing and reports no increment on a slice
    of at most one bidder.  It fails exactly when there are at least two
    bidders and one of them has a negative current bid: the slice is then
    untouched and the error is a processing error caused by a system
    error.  The defensive "increment failed despite CanIncrement" error
    is never returned. *)
Theorem IncrementBids_outcome (bidders : list Bidder) :
  ((length bidders <= 1)%nat -> IncrementBids bidders = (bidders, inr false)) /\
  ((exists e, snd (IncrementBids bidders) = inl e) <->
   (2 <= length bidders)%nat /\ Exists negative_bid bidders) /\
  (forall e, snd (IncrementBids bidders) = inl e ->
     fst (IncrementBids bidders) = bidders /\
     error_type e = ErrorTypeProcessing /\
     exists cause, error_cause e = Some cause /\
                   error_type cause = ErrorTypeSystem).
Proof.
  split; [|split].
  - intros Hs. unfold IncrementBids. apply Nat.leb_le in Hs. rewrite Hs.
    reflexivity.
  - split.
    + intros [e He]. destruct (IncrementBids_error _ _ He) as (_ & H2 & H3 & _).
      split; assumption.
    + intros [Hlen Hex]. unfold IncrementBids.
      destruct (Nat.leb_spec (length bidders) 1) as [Hs|_]; [lia|].
      destruct (findHighestBidCents bidders) as [err|H] eqn:HH;
        [simpl; eauto|].
      assert (Hne : bidders <> [])
        by (destruct bidders; simpl in *; [lia|discriminate]).
      destruct (findHighestBidCents_spec bidders H Hne HH) as [Hall _].
      exfalso. apply (Exists_negative_not_Forall _ Hex).
      eapply Forall_impl; [exact Hall|]. simpl. lia.
  - intros e He. destruct (IncrementBids_error _ _ He) as (H1 & _ & _ & H4).
    split; assumption.
Qed.

Lemma findWinner_loop_error (bidders : list Bidder) (m p wi : nat)
    (e : AuctionError) :
  findWinner_loop bidders (seq p m) wi = inl e ->
  error_type e = ErrorTypeSystem /\
  exists j b, (p <= j)%nat /\ bidders !! j = Some b /\ negative_bid b.
Proof.
  revert p wi. induction m as [|m IH]; intros p wi; simpl; [discriminate|].
  destruct (bidders !! p) as [current|] eqn:Hp; [|discriminate].
  destruct (bidders !! wi) as [w|] eqn:Hw; [|discriminate].
  unfold GetCurrentBidCents.
  destruct (Z.ltb_spec (currentBidCents current) 0) as [Hn|_].
  - intros [= <-]. split; [reflexivity|]. exists p, current. auto.
  - assert (Hrec : forall wi',
               findWinner_loop bidders (seq (S p) m) wi' = inl e ->
               error_type e = ErrorTypeSystem /\
               exists j b, (p <= j)%nat /\ bidders !! j = Some b /\
                           negative_bid b).
    { intros wi' Hr. destruct (IH _ _ Hr) as (Ht & j & b & Hj & Hb & Hneg).
      split; [exact Ht|]. exists j, b. split; [lia|]. auto. }
    destruct (_ <? _); [apply Hrec|].
    destruct (_ =? _); [|apply Hrec].
    destruct (Before _ _); apply Hrec.
Qed.

Lemma findWinner_loop_negative (bidders : list Bidder) (m p wi : nat) :
  (p + m = length bidders)%nat -> (wi < length bidders)%nat ->
  (exists j b, (p <= j)%nat /\ bidders !! j = Some b /\ negative_bid b) ->
  exists e, findWinner_loop bidders (seq p m) wi = inl e.
Proof.
  revert p wi. induction m as [|m IH]; intros p wi Hlen Hwi Hex; simpl.
  - destruct Hex as (j & b & Hj & Hb & _).
    apply lookup_lt_Some in Hb. lia.
  - destruct (lookup_lt_is_Some_2 bidders p ltac:(lia)) as [current Hp].
    destruct (lookup_lt_is_Some_2 bidders wi Hwi) as [w Hw].
    rewrite Hp, Hw. unfold GetCurrentBidCents.
    destruct (Z.ltb_spec (currentBidCents current) 0) as [Hn|Hpos]; [eauto|].
    assert (Hex' : exists j b, (S p <= j)%nat /\ bidders !! j = Some b /\
                               negative_bid b).
    { destruct Hex as (j & b & Hj & Hb & Hneg).
      exists j, b. split; [|auto].
      destruct (Nat.eq_dec j p) as [->|Hne]; [|lia].
      rewrite Hp in Hb. injection Hb as <-. unfold negative_bid in Hneg. lia. }
    destruct (_ <? _); [apply IH; (lia || assumption)|].
    destruct (_ =? _); [|apply IH; (lia || assumption)].
    destruct (Before _ _); apply IH; (lia || assumption).
Qed.

Lemma findWinner_loop_best (bidders : list Bidder) (m p wi wi' : nat)
    (w0 : Bidder) :
  (p + m = length bidders)%nat -> (wi < p)%nat -> bidders !! wi = Some w0 ->
  (forall j b, (j < p)%nat -> bidders !! j = Some b -> prevails wi w0 j b) ->
  findWinner_loop bidders (seq p m) wi = inr wi' ->
  exists w, bidders !! wi' = Some w /\
            (wi' = wi \/ 0 <= currentBidCents w) /\
            forall j b, bidders !! j = Some b -> prevails wi' w j b.
Proof.
  revert p wi w0. induction m as [|m IH]; intros p wi w0 Hlen Hwi Hw Hinv;
    simpl.
  - intros [= <-]. exists w0. split; [exact Hw|]. split; [now left|].
    intros j b Hb. apply Hinv; [|exact Hb].
    apply lookup_lt_Some in Hb. lia.
  - destruct (lookup_lt_is_Some_2 bidders p ltac:(lia)) as [current Hp].
    rewrite Hp, Hw. unfold GetCurrentBidCents.
    destruct (Z.ltb_spec (currentBidCents current) 0) as [Hn|Hpos];
      [discriminate|].
    assert (Hkeep : (forall j b, (j < S p)%nat -> bidders !! j = Some b ->
                                 prevails wi w0 j b) ->
                    findWinner_loop bidders (seq (S p) m) wi = inr wi' ->
                    exists w, bidders !! wi' = Some w /\
                      (wi' = wi \/ 0 <= currentBidCents w) /\
                      forall j b, bidders !! j = Some b -> prevails wi' w j b).
    { intros Hinv' Hr. apply (IH (S p) wi w0); (lia || assumption). }
    assert (Htake : (forall j b, (j < S p)%nat -> bidders !! j = Some b ->
                                 prevails p current j b) ->
                    findWinner_loop bidders (seq (S p) m) p = inr wi' ->
                    exists w, bidders !! wi' = Some w /\
                      (wi' = wi \/ 0 <= currentBidCents w) /\
                      forall j b, bidders !! j = Some b -> prevails wi' w j b).
    { intros Hinv' Hr.
      destruct (IH (S p) p current ltac:(lia) ltac:(lia) Hp Hinv' Hr)
        as (w & Hw' & Hor & Hbest).
      exists w. split; [exact Hw'|]. split; [|exact Hbest].
      right. destruct Hor as [->|Hnn]; [|exact Hnn].
      rewrite Hp in Hw'. injection Hw' as <-. exact Hpos. }
    assert (Hself : forall j b, (j < S p)%nat -> bidders !! j = Some b ->
                      (j < p)%nat \/ (j = p /\ b = current)).
    { intros j b Hj Hb. destruct (Nat.eq_dec j p) as [->|Hne]; [|left; lia].
      right. rewrite Hp in Hb. injection Hb as <-. auto. }
    destruct (Z.ltb_spec (currentBidCents w0) (currentBidCents current))
      as [Hlt|Hge].
    + apply Htake. intros j b Hj Hb.
      destruct (Hself j b Hj Hb) as [Hjp|[-> ->]].
      * destruct (Hinv j b Hjp Hb) as [H1 _]. unfold prevails. split; lia.
      * unfold prevails. split; [lia|]. intros _. split; lia.
    + destruct (Z.eqb_spec (currentBidCents current) (currentBidCents w0))
        as [Heq|Hne].
      * unfold Before.
        destruct (Z.ltb_spec (EntryTime current) (EntryTime w0)) as [Ht|Ht].
        -- apply Htake. intros j b Hj Hb.
           destruct (Hself j b Hj Hb) as [Hjp|[-> ->]].
           ++ destruct (Hinv j b Hjp Hb) as [H1 H2]. unfold prevails.
              split; [lia|]. intros Hc. destruct (H2 ltac:(lia)) as [H3 _].
              split; lia.
           ++ unfold prevails. split; [lia|]. intros _. split; lia.
        -- apply Hkeep. intros j b Hj Hb.
           destruct (Hself j b Hj Hb) as [Hjp|[-> ->]].
           ++ apply Hinv; assumption.
           ++ unfold prevails. split; [lia|]. intros _. split; lia.
      * apply Hkeep. intros j b Hj Hb.
        destruct (Hself j b Hj Hb) as [Hjp|[-> ->]].
        -- apply Hinv; assumption.
        -- unfold prevails. split; [lia|]. intros Hc. lia.
Qed.

Lemma findWinner_Some (bidders : list Bidder) (i : nat) :
  findWinner bidders = inr (Some i) ->
  exists w, bidders !! i = Some w /\
            0 <= currentBidCents w /\
            forall j b, bidders !! j = Some b -> prevails i w j b.
Proof.
  unfold findWinner.
  destruct (Nat.eqb_spec (length bidders) 0) as [|Hlen]; [discriminate|].
  destruct bidders as [|b0 rest] eqn:Hbs; [simpl in Hlen; lia|].
  rewrite <- Hbs in *.
  destruct (findWinner_loop bidders (seq 1 (length bidders - 1)) 0)
    as [e|wi] eqn:Hloop; [discriminate|].
  assert (H0 : bidders !! 0%nat = Some b0) by (rewrite Hbs; reflexivity).
  destruct (findWinner_loop_best bidders (length bidders - 1) 1 0 wi b0)
    as (w & Hw & _ & Hbest); try assumption; try lia.
  { intros j b Hj Hb. replace j with 0%nat in * by lia.
    rewrite H0 in Hb. injection Hb as <-. unfold prevails.
    split; [lia|]. intros _. split; lia. }
  rewrite Hw. unfold GetCurrentBidCents.
  destruct (Z.ltb_spec (currentBidCents w) 0) as [|Hpos]; [discriminate|].
  intros [= <-]. exists w. auto.
Qed.

(** X4. When [findWinner] returns a bidder (as an index into the slice),
    that bidder has a non-negative current bid which no bidder exceeds;
    among the bidders holding the same bid none entered strictly earlier;
    and among those with the same bid and entry time it is the first in
    the slice. *)
Theorem findWinner_best (bidders : list Bidder) (i : nat) :
  findWinner bidders = inr (Some i) ->
  exists w, bidders !! i = Some w /\
            0 <= currentBidCents w /\
            forall j b, bidders !! j = Some b -> prevails i w j b.
Proof. apply findWinner_Some. Qed.


(** X5. [findWinner] returns no bidder and no error for the empty slice.
    On a non-empty slice it fails, with a system error, exactly when a
    bidder other than the first has a negative current bid, or the slice
    consists of a single bidder with a negative current bid; a negative
    first bidder among several goes unnoticed.  Otherwise it returns a
    bidder. *)
Theorem findWinner_outcome (bidders : list Bidder) :
  findWinner [] = inr None /\
  (bidders <> [] ->
   ((exists e, findWinner bidders = inl e) <->
    (exists j b, (1 <= j)%nat /\ bidders !! j = Some b /\ negative_bid b) \/
    (exists b, bidders = [b] /\ negative_bid b)) /\
   (forall e, findWinner bidders = inl e -> error_type e = ErrorTypeSystem) /\
   findWinner bidders <> inr None).
Proof.
  split; [reflexivity|]. intros Hne.
  assert (Hlen : (0 < length bidders)%nat)
    by (destruct bidders; simpl; [congruence|lia]).
  destruct bidders as [|b0 rest] eqn:Hbs; [congruence|].
  rewrite <- Hbs in *.
  assert (H0 : bidders !! 0%nat = Some b0) by (rewrite Hbs; reflexivity).
  unfold findWinner.
  destruct (Nat.eqb_spec (length bidders) 0) as [|_]; [lia|].
  destruct (findWinner_loop bidders (seq 1 (length bidders - 1)) 0)
    as [e|wi] eqn:Hloop.
  - destruct (findWinner_loop_error _ _ _ _ _ Hloop)
      as (Ht & j & b & Hj & Hb & Hneg).
    split; [|split]; [|intros e' [= <-]; exact Ht|discriminate].
    split; [|eauto]. intros _. left. exists j, b. auto.
  - destruct (findWinner_loop_best bidders (length bidders - 1) 1 0 wi b0)
      as (w & Hw & Hor & Hbest); try assumption; try lia.
    { intros j b Hj Hb. replace j with 0%nat in * by lia.
      rewrite H0 in Hb. injection Hb as <-. unfold prevails.
      split; [lia|]. intros _. split; lia. }
    assert (Hnoneg : forall j b, (1 <= j)%nat -> bidders !! j = Some b ->
                                 negative_bid b -> False).
    { intros j b Hj Hb Hneg.
      destruct (findWinner_loop_negative bidders (length bidders - 1) 1 0)
        as [e He]; [lia|lia|eauto|]. congruence. }
    rewrite Hw. unfold GetCurrentBidCents.
    destruct (Z.ltb_spec (currentBidCents w) 0) as [Hn|Hpos].
    + split; [|split]; [|intros e' [= <-]; reflexivity|discriminate].
      split; [|eauto]. intros _. right. exists b0.
      destruct Hor as [->|Hnn]; [|lia].
      rewrite H0 in Hw. injection Hw as <-.
      split; [|exact Hn]. rewrite Hbs in *.
      destruct rest as [|b1 rest']; [reflexivity|]. exfalso.
      destruct (Hbest 1%nat b1 eq_refl) as [Hle _].
      apply (Hnoneg 1%nat b1); [lia|reflexivity|]. unfold negative_bid. lia.
    + split; [|split]; [|discriminate|discriminate].
      split; [intros [e He]; discriminate|].
      intros [(j & b & Hj & Hb & Hneg)|(b & Hb & Hneg)].
      * exfalso. eapply Hnoneg; eassumption.
      * exfalso. rewrite Hb in *. simpl in Hloop. injection Hloop as <-.
        simpl in Hw. injection Hw as <-. unfold negative_bid in Hneg. lia.
Qed.

(** ** The end of a run *)

Lemma IncrementBids_false_unchanged (ws ws' : list Bidder) :
  IncrementBids ws = (ws', inr false) -> ws' = ws.
Proof.
  unfold IncrementBids.
  destruct (length ws <=? 1)%nat; [intros [= <-]; reflexivity|].
  destruct (findHighestBidCents ws) as [err|H]; [discriminate|].
  pose proof (IncrementBids_loop_spec H ws [] false) as Hl.
  simpl in Hl. rewrite Hl. intros [= <- Hidle].
  clear Hl. induction ws as [|b ws IH]; [reflexivity|].
  simpl in *. apply orb_false_elim in Hidle as [Hb Hws].
  rewrite (round_step_idle _ _ Hb), (IH Hws). reflexivity.
Qed.

Lemma rounds_from_range (fuel : nat) (rounds r : Z) (ws : list Bidder) :
  snd (rounds_from fuel rounds ws) = inr r ->
  rounds <= r <= rounds + Z.of_nat fuel.
Proof.
  revert rounds ws. induction fuel as [|fuel IH]; intros rounds ws; simpl.
  - intros [= <-]. lia.
  - destruct (IncrementBids ws) as [ws' [err|inc]]; simpl; [discriminate|].
    destruct inc.
    + intros Hr. apply IH in Hr. lia.
    + intros [= <-]. lia.
Qed.

(** A run that ends below the cap ends on a pass without increment. *)
Lemma rounds_from_stable (fuel : nat) (rounds r : Z) (ws ws' : list Bidder) :
  rounds_from fuel rounds ws = (ws', inr r) ->
  r < rounds + Z.of_nat fuel ->
  IncrementBids ws' = (ws', inr false).
Proof.
  revert rounds ws. induction fuel as [|fuel IH]; intros rounds ws; simpl.
  - intros [= <- <-]. lia.
  - destruct (IncrementBids ws) as [ws1 [err|inc]] eqn:Hinc; simpl;
      [discriminate|].
    destruct inc.
    + intros Hr Hlt. apply (IH _ _ Hr). lia.
    + intros Heq _. injection Heq as Hws _. subst ws'.
      pose proof (IncrementBids_false_unchanged _ _ Hinc) as Hsame.
      subst ws1. exact Hinc.
Qed.

Lemma rounds_from_length (fuel : nat) (rounds : Z) (ws : list Bidder) :
  length (fst (rounds_from fuel rounds ws)) = length ws.
Proof.
  pose proof (rounds_from_params fuel rounds ws) as Hp.
  apply (f_equal length) in Hp. rewrite !length_map in Hp. exact Hp.
Qed.

Lemma findWinner_nonempty (ws : list Bidder) :
  ws <> [] -> findWinner ws <> inr None.
Proof.
  intros Hne. unfold findWinner.
  destruct (Nat.eqb_spec (length ws) 0) as [Hl|_].
  { destruct ws; simpl in *; congruence. }
  destruct (findWinner_loop ws _ _); [discriminate|].
  destruct (ws !! _); [|discriminate].
  destruct (_ <? _); discriminate.
Qed.

(** What a successful run on a non-empty input consists of. *)
Lemma run_success (srt : Sorter) (be : BiddingEngine) (now : Time) (w0 : slice)
    (input : list Bidder) (br : BidResult) :
  Sorter_contract srt -> input <> [] ->
  snd (run srt be now w0 input) = inr br ->
  exists (ws : list Bidder) (i : nat) (wb : Bidder),
    rounds_from (Z.to_nat (maxRounds be)) 0 (prepare srt now input)
    = (ws, inr (BiddingRounds br)) /\
    0 <= BiddingRounds br < maxRounds be /\
    fst (run srt be now w0 input) = map SyncFloatFields ws /\
    length ws = length input /\
    findWinner ws = inr (Some i) /\ ws !! i = Some wb /\
    CalculateMinimumWinningBidCents ws (Some wb) = inr (winningBidCents br) /\
    br = mkBidResult (Some (w0, i)) (CentsToDollars (winningBidCents br))
           (Z.of_nat (length input)) (BiddingRounds br) w0
           (winningBidCents br).
Proof.
  intros Hsrt Hne. unfold run.
  pose proof (rounds_from_range (Z.to_nat (maxRounds be)) 0) as Hrange.
  pose proof (rounds_from_length (Z.to_nat (maxRounds be)) 0
                (prepare srt now input)) as Hlen.
  destruct (rounds_from _ 0 _) as [ws [err|rounds]] eqn:Hr; simpl in *;
    [discriminate|].
  specialize (Hrange rounds (prepare srt now input)).
  rewrite Hr in Hrange. specialize (Hrange eq_refl).
  destruct (Z.leb_spec (maxRounds be) rounds) as [|Hlt]; [discriminate|].
  assert (Hlen' : length ws = length input).
  { rewrite Hlen, (prepare_Permutation srt now input Hsrt), length_map.
    reflexivity. }
  assert (Hws : ws <> []).
  { intros ->. destruct input; simpl in *; congruence. }
  pose proof (findWinner_nonempty ws Hws) as Hnn.
  destruct (findWinner ws) as [err|[i|]] eqn:Hfw; simpl; [discriminate| |].
  - destruct (findWinner_Some ws i Hfw) as (wb & Hi & _).
    rewrite Hi.
    destruct (CalculateMinimumWinningBidCents ws (Some wb)) as [err|c] eqn:Hc;
      simpl; [discriminate|].
    intros [= <-]. simpl. exists ws, i, wb.
    repeat split; try assumption; try lia; reflexivity.
  - congruence.
Qed.

Lemma ProcessBids_success (srt : Sorter) (be : BiddingEngine) (now : Time)
    (s : slice) (h h' : store) (br : BidResult) :
  Sorter_contract srt -> slice_contents h s <> [] ->
  ProcessBids srt be now s h = (h', inr br) ->
  exists (ws : list Bidder) (i : nat) (wb : Bidder),
    rounds_from (Z.to_nat (maxRounds be)) 0
      (prepare srt now (slice_contents h s))
    = (ws, inr (BiddingRounds br)) /\
    0 <= BiddingRounds br < maxRounds be /\
    length ws = length (slice_contents h s) /\
    findWinner ws = inr (Some i) /\ ws !! i = Some wb /\
    CalculateMinimumWinningBidCents ws (Some wb) = inr (winningBidCents br) /\
    br = mkBidResult (Some (fresh (dom h), i))
           (CentsToDollars (winningBidCents br))
           (Z.of_nat (length (slice_contents h s))) (BiddingRounds br)
           (fresh (dom h)) (winningBidCents br) /\
    slice_contents h' (AllBidders br) = map SyncFloatFields ws /\
    map params ws = map params (prepare srt now (slice_contents h s)).
Proof.
  intros Hsrt Hne Hrun. rewrite (ProcessBids_run _ _ _ _ _ Hne) in Hrun.
  injection Hrun as <- Hbr.
  destruct (run_success srt be now _ _ br Hsrt Hne Hbr)
    as (ws & i & wb & Hr & Hrange & Hfst & Hlen & Hfw & Hi & Hc & Heq).
  exists ws, i, wb. repeat split; try assumption; try lia.
  - rewrite Heq at 1. simpl. rewrite slice_contents_insert. exact Hfst.
  - pose proof (rounds_from_params (Z.to_nat (maxRounds be)) 0
                  (prepare srt now (slice_contents h s))) as Hp.
    rewrite Hr in Hp. exact Hp.
Qed.

Lemma prevails_SyncFloatFields (i j : nat) (w b : Bidder) :
  prevails i w j b ->
  prevails i (SyncFloatFields w) j (SyncFloatFields b).
Proof. intros H. exact H. Qed.


(** X7. The winner a result points to is an element of the result's
    final bidder list and prevails over every final bidder: nobody holds a
    higher final bid, nobody with the same final bid entered strictly
    earlier, and among bidders equal in both it is the first of the
    list. *)
Theorem ProcessBids_winner_prevails (srt : Sorter) (be : BiddingEngine)
    (now : Time) (bidders : slice) (h h' : store) (br : BidResult) :
  Sorter_contract srt -> slice_contents h bidders <> [] ->
  ProcessBids srt be now bidders h = (h', inr br) ->
  exists (i : nat) (w : Bidder),
    Winner br = Some (AllBidders br, i) /\
    slice_contents h' (AllBidders br) !! i = Some w /\
    Winner_deref h' br = Some w /\
    forall j b, slice_contents h' (AllBidders br) !! j = Some b ->
                prevails i w j b.
Proof.
  intros Hsrt Hne Hrun.
  destruct (ProcessBids_success _ _ _ _ _ _ _ Hsrt Hne Hrun)
    as (ws & i & wb & _ & _ & _ & Hfw & Hi & _ & Heq & Hfinal & _).
  destruct (findWinner_Some ws i Hfw) as (wb' & Hi' & _ & Hbest).
  rewrite Hi in Hi'. injection Hi' as <-.
  exists i, (SyncFloatFields wb).
  assert (Hw : slice_contents h' (AllBidders br) !! i
               = Some (SyncFloatFields wb)).
  { rewrite Hfinal, list_lookup_fmap, Hi. reflexivity. }
  split; [rewrite Heq; reflexivity|]. split; [exact Hw|]. split.
  - unfold Winner_deref. rewrite Heq at 1. simpl.
    rewrite Heq in Hw. simpl in Hw. exact Hw.
  - intros j b. rewrite Hfinal, list_lookup_fmap.
    destruct (ws !! j) as [b0|] eqn:Hj; [|discriminate].
    intros [= <-]. apply prevails_SyncFloatFields, Hbest, Hj.
Qed.

(** X8. The dollar amounts of a result are re-derived from the cents:
    for every bidder of the final list the four decimal fields are
    [CentsToDollars] of the corresponding amounts in cents, and the
    winning bid in dollars is [CentsToDollars] of the winning bid in
    cents. *)
Theorem ProcessBids_result_synced (srt : Sorter) (be : BiddingEngine)
    (now : Time) (bidders : slice) (h h' : store) (br : BidResult) :
  Sorter_contract srt -> slice_contents h bidders <> [] ->
  ProcessBids srt be now bidders h = (h', inr br) ->
  WinningBid br = CentsToDollars (GetWinningBidCents br) /\
  forall b, b ∈ slice_contents h' (AllBidders br) ->
    StartingBid b = CentsToDollars (startingBidCents b) /\
    MaxBid b = CentsToDollars (maxBidCents b) /\
    AutoIncrement b = CentsToDollars (autoIncrementCents b) /\
    CurrentBid b = CentsToDollars (currentBidCents b).
Proof.
  intros Hsrt Hne Hrun.
  destruct (ProcessBids_success _ _ _ _ _ _ _ Hsrt Hne Hrun)
    as (ws & i & wb & _ & _ & _ & _ & _ & _ & Heq & Hfinal & _).
  split; [rewrite Heq at 1; reflexivity|].
  intros b. rewrite Hfinal. intros Hb.
  apply list_elem_of_fmap in Hb as (b0 & -> & _). simpl. auto.
Qed.

(** X9. A result of [ProcessBids] describes a settled auction: no bidder
    of the final list that is below another bidder's final bid can still
    increment. *)
Theorem ProcessBids_final_state_settled (srt : Sorter) (be : BiddingEngine)
    (now : Time) (bidders : slice) (h h' : store) (br : BidResult) :
  Sorter_contract srt -> slice_contents h bidders <> [] ->
  ProcessBids srt be now bidders h = (h', inr br) ->
  forall b b' : Bidder,
    b ∈ slice_contents h' (AllBidders br) ->
    b' ∈ slice_contents h' (AllBidders br) ->
    currentBidCents b < currentBidCents b' ->
    CanIncrement b = false.
Proof.
  intros Hsrt Hne Hrun.
  destruct (ProcessBids_success _ _ _ _ _ _ _ Hsrt Hne Hrun)
    as (ws & i & wb & Hr & Hrange & _ & _ & _ & _ & _ & Hfinal & _).
  assert (Hstable : IncrementBids ws = (ws, inr false)).
  { apply (rounds_from_stable _ _ _ _ _ Hr). lia. }
  intros b b'. rewrite Hfinal. intros Hb Hb' Hlt.
  apply list_elem_of_fmap in Hb as (c & -> & Hc).
  apply list_elem_of_fmap in Hb' as (c' & -> & Hc').
  change (CanIncrement (SyncFloatFields c)) with (CanIncrement c).
  simpl in Hlt.
  destruct (le_lt_dec (length ws) 1) as [Hshort|Hlong].
  { destruct ws as [|x [|y ws]]; simpl in Hshort; try lia.
    - apply elem_of_nil in Hc. contradiction.
    - apply list_elem_of_singleton in Hc, Hc'. subst. lia. }
  destruct (findHighestBidCents ws) as [err|H] eqn:HH.
  { unfold IncrementBids in Hstable.
    destruct (Nat.leb_spec (length ws) 1); [lia|].
    rewrite HH in Hstable. discriminate. }
  rewrite (IncrementBids_spec ws H ltac:(lia) HH) in Hstable.
  injection Hstable as _ Hidle.
  assert (Hne' : ws <> []) by (intros ->; simpl in Hlong; lia).
  destruct (findHighestBidCents_spec ws H Hne' HH) as [Hall _].
  pose proof (proj1 (Forall_forall _ _) Hall c' Hc') as Hc'H. simpl in Hc'H.
  assert (Hl : losing H c = false).
  { clear -Hidle Hc. induction ws as [|x ws IH].
    - apply elem_of_nil in Hc. contradiction.
    - simpl in Hidle. apply orb_false_elim in Hidle as [Hx Hws].
      apply elem_of_cons in Hc as [->|Hc]; [exact Hx|apply IH; assumption]. }
  unfold losing in Hl. apply andb_false_iff in Hl as [Hl|Hl]; [|exact Hl].
  apply Z.ltb_ge in Hl. lia.
Qed.

Lemma minimum_winning_bid_bounds (f : Bidder -> Z) (w : Bidder)
    (l : list Bidder) :
  startingBidCents w <= maxBidCents w ->
  startingBidCents w <= minimum_winning_bid f w l <= maxBidCents w.
Proof.
  intros Hsm. unfold minimum_winning_bid, clamp.
  destruct (others w l); lia.
Qed.

(** X10. For a non-empty valid bidder set, in a result of [ProcessBids]
    every bidder's final current bid lies between its starting and its
    maximum bid, and the winning bid lies between the winner's starting
    and maximum bid. *)
Theorem ProcessBids_bids_within_bounds (srt : Sorter) (be : BiddingEngine)
    (now : Time) (bidders : slice) (h h' : store) (br : BidResult)
    (w : Bidder) :
  Sorter_contract srt -> slice_contents h bidders <> [] ->
  Forall valid_input (slice_contents h bidders) ->
  ProcessBids srt be now bidders h = (h', inr br) ->
  Winner_deref h' br = Some w ->
  startingBidCents w <= GetWinningBidCents br <= maxBidCents w /\
  forall b, b ∈ slice_contents h' (AllBidders br) ->
            startingBidCents b <= currentBidCents b <= maxBidCents b.
Proof.
  intros Hsrt Hne Hin Hrun Hw.
  destruct (ProcessBids_success _ _ _ _ _ _ _ Hsrt Hne Hrun)
    as (ws & i & wb & Hr & _ & _ & _ & Hi & Hc & Heq & Hfinal & _).
  destruct (rounds_from_valid (Z.to_nat (maxRounds be)) 0 _
              (prepare_valid srt now _ Hsrt Hin)) as [Hv _].
  rewrite Hr in Hv. simpl in Hv.
  assert (Hwb : w = SyncFloatFields wb).
  { unfold Winner_deref in Hw. rewrite Heq in Hw. simpl in Hw.
    rewrite Heq in Hfinal. simpl in Hfinal.
    rewrite Hfinal, list_lookup_fmap, Hi in Hw. injection Hw as <-.
    reflexivity. }
  subst w. simpl.
  assert (Hin' : wb ∈ ws) by (eapply list_elem_of_lookup_2, Hi).
  rewrite (CalculateMinimumWinningBidCents_valid ws wb Hv Hin') in Hc.
  injection Hc as Hc. unfold GetWinningBidCents. rewrite <- Hc.
  split.
  - apply minimum_winning_bid_bounds.
    destruct (proj1 (Forall_forall _ _) Hv wb Hin') as ((_ & H2 & _) & _).
    exact H2.
  - intros b. rewrite Hfinal. intros Hb.
    apply list_elem_of_fmap in Hb as (b0 & -> & Hb0). simpl.
    destruct (proj1 (Forall_forall _ _) Hv b0 Hb0) as (_ & H2). exact H2.
Qed.

Lemma ProcessBids_bids_within_bounds_witness :
  exists h' br w,
    ProcessBids insertion_Sorter NewBiddingEngine 0 1%positive
      (store_of second_price_auction) = (h', inr br) /\
    Winner_deref h' br = Some w /\
    startingBidCents w <= GetWinningBidCents br <= maxBidCents w /\
    forall b, b ∈ slice_contents h' (AllBidders br) ->
              startingBidCents b <= currentBidCents b <= maxBidCents b.
Proof.
  eexists _, _, _.
  split; [vm_compute; reflexivity|].
  split; [vm_compute; reflexivity|].
  refine (ProcessBids_bids_within_bounds insertion_Sorter NewBiddingEngine 0
            1%positive (store_of second_price_auction) _ _ _
            insertion_Sorter_contract _ _ _ _).
  - vm_compute. discriminate.
  - exact second_price_auction_valid.
  - vm_compute. reflexivity.
  - vm_compute. reflexivity.
Defined.

(** X11. With exactly one bidder, whose starting bid is not negative in
    cents, [ProcessBids] runs no round and makes that bidder the winner at
    its starting bid, whatever its maximum and increment are. *)
Theorem ProcessBids_single_bidder (srt : Sorter) (be : BiddingEngine)
    (now : Time) (bidders : slice) (h : store) (a : Bidder) :
  Sorter_contract srt ->
  0 < maxRounds be ->
  slice_contents h bidders = [a] ->
  0 <= DollarsToCents (StartingBid a) ->
  exists h' br,
    ProcessBids srt be now bidders h = (h', inr br) /\
    Winner_deref h' br = Some (SyncFloatFields (reinitialize now a)) /\
    slice_contents h' (AllBidders br)
    = [SyncFloatFields (reinitialize now a)] /\
    TotalBidders br = 1 /\
    BiddingRounds br = 0 /\
    GetWinningBidCents br = DollarsToCents (StartingBid a).
Proof.
  intros Hsrt Hcap Hin Hpos.
  assert (Hne : slice_contents h bidders <> []) by (rewrite Hin; discriminate).
  rewrite (ProcessBids_run _ _ _ _ _ Hne), Hin.
  set (a' := reinitialize now a).
  assert (Hprep : prepare srt now [a] = [a']).
  { apply Permutation_singleton_r.
    apply (prepare_Permutation srt now [a] Hsrt). }
  assert (Hrounds : rounds_from (Z.to_nat (maxRounds be)) 0 [a']
                    = ([a'], inr 0)).
  { destruct (Z.to_nat (maxRounds be)) eqn:Hfuel; [lia|]. reflexivity. }
  assert (Hwin : findWinner [a'] = inr (Some 0%nat)).
  { unfold findWinner. simpl. unfold GetCurrentBidCents. simpl.
    destruct (Z.ltb_spec (DollarsToCents (StartingBid a)) 0); [lia|].
    reflexivity. }
  assert (Hprice : CalculateMinimumWinningBidCents [a'] (Some a')
                   = inr (DollarsToCents (StartingBid a))).
  { unfold CalculateMinimumWinningBidCents. simpl.
    unfold same_ID. rewrite String.eqb_refl. reflexivity. }
  unfold run. rewrite Hprep, Hrounds.
  destruct (Z.leb_spec (maxRounds be) 0) as [|_]; [lia|].
  rewrite Hwin. change ([a'] !! 0%nat) with (Some a'). rewrite Hprice.
  simpl. eexists _, _. split; [reflexivity|].
  unfold Winner_deref. simpl. rewrite !slice_contents_insert.
  repeat split; reflexivity.
Qed.

Lemma ProcessBids_single_bidder_witness :
  let a := bidder_at 5 "1" "Alice" (dollars 1) (dollars 1) (dollars 1) in
  exists h' br,
    ProcessBids insertion_Sorter NewBiddingEngine 0 1%positive
      (store_of [a]) = (h', inr br) /\
    Winner_deref h' br = Some (SyncFloatFields (reinitialize 0 a)) /\
    slice_contents h' (AllBidders br)
    = [SyncFloatFields (reinitialize 0 a)] /\
    TotalBidders br = 1 /\
    BiddingRounds br = 0 /\
    GetWinningBidCents br = DollarsToCents (StartingBid a).
Proof.
  intros a.
  apply (ProcessBids_single_bidder insertion_Sorter NewBiddingEngine 0
           1%positive (store_of [a]) a insertion_Sorter_contract).
  - reflexivity.
  - reflexivity.
  - vm_compute. discriminate.
Defined.

Lemma rounds_from_valid_no_error (fuel : nat) (rounds : Z)
    (ws : list Bidder) :
  Forall valid_state ws ->
  exists r, snd (rounds_from fuel rounds ws) = inr r.
Proof.
  revert rounds ws. induction fuel as [|fuel IH]; intros rounds ws Hws; simpl.
  - eauto.
  - destruct (IncrementBids_valid ws Hws) as (ws' & inc & -> & Hws' & _).
    destruct inc; [apply IH, Hws'|simpl; eauto].
Qed.

(** X12. On a non-empty valid bidder set [ProcessBids] can fail in one way
    only: by reaching the round cap, with the timeout error.  No
    processing, system or input error arises. *)
Theorem ProcessBids_valid_input_fails_only_by_timeout (srt : Sorter)
    (be : BiddingEngine) (now : Time) (bidders : slice) (h : store)
    (e : AuctionError) :
  Sorter_contract srt ->
  slice_contents h bidders <> [] ->
  Forall valid_input (slice_contents h bidders) ->
  snd (ProcessBids srt be now bidders h) = inl e ->
  e = NewTimeoutError "bidding process exceeded maximum rounds".
Proof.
  intros Hsrt Hne Hin. rewrite (ProcessBids_run _ _ _ _ _ Hne). simpl.
  unfold run.
  pose proof (prepare_valid srt now _ Hsrt Hin) as Hv0.
  destruct (rounds_from_valid (Z.to_nat (maxRounds be)) 0 _ Hv0) as [Hv Hp].
  destruct (rounds_from_valid_no_error (Z.to_nat (maxRounds be)) 0 _ Hv0)
    as [r Hr].
  destruct (rounds_from _ 0 _) as [ws res]. simpl in *. subst res.
  destruct (maxRounds be <=? r); simpl; [congruence|].
  assert (Hws : ws <> []).
  { intros ->. simpl in Hp. symmetry in Hp. apply fmap_nil_inv in Hp.
    pose proof (prepare_Permutation srt now (slice_contents h bidders) Hsrt)
      as Hperm.
    rewrite Hp in Hperm. symmetry in Hperm.
    apply Permutation_nil_r, fmap_nil_inv in Hperm. contradiction. }
  destruct (findWinner_total ws Hws (valid_state_current_nonneg ws Hv))
    as (i & wb & -> & Hi).
  rewrite Hi, (CalculateMinimumWinningBidCents_valid ws wb Hv)
    by (eapply list_elem_of_lookup_2, Hi).
  discriminate.
Qed.

Lemma ProcessBids_valid_input_fails_only_by_timeout_witness :
  exists e,
    snd (ProcessBids insertion_Sorter NewBiddingEngine 0 1%positive
           (store_of slow_auction)) = inl e /\
    e = NewTimeoutError "bidding process exceeded maximum rounds".
Proof.
  eexists. split; [vm_compute; reflexivity|].
  apply (ProcessBids_valid_input_fails_only_by_timeout insertion_Sorter
           NewBiddingEngine 0 1%positive (store_of slow_auction) _
           insertion_Sorter_contract).
  - vm_compute. discriminate.
  - repeat constructor; vm_compute; congruence.
  - vm_compute. reflexivity.
Defined.

Lemma rounds_from_error (fuel : nat) (rounds : Z) (ws : list Bidder)
    (e : AuctionError) :
  snd (rounds_from fuel rounds ws) = inl e ->
  error_type e = ErrorTypeProcessing /\ is_Some (error_cause e).
Proof.
  revert rounds ws. induction fuel as [|fuel IH]; intros rounds ws; simpl;
    [discriminate|].
  destruct (IncrementBids ws) as [ws' [err|inc]]; simpl.
  - intros [= <-]. simpl. eauto.
  - destruct inc; [apply IH|discriminate].
Qed.

(** X13. Whatever the input, an error of [ProcessBids] is either the
    timeout error or a processing error that carries its cause; and an
    engine whose round cap is not positive answers every non-empty input
    with the timeout error. *)
Theorem ProcessBids_errors (srt : Sorter) (be : BiddingEngine) (now : Time)
    (bidders : slice) (h : store) :
  (forall e, snd (ProcessBids srt be now bidders h) = inl e ->
     e = NewTimeoutError "bidding process exceeded maximum rounds" \/
     (error_type e = ErrorTypeProcessing /\ is_Some (error_cause e))) /\
  (maxRounds be <= 0 -> slice_contents h bidders <> [] ->
   snd (ProcessBids srt be now bidders h)
   = inl (NewTimeoutError "bidding process exceeded maximum rounds")).
Proof.
  split.
  - intros e. destruct (decide (slice_contents h bidders = [])) as [He|Hne].
    { rewrite (ProcessBids_empty _ _ _ _ _ He). discriminate. }
    rewrite (ProcessBids_run _ _ _ _ _ Hne). simpl. unfold run.
    pose proof (rounds_from_error (Z.to_nat (maxRounds be)) 0
                  (prepare srt now (slice_contents h bidders))) as Herr.
    destruct (rounds_from _ 0 _) as [ws [err|r]]; simpl in *.
    + intros [= <-]. right. apply Herr. reflexivity.
    + destruct (maxRounds be <=? r); simpl; [intros [= <-]; now left|].
      destruct (findWinner ws) as [err|[i|]]; simpl.
      * intros [= <-]. right. simpl. eauto.
      * destruct (CalculateMinimumWinningBidCents ws (ws !! i)); simpl;
          [|discriminate].
        intros [= <-]. right. simpl. eauto.
      * discriminate.
  - intros Hcap Hne. rewrite (ProcessBids_run _ _ _ _ _ Hne). simpl.
    unfold run. replace (Z.to_nat (maxRounds be)) with 0%nat by lia.
    simpl. destruct (Z.leb_spec (maxRounds be) 0); [reflexivity|lia].
Qed.

Lemma findWinner_best_witness :
  exists w, second_price_auction !! 1%nat = Some w /\
            0 <= currentBidCents w /\
            forall j b, second_price_auction !! j = Some b ->
                        prevails 1 w j b.
Proof.
  apply (findWinner_best second_price_auction 1).
  vm_compute. reflexivity.
Defined.

Lemma findWinner_outcome_witness :
  ((exists e, findWinner second_price_auction = inl e) <->
   (exists j b, (1 <= j)%nat /\ second_price_auction !! j = Some b /\
                negative_bid b) \/
   (exists b, second_price_auction = [b] /\ negative_bid b)) /\
  (forall e, findWinner second_price_auction = inl e ->
             error_type e = ErrorTypeSystem) /\
  findWinner second_price_auction <> inr None.
Proof.
  apply (proj2 (findWinner_outcome second_price_auction)). discriminate.
Defined.

Lemma second_price_run :
  exists h' br,
    ProcessBids insertion_Sorter NewBiddingEngine 0 1%positive
      (store_of second_price_auction) = (h', inr br).
Proof. eexists _, _. vm_compute. reflexivity. Defined.


Lemma ProcessBids_winner_prevails_witness :
  exists h' br (i : nat) (w : Bidder),
    ProcessBids insertion_Sorter NewBiddingEngine 0 1%positive
      (store_of second_price_auction) = (h', inr br) /\
    Winner br = Some (AllBidders br, i) /\
    slice_contents h' (AllBidders br) !! i = Some w /\
    Winner_deref h' br = Some w /\
    forall j b, slice_contents h' (AllBidders br) !! j = Some b ->
                prevails i w j b.
Proof.
  destruct second_price_run as (h' & br & Hrun).
  destruct (ProcessBids_winner_prevails insertion_Sorter NewBiddingEngine 0
              1%positive (store_of second_price_auction) h' br
              insertion_Sorter_contract ltac:(vm_compute; discriminate) Hrun)
    as (i & w & H).
  exists h', br, i, w. split; [exact Hrun|exact H].
Defined.

Lemma ProcessBids_result_synced_witness :
  exists h' br,
    ProcessBids insertion_Sorter NewBiddingEngine 0 1%positive
      (store_of second_price_auction) = (h', inr br) /\
    WinningBid br = CentsToDollars (GetWinningBidCents br) /\
    forall b, b ∈ slice_contents h' (AllBidders br) ->
      StartingBid b = CentsToDollars (startingBidCents b) /\
      MaxBid b = CentsToDollars (maxBidCents b) /\
      AutoIncrement b = CentsToDollars (autoIncrementCents b) /\
      CurrentBid b = CentsToDollars (currentBidCents b).
Proof.
  destruct second_price_run as (h' & br & Hrun). exists h', br.
  split; [exact Hrun|].
  exact (ProcessBids_result_synced insertion_Sorter NewBiddingEngine 0
           1%positive (store_of second_price_auction) h' br
           insertion_Sorter_contract ltac:(vm_compute; discriminate) Hrun).
Defined.

Lemma ProcessBids_final_state_settled_witness :
  exists h' br,
    ProcessBids insertion_Sorter NewBiddingEngine 0 1%positive
      (store_of second_price_auction) = (h', inr br) /\
    forall b b' : Bidder,
      b ∈ slice_contents h' (AllBidders br) ->
      b' ∈ slice_contents h' (AllBidders br) ->
      currentBidCents b < currentBidCents b' ->
      CanIncrement b = false.
Proof.
  destruct second_price_run as (h' & br & Hrun). exists h', br.
  split; [exact Hrun|].
  exact (ProcessBids_final_state_settled insertion_Sorter NewBiddingEngine 0
           1%positive (store_of second_price_auction) h' br
           insertion_Sorter_contract ltac:(vm_compute; discriminate) Hrun).
Defined.

(** ** The price computation in general *)

Lemma second_highest_is_highest (w : Bidder) (ws : list Bidder) :
  foldl (fun secondHighestCents bidder =>
           if same_ID bidder w then secondHighestCents
           else if secondHighestCents <? GetMaxBidCents bidder
                then GetMaxBidCents bidder
                else secondHighestCents) 0 ws
  = highest maxBidCents (others w ws).
Proof.
  rewrite second_highest_fold by lia.
  pose proof (highest_nonneg maxBidCents (others w ws)). lia.
Qed.

Lemma existsb_same_ID (w : Bidder) (l : list Bidder) :
  existsb (fun bidder => same_ID bidder w) l = true <->
  exists b, b ∈ l /\ ID b = ID w.
Proof.
  rewrite existsb_exists. split.
  - intros (b & Hin & Hid). exists b. split; [apply list_elem_of_In, Hin|].
    apply String.eqb_eq, Hid.
  - intros (b & Hin & Hid). exists b. split; [apply list_elem_of_In, Hin|].
    apply String.eqb_eq, Hid.
Qed.

Lemma CalculateMinimumWinningBidCents_cases (bidders : list Bidder)
    (w : Bidder) :
  CalculateMinimumWinningBidCents bidders None
  = inl (NewInputError "winner cannot be nil") /\
  CalculateMinimumWinningBidCents [] (Some w)
  = inl (NewInputError "bidders slice cannot be empty") /\
  (bidders <> [] -> (~ exists b, b ∈ bidders /\ ID b = ID w) ->
   CalculateMinimumWinningBidCents bidders (Some w)
   = inl (NewInputError "winner not found in bidders slice")) /\
  ((exists b, b ∈ bidders /\ ID b = ID w) ->
   let S := highest maxBidCents (others w bidders) in
   let m := Z.max (startingBidCents w)
              (Z.min (maxBidCents w) (S + autoIncrementCents w)) in
   (S = 0 ->
    CalculateMinimumWinningBidCents bidders (Some w)
    = inr (startingBidCents w)) /\
   (S <> 0 -> in_int64 (S + autoIncrementCents w) ->
    CalculateMinimumWinningBidCents bidders (Some w)
    = if m <? 0
      then inl (NewSystemError "calculated minimum winning bid is negative")
      else inr m)).
Proof.
  split; [reflexivity|]. split; [reflexivity|]. split.
  - intros Hne Hnot. unfold CalculateMinimumWinningBidCents.
    destruct (Nat.eqb_spec (length bidders) 0) as [Hl|_].
    { destruct bidders; simpl in *; congruence. }
    destruct (existsb (fun bidder => same_ID bidder w) bidders) eqn:Hex;
      [|reflexivity].
    apply existsb_same_ID in Hex. contradiction.
  - intros Hfound S m.
    assert (Hne : bidders <> []).
    { destruct Hfound as (b & Hb & _). intros ->.
      apply elem_of_nil in Hb. contradiction. }
    apply existsb_same_ID in Hfound.
    unfold CalculateMinimumWinningBidCents.
    destruct (Nat.eqb_spec (length bidders) 0) as [Hl|_].
    { destruct bidders; simpl in *; congruence. }
    rewrite Hfound. simpl. rewrite second_highest_is_highest. fold S.
    split.
    + intros ->. reflexivity.
    + intros HS Hfit. destruct (Z.eqb_spec S 0) as [|_]; [contradiction|].
      unfold GetAutoIncrementCents, GetMaxBidCents, GetStartingBidCents,
        int64_add.
      rewrite (wrap64_small _ Hfit). subst m.
      destruct (Z.ltb_spec (maxBidCents w) (S + autoIncrementCents w)).
      * rewrite Z.min_l by lia.
        destruct (Z.ltb_spec (maxBidCents w) (startingBidCents w)).
        -- rewrite Z.max_l by lia. reflexivity.
        -- rewrite Z.max_r by lia. reflexivity.
      * rewrite Z.min_r by lia.
        destruct (Z.ltb_spec (S + autoIncrementCents w) (startingBidCents w)).
        -- rewrite Z.max_l by lia. reflexivity.
        -- rewrite Z.max_r by lia. reflexivity.
Qed.

(** X14. [CalculateMinimumWinningBidCents] rejects, with an input error, a
    nil winner, an empty slice, and a winner whose id no bidder of the
    slice carries.  Otherwise, with [S] the highest positive maximum bid
    among the bidders with another id (0 if there is none): if [S] is 0
    the result is the winner's starting bid; else, when [S] plus the
    winner's increment is an [int64], the result is that sum, lowered to
    the winner's maximum bid and then raised to the winner's starting
    bid, and if this amount is negative a system error instead. *)
Theorem CalculateMinimumWinningBidCents_outcome (bidders : list Bidder)
    (w : Bidder) :
  CalculateMinimumWinningBidCents bidders None
  = inl (NewInputError "winner cannot be nil") /\
  CalculateMinimumWinningBidCents [] (Some w)
  = inl (NewInputError "bidders slice cannot be empty") /\
  (bidders <> [] -> (~ exists b, b ∈ bidders /\ ID b = ID w) ->
   CalculateMinimumWinningBidCents bidders (Some w)
   = inl (NewInputError "winner not found in bidders slice")) /\
  ((exists b, b ∈ bidders /\ ID b = ID w) ->
   let S := highest maxBidCents (others w bidders) in
   let m := Z.max (startingBidCents w)
              (Z.min (maxBidCents w) (S + autoIncrementCents w)) in
   (S = 0 ->
    CalculateMinimumWinningBidCents bidders (Some w)
    = inr (startingBidCents w)) /\
   (S <> 0 -> in_int64 (S + autoIncrementCents w) ->
    CalculateMinimumWinningBidCents bidders (Some w)
    = if m <? 0
      then inl (NewSystemError "calculated minimum winning bid is negative")
      else inr m)).
Proof. apply CalculateMinimumWinningBidCents_cases. Qed.

(** X15. One pass over valid bidders never fails, changes no bidder's
    fixed parameters, and changes a bidder's state only by one full
    increment that stays within the bidder's maximum; it reports an
    increment exactly when it changed the slice. *)
Theorem IncrementBids_progress (ws : list Bidder) :
  Forall valid_state ws ->
  exists ws' incremented,
    IncrementBids ws = (ws', inr incremented) /\
    length ws' = length ws /\
    (forall i b b', ws !! i = Some b -> ws' !! i = Some b' ->
       params b' = params b /\
       (b' = b \/
        (currentBidCents b' = currentBidCents b + autoIncrementCents b /\
         currentBidCents b' <= maxBidCents b))) /\
    (incremented = false <-> ws' = ws).
Proof.
  intros Hws.
  destruct (IncrementBids_valid ws Hws) as (ws' & inc & Hrun & _ & _ & Hh & Hidle).
  exists ws', inc. split; [exact Hrun|].
  assert (Hcases : ws' = ws \/
            exists H, ws' = map (round_step H) ws /\
                      inc = existsb (losing H) ws).
  { revert Hrun. unfold IncrementBids.
    destruct (length ws <=? 1)%nat; [intros [= <- _]; now left|].
    destruct (findHighestBidCents ws) as [err|H]; [intros [= <- _]; now left|].
    pose proof (IncrementBids_loop_spec H ws [] false) as Hl.
    simpl in Hl. rewrite Hl. intros [= <- <-]. right. eauto. }
  split; [|split].
  - destruct Hcases as [->|(H & -> & _)]; [reflexivity|apply length_map].
  - intros i b b' Hb Hb'.
    destruct Hcases as [->|(H & -> & _)].
    { rewrite Hb in Hb'. injection Hb' as <-. auto. }
    rewrite list_lookup_fmap, Hb in Hb'. injection Hb' as <-.
    split; [apply round_step_params|].
    unfold round_step. destruct (losing H b) eqn:Hl; [|now left].
    right. apply andb_prop in Hl as [_ Hcan].
    destruct (Increment_exact b) as [He Hle]; [|exact Hcan|].
    { apply valid_state_bid_inv. exact (Forall_lookup_1 _ _ _ _ Hws Hb). }
    split; [exact He|]. rewrite He. exact Hle.
  - split; [exact Hidle|]. intros ->. destruct inc; [|reflexivity].
    simpl in Hh. lia.
Qed.

Lemma IncrementBids_progress_witness :
  exists ws' incremented,
    IncrementBids (map (reinitialize 0) second_price_auction)
    = (ws', inr incremented) /\
    length ws' = 2%nat /\
    (incremented = false <-> ws' = map (reinitialize 0) second_price_auction).
Proof.
  destruct (IncrementBids_progress (map (reinitialize 0) second_price_auction))
    as (ws' & inc & H1 & H2 & _ & H4).
  - repeat constructor; vm_compute; congruence.
  - exists ws', inc. repeat split; try assumption; apply H4.
Defined.

(** ** Increments of zero cents *)

Lemma round_step_roomy (H : Z) (b : Bidder) :
  roomy b ->
  roomy (round_step H b) /\
  currentBidCents b <= currentBidCents (round_step H b).
Proof.
  intros (Hc & Hi & Hm). unfold round_step.
  destruct (losing H b) eqn:Hl; [|repeat split; lia].
  apply andb_prop in Hl as [_ Hcan].
  pose proof (Increment_current b Hcan) as Hcur.
  pose proof (Increment_params b) as Hp. unfold same_params, params in Hp.
  injection Hp as _ _ _ Hmax Hinc.
  unfold CanIncrement in Hcan. apply andb_prop in Hcan as [_ Hle].
  apply Z.leb_le in Hle. unfold int64_add in *.
  rewrite wrap64_small in Hcur, Hle by (unfold in_int64; lia).
  unfold roomy. rewrite <- Hmax, <- Hinc, Hcur. lia.
Qed.

Lemma round_step_keeps_idle (H : Z) (b : Bidder) :
  roomy b -> idle b ->
  idle (round_step H b) /\
  currentBidCents (round_step H b) = currentBidCents b.
Proof.
  intros (Hc & Hi & Hm) (Ha & Hz & Hlt). unfold round_step.
  destruct (losing H b) eqn:Hl; [|repeat split; assumption].
  apply andb_prop in Hl as [_ Hcan].
  pose proof (Increment_current b Hcan) as Hcur.
  pose proof (Increment_active b Hcan) as Hact.
  pose proof (Increment_params b) as Hp. unfold same_params, params in Hp.
  injection Hp as _ _ _ Hmax Hinc.
  unfold int64_add in *. rewrite Hz, Z.add_0_r in Hcur, Hact.
  rewrite wrap64_small in Hcur, Hact by (unfold in_int64; lia).
  unfold idle. rewrite <- Hmax, <- Hinc, Hcur, Hact.
  destruct (Z.leb_spec (maxBidCents b) (currentBidCents b)); [lia|].
  repeat split; assumption.
Qed.

Lemma losing_idle (H : Z) (b : Bidder) :
  roomy b -> idle b -> currentBidCents b < H -> losing H b = true.
Proof.
  intros (Hc & Hi & Hm) (Ha & Hz & Hlt) HH. unfold losing, CanIncrement.
  rewrite Ha. unfold int64_add. rewrite Hz, Z.add_0_r.
  rewrite wrap64_small by (unfold in_int64; lia).
  apply andb_true_intro. split; [apply Z.ltb_lt|apply Z.leb_le]; lia.
Qed.

Lemma two_elements (ws : list Bidder) (b b' : Bidder) :
  b ∈ ws -> b' ∈ ws -> b <> b' -> (2 <= length ws)%nat.
Proof.
  intros Hb Hb' Hne. destruct ws as [|x [|y ws]]; simpl; try lia.
  - apply elem_of_nil in Hb. contradiction.
  - apply list_elem_of_singleton in Hb, Hb'. congruence.
Qed.

Lemma IncrementBids_idle (ws : list Bidder) (b b' : Bidder) :
  Forall roomy ws -> b ∈ ws -> b' ∈ ws -> idle b ->
  currentBidCents b < currentBidCents b' ->
  exists ws' c c',
    IncrementBids ws = (ws', inr true) /\
    Forall roomy ws' /\ c ∈ ws' /\ c' ∈ ws' /\ idle c /\
    currentBidCents c < currentBidCents c'.
Proof.
  intros Hws Hb Hb' Hidle Hlt.
  assert (Hlen : (2 <= length ws)%nat).
  { apply (two_elements ws b b'); try assumption. intros ->. lia. }
  destruct (findHighestBidCents_total ws) as [H HH].
  { eapply Forall_impl; [exact Hws|]. intros x (Hx & _). lia. }
  assert (Hne : ws <> []) by (intros ->; simpl in Hlen; lia).
  destruct (findHighestBidCents_spec ws H Hne HH) as [Hle _].
  pose proof (proj1 (Forall_forall _ _) Hle b' Hb') as Hb'H. simpl in Hb'H.
  pose proof (proj1 (Forall_forall _ _) Hws b Hb) as Hrb.
  pose proof (proj1 (Forall_forall _ _) Hws b' Hb') as Hrb'.
  exists (map (round_step H) ws), (round_step H b), (round_step H b').
  split; [|split; [|split; [|split; [|split]]]].
  - rewrite (IncrementBids_spec ws H Hlen HH). f_equal. f_equal.
    apply existsb_exists. exists b. split; [apply list_elem_of_In, Hb|].
    apply losing_idle; [assumption..|lia].
  - apply Forall_fmap. eapply Forall_impl; [exact Hws|].
    intros x Hx. apply round_step_roomy, Hx.
  - apply list_elem_of_fmap. eauto.
  - apply list_elem_of_fmap. eauto.
  - apply round_step_keeps_idle; assumption.
  - rewrite (proj2 (round_step_keeps_idle H b Hrb Hidle)).
    pose proof (proj2 (round_step_roomy H b' Hrb')). lia.
Qed.

Lemma rounds_from_idle (fuel : nat) :
  forall (rounds : Z) (ws : list Bidder) (b b' : Bidder),
    Forall roomy ws -> b ∈ ws -> b' ∈ ws -> idle b ->
    currentBidCents b < currentBidCents b' ->
    snd (rounds_from fuel rounds ws) = inr (rounds + Z.of_nat fuel).
Proof.
  induction fuel as [|fuel IH]; intros rounds ws b b' Hws Hb Hb' Hidle Hlt.
  - simpl. f_equal. lia.
  - destruct (IncrementBids_idle ws b b' Hws Hb Hb' Hidle Hlt)
      as (ws' & c & c' & Hrun & Hws' & Hc & Hc' & Hidle' & Hlt').
    simpl. rewrite Hrun.
    rewrite (IH (rounds + 1) ws' c c' Hws' Hc Hc' Hidle' Hlt').
    f_equal. lia.
Qed.

Lemma reinitialize_roomy (now : Time) (b : Bidder) :
  roomy_input b -> roomy (reinitialize now b).
Proof. intros H. exact H. Qed.

(** X16. An increment that is zero in cents (a decimal increment below
    half a cent) never ends the auction: when the amounts are not negative
    and below 2^62 cents and some bidder with a zero-cent increment starts
    below its own maximum and below another bidder's starting bid,
    [ProcessBids] runs into the round cap and returns the timeout error,
    whatever the cap is. *)
Theorem ProcessBids_zero_increment_times_out (srt : Sorter)
    (be : BiddingEngine) (now : Time) (bidders : slice) (h : store)
    (b b' : Bidder) :
  Sorter_contract srt ->
  Forall roomy_input (slice_contents h bidders) ->
  b ∈ slice_contents h bidders -> b' ∈ slice_contents h bidders ->
  DollarsToCents (AutoIncrement b) = 0 ->
  DollarsToCents (StartingBid b) < DollarsToCents (MaxBid b) ->
  DollarsToCents (StartingBid b) < DollarsToCents (StartingBid b') ->
  snd (ProcessBids srt be now bidders h)
  = inl (NewTimeoutError "bidding process exceeded maximum rounds").
Proof.
  intros Hsrt Hall Hb Hb' Hz Hmax Hlt.
  assert (Hne : slice_contents h bidders <> []).
  { intros Hnil. rewrite Hnil in Hb. apply elem_of_nil in Hb. exact Hb. }
  rewrite (ProcessBids_run srt be now bidders h Hne). simpl. unfold run.
  pose proof (prepare_Permutation srt now (slice_contents h bidders) Hsrt)
    as Hperm.
  pose proof (rounds_from_idle (Z.to_nat (maxRounds be)) 0
                (prepare srt now (slice_contents h bidders))
                (reinitialize now b) (reinitialize now b')) as Hr.
  destruct (rounds_from _ 0 _) as [ws r]. simpl in Hr.
  rewrite Hr.
  - destruct (Z.leb_spec (maxRounds be)
                (0 + Z.of_nat (Z.to_nat (maxRounds be))));
      [reflexivity|lia].
  - rewrite Hperm. apply Forall_fmap.
    eapply Forall_impl; [exact Hall|]. intros x Hx.
    apply reinitialize_roomy, Hx.
  - rewrite Hperm. apply list_elem_of_fmap. eauto.
  - rewrite Hperm. apply list_elem_of_fmap. eauto.
  - repeat split; assumption.
  - exact Hlt.
Qed.

Lemma ProcessBids_zero_increment_times_out_witness :
  snd (ProcessBids insertion_Sorter NewBiddingEngine 0 1%positive
         (store_of sub_cent_auction))
  = inl (NewTimeoutError "bidding process exceeded maximum rounds").
Proof.
  refine (ProcessBids_zero_increment_times_out insertion_Sorter
            NewBiddingEngine 0 1%positive (store_of sub_cent_auction)
            (bidder_at 0 "A" "Alice" (dollars 10000) (dollars 20000)
               (f64_lit 1 1000))
            (bidder_at 1 "B" "Bob" (dollars 15000) (dollars 30000)
               (dollars 1000))
            insertion_Sorter_contract _ _ _ _ _ _).
  - repeat constructor; vm_compute; congruence.
  - vm_compute. left.
  - vm_compute. right. left.
  - vm_compute. reflexivity.
  - vm_compute. reflexivity.
  - vm_compute. reflexivity.
Defined.

(** ** The conversions and the sign *)














(** * The error values *)

Lemma GetContext_insert (ae : errors.AuctionError)
    (m : gmap string string) (key value key' : string) :
  errors.GetContext (errors.set_Context (Some (<[key := value]> m)) ae) key'
  = if decide (key' = key) then (value, true)
    else errors.GetContext (errors.set_Context (Some m) ae) key'.
Proof.
  unfold errors.GetContext. simpl. destruct (decide (key' = key)) as [->|Hne].
  - rewrite lookup_insert_eq. reflexivity.
  - rewrite lookup_insert_ne by congruence. reflexivity.
Qed.

Lemma GetContext_default (ae : errors.AuctionError) (key : string) :
  errors.GetContext
    (errors.set_Context (Some (default ∅ (errors.Context_ ae))) ae) key
  = errors.GetContext ae key.
Proof.
  unfold errors.GetContext. simpl.
  destruct (errors.Context_ ae) as [m|]; simpl; [reflexivity|].
  rewrite lookup_empty. reflexivity.
Qed.

Lemma AddContext_lookup (ae : errors.AuctionError) (key value key' : string) :
  errors.GetContext (errors.AddContext ae key value) key'
  = if decide (key' = key) then (value, true) else errors.GetContext ae key'.
Proof.
  unfold errors.AddContext.
  destruct (errors.Context_ ae) as [m|] eqn:Hm; simpl.
  - rewrite Hm. simpl.
    rewrite (GetContext_insert ae m key value key').
    destruct (decide (key' = key)); [reflexivity|].
    unfold errors.GetContext. rewrite Hm. reflexivity.
  - rewrite (GetContext_insert _ ∅ key value key').
    destruct (decide (key' = key)); [reflexivity|].
    unfold errors.GetContext. simpl. rewrite Hm, lookup_empty. reflexivity.
Qed.

Lemma WithContext_fold (visited : list (string * string)) :
  forall (ae : errors.AuctionError) (m : gmap string string),
    errors.Context_ ae = Some m ->
    foldl (fun ae kv =>
             errors.set_Context
               (Some (<[kv.1 := kv.2]> (default ∅ (errors.Context_ ae)))) ae)
      ae visited
    = errors.set_Context
        (Some (foldl (fun m kv => <[kv.1 := kv.2]> m) m visited)) ae.
Proof.
  induction visited as [|kv visited IH]; intros ae m Hm; simpl.
  - destruct ae; simpl in *. subst. reflexivity.
  - rewrite (IH _ (<[kv.1 := kv.2]> m)).
    + rewrite Hm. destruct ae; reflexivity.
    + rewrite Hm. reflexivity.
Qed.

Lemma foldl_insert_lookup (visited : list (string * string)) :
  forall (m : gmap string string) (key : string),
    NoDup visited.*1 ->
    foldl (fun m kv => <[kv.1 := kv.2]> m) m visited !! key
    = match list_to_map (M := gmap string string) visited !! key with
      | Some value => Some value
      | None => m !! key
      end.
Proof.
  induction visited as [|[k v] visited IH]; intros m key Hnd; simpl.
  - rewrite lookup_empty. reflexivity.
  - apply NoDup_cons in Hnd as [Hk Hnd]. rewrite (IH _ _ Hnd).
    destruct (decide (key = k)) as [->|Hne].
    + rewrite lookup_insert_eq.
      rewrite (not_elem_of_list_to_map_1 (M := gmap string) _ _ Hk).
      rewrite lookup_insert_eq. reflexivity.
    + rewrite !lookup_insert_ne by congruence. reflexivity.
Qed.

(** X18. The context of an error behaves as a map under its methods.
    After [AddContext key value], [GetContext] finds [value] at [key] and
    answers for every other key as before, also when the context map was
    nil.  After [WithContext context], in whatever order the entries of
    [context] are visited, [GetContext] finds at a key the value of
    [context] if it has one and answers as before if not. *)
Theorem context_lookup (ae : errors.AuctionError) (key value key' : string)
    (context : gmap string string) (visited : list (string * string)) :
  visited ≡ₚ map_to_list context ->
  errors.GetContext (errors.AddContext ae key value) key'
  = (if decide (key' = key) then (value, true)
     else errors.GetContext ae key') /\
  errors.GetContext (errors.WithContext ae visited) key'
  = match context !! key' with
    | Some v => (v, true)
    | None => errors.GetContext ae key'
    end.
Proof.
  intros Hperm. split; [apply AddContext_lookup|].
  assert (Hnd : NoDup visited.*1).
  { rewrite Hperm. apply NoDup_fst_map_to_list. }
  assert (Hmap : list_to_map (M := gmap string string) visited = context).
  { rewrite <- (list_to_map_to_list context).
    apply list_to_map_proper; [exact Hnd|exact Hperm]. }
  unfold errors.WithContext.
  destruct (errors.Context_ ae) as [m|] eqn:Hm.
  - rewrite (WithContext_fold visited ae m Hm).
    unfold errors.GetContext. simpl.
    rewrite (foldl_insert_lookup visited m key' Hnd), Hmap, Hm.
    destruct (context !! key'); reflexivity.
  - rewrite (WithContext_fold visited (errors.set_Context (Some ∅) ae) ∅
               eq_refl).
    unfold errors.GetContext. simpl.
    rewrite (foldl_insert_lookup visited ∅ key' Hnd), Hmap, Hm, lookup_empty.
    destruct (context !! key'); reflexivity.
Qed.

Lemma context_lookup_witness :
  errors.GetContext
    (errors.WithContext
       (errors.AddContext
          (errors.NewAuctionError ErrorTypeInput "bad input" []) "a" "1")
       [("b", "2"); ("a", "3")]) "a"
  = ("3", true).
Proof.
  refine (proj2 (context_lookup _ "a" "1" "a" {[ "a" := "3"; "b" := "2" ]}
                   [("b", "2"); ("a", "3")] _)).
  assert (Hl : map_to_list ({[ "a" := "3"; "b" := "2" ]} : gmap string string)
               = [("a", "3"); ("b", "2")]) by (vm_compute; reflexivity).
  rewrite Hl. apply perm_swap.
Defined.

Lemma group_lookup (key : errors.ValidationError -> string)
    (details : list errors.ValidationError) :
  forall (result : gmap string (list errors.ValidationError)) (k : string),
    foldl (fun result detail =>
             <[key detail := default [] (result !! key detail) ++ [detail]]>
               result) result details !! k
    = match filter (fun detail => key detail = k) details with
      | [] => result !! k
      | group => Some (default [] (result !! k) ++ group)
      end.
Proof.
  induction details as [|d details IH]; intros result k; simpl.
  - reflexivity.
  - rewrite IH, filter_cons. destruct (decide (key d = k)) as [Hk|Hk].
    + subst k. rewrite lookup_insert_eq. simpl.
      destruct (filter _ details) as [|d' group]; simpl.
      * reflexivity.
      * rewrite <- app_assoc. reflexivity.
    + rewrite lookup_insert_ne by exact Hk. reflexivity.
Qed.

(** X19. [GetValidationErrorsByField] and [GetValidationErrorsByBidder]
    partition the details: the group at a key is the list of the details
    with that field (that bidder id), in the order of [Details], and a
    key that no detail carries is absent from the map, so no group is
    empty. *)
Theorem validation_errors_grouped (ae : errors.AuctionError) (k : string) :
  errors.GetValidationErrorsByField ae !! k
  = (match filter (fun d => errors.Field d = k) (errors.Details ae) with
     | [] => None
     | group => Some group
     end) /\
  errors.GetValidationErrorsByBidder ae !! k
  = (match filter (fun d => errors.BidderID d = k) (errors.Details ae) with
     | [] => None
     | group => Some group
     end).
Proof.
  unfold errors.GetValidationErrorsByField, errors.GetValidationErrorsByBidder.
  rewrite (group_lookup errors.Field), (group_lookup errors.BidderID).
  rewrite lookup_empty. split; reflexivity.
Qed.

(** * The validator *)

Section validator_facts.

Variable TrimSpace : string -> string.
Variable Sprintf_2f : float64 -> string.

Lemma ValidateBidder_cases (b : Bidder) :
  (validation.ValidateBidder TrimSpace Sprintf_2f b = None /\
   validation.acceptable TrimSpace b) \/
  (~ validation.acceptable TrimSpace b /\
   exists e, validation.ValidateBidder TrimSpace Sprintf_2f b = Some e /\
     errors.Type_ e = ErrorTypeValidation /\
     errors.Operation e = "ValidateBidder" /\
     errors.Details e <> [] /\
     (length (errors.Details e) <= 6)%nat /\
     Forall (fun d => errors.BidderID d = ID b \/
                      (errors.BidderID d = "" /\ errors.Field d = "ID"))
       (errors.Details e) /\
     errors.GetContext e "bidder_id" = (ID b, true) /\
     errors.GetContext e "bidder_name" = (Name b, true)).
Proof.
  unfold validation.ValidateBidder, validation.acceptable.
  destruct (String.eqb_spec (TrimSpace (ID b)) "") as [H1|H1];
  destruct (String.eqb_spec (TrimSpace (Name b)) "") as [H2|H2];
  destruct (validation.f64_lt (StartingBid b) (f64_of_Z 0)) eqn:H3;
  destruct (validation.f64_lt (MaxBid b) (f64_of_Z 0)) eqn:H4;
  destruct (validation.f64_le (AutoIncrement b) (f64_of_Z 0)) eqn:H5;
  destruct (validation.f64_lt (MaxBid b) (StartingBid b)) eqn:H6;
  cbn [app length Nat.ltb Nat.leb];
  first
    [ left; split; [reflexivity|repeat split; (assumption || reflexivity)]
    | right; split;
      [ intros (?&?&?&?&?&?); congruence
      | eexists; split; [reflexivity|];
        split; [reflexivity|]; split; [reflexivity|];
        split; [discriminate|]; split; [simpl; lia|];
        split; [repeat constructor; simpl; auto|];
        split; rewrite !AddContext_lookup; reflexivity ] ].
Qed.

Lemma ValidateBidder_None (b : Bidder) :
  validation.ValidateBidder TrimSpace Sprintf_2f b = None <->
  validation.acceptable TrimSpace b.
Proof.
  destruct (ValidateBidder_cases b) as [[H1 H2]|[H1 (e & H2 & _)]].
  - tauto.
  - split; [congruence|contradiction].
Qed.

Lemma bidder_details_nil (b : Bidder) :
  validation.bidder_details TrimSpace Sprintf_2f b = [] <->
  validation.acceptable TrimSpace b.
Proof.
  unfold validation.bidder_details.
  destruct (ValidateBidder_cases b)
    as [[H1 H2]|[H1 (e & H2 & _ & _ & H3 & _)]]; rewrite ?H1, ?H2.
  - tauto.
  - split; [contradiction|contradiction].
Qed.

(** X20. [ValidateBidder] returns nil exactly for a bidder whose id and
    name are not blank and for which none of the four comparisons
    [StartingBid < 0], [MaxBid < 0], [AutoIncrement <= 0] and
    [StartingBid > MaxBid] holds.  Otherwise it returns a validation
    error of operation "ValidateBidder" with between one and six
    details, each of them carrying the bidder's id, except the detail
    for a blank id, which carries the empty id; the context records the
    bidder's id and name. *)
Theorem ValidateBidder_outcome (b : Bidder) :
  (validation.ValidateBidder TrimSpace Sprintf_2f b = None <->
   validation.acceptable TrimSpace b) /\
  (forall e, validation.ValidateBidder TrimSpace Sprintf_2f b = Some e ->
     errors.Type_ e = ErrorTypeValidation /\
     errors.Operation e = "ValidateBidder" /\
     errors.Details e <> [] /\
     (length (errors.Details e) <= 6)%nat /\
     Forall (fun d => errors.BidderID d = ID b \/
                      (errors.BidderID d = "" /\ errors.Field d = "ID"))
       (errors.Details e) /\
     errors.GetContext e "bidder_id" = (ID b, true) /\
     errors.GetContext e "bidder_name" = (Name b, true)).
Proof.
  split; [apply ValidateBidder_None|]. intros e He.
  destruct (ValidateBidder_cases b) as [[H1 _]|[_ (e' & H2 & H)]].
  - congruence.
  - rewrite He in H2. injection H2 as <-. exact H.
Qed.

Lemma details_at_head (pre rest : list Bidder) (b : Bidder) :
  validation.details_at TrimSpace Sprintf_2f (pre ++ b :: rest)
    (length pre + 0) b
  = if decide (ID b ∈ ID <$> pre)
    then [errors.NewValidationErrorWithValue (ID b) "ID"
            "duplicate bidder ID" (ID b)]
    else validation.at_position (length pre) <$>
         validation.bidder_details TrimSpace Sprintf_2f b.
Proof.
  unfold validation.details_at.
  rewrite Nat.add_0_r, take_app_length. reflexivity.
Qed.

Lemma details_at_tail (pre rest : list Bidder) (b : Bidder) :
  imap ((fun j => validation.details_at TrimSpace Sprintf_2f
                    (pre ++ b :: rest) (length pre + j)) ∘ S) rest
  = imap (fun j => validation.details_at TrimSpace Sprintf_2f
                     ((pre ++ [b]) ++ rest) (length (pre ++ [b]) + j)) rest.
Proof.
  apply imap_ext. intros j x _. simpl.
  rewrite <- app_assoc, length_app. simpl. f_equal. lia.
Qed.

Lemma ValidateBidders_loop_spec (rest : list Bidder) :
  forall (pre : list Bidder) (all : list errors.ValidationError)
         (ids : gmap string bool) (valid : Z),
    (forall k, default false (ids !! k) = true <-> k ∈ ID <$> pre) ->
    validation.ValidateBidders_loop TrimSpace Sprintf_2f (length pre) rest
      all ids valid
    = (all ++
       concat (imap (fun j => validation.details_at TrimSpace Sprintf_2f
                                (pre ++ rest) (length pre + j)) rest),
       valid +
       Z.of_nat
         (length
            (filter (fun ds : list errors.ValidationError =>
                       length ds = 0%nat)
               (imap (fun j => validation.details_at TrimSpace Sprintf_2f
                                 (pre ++ rest) (length pre + j)) rest)))).
Proof.
  induction rest as [|b rest IH]; intros pre all ids valid Hids.
  - simpl. rewrite app_nil_r, Z.add_0_r. reflexivity.
  - rewrite imap_cons, details_at_tail, details_at_head.
    cbn [validation.ValidateBidders_loop].
    replace (S (length pre)) with (length (pre ++ [b]))
      by (rewrite length_app; simpl; lia).
    destruct (default false (ids !! ID b)) eqn:Hdup.
    + rewrite decide_True by (apply Hids, Hdup).
      rewrite IH.
      * rewrite filter_cons_False by (simpl; lia).
        simpl. rewrite <- app_assoc. reflexivity.
      * intros k. rewrite fmap_app, elem_of_app, <- Hids. simpl.
        rewrite list_elem_of_singleton. split; [tauto|].
        intros [H| ->]; assumption.
    + assert (Hnew : forall k,
                default false (<[ID b := true]> ids !! k) = true <->
                k ∈ ID <$> pre ++ [b]).
      { intros k. rewrite fmap_app, elem_of_app, <- Hids. simpl.
        rewrite list_elem_of_singleton.
        destruct (decide (k = ID b)) as [-> |Hne].
        - rewrite lookup_insert_eq. simpl. tauto.
        - rewrite lookup_insert_ne by congruence. tauto. }
      rewrite decide_False
        by (intros Hin; apply Hids in Hin; congruence).
      unfold validation.bidder_details.
      destruct (ValidateBidder_cases b)
        as [[Hv _]|[_ (e & Hv & _ & _ & Hne & _)]]; rewrite Hv.
      * rewrite (IH _ _ _ _ Hnew).
        rewrite filter_cons_True by reflexivity.
        simpl. f_equal. lia.
      * rewrite (IH _ _ _ _ Hnew).
        rewrite filter_cons_False.
        -- simpl. rewrite <- app_assoc. reflexivity.
        -- rewrite length_fmap. destruct (errors.Details e);
             [congruence|simpl; lia].
Qed.

Lemma ValidateBidders_loop_start (bidders : list Bidder) :
  validation.ValidateBidders_loop TrimSpace Sprintf_2f 0 bidders [] ∅ 0
  = (validation.expected_details TrimSpace Sprintf_2f bidders,
     Z.of_nat
       (length
          (filter (fun ds : list errors.ValidationError => length ds = 0%nat)
             (imap (validation.details_at TrimSpace Sprintf_2f bidders)
                bidders)))).
Proof.
  rewrite (ValidateBidders_loop_spec bidders [] [] ∅ 0).
  - reflexivity.
  - intros k. rewrite lookup_empty. simpl. rewrite elem_of_nil.
    split; [discriminate|contradiction].
Qed.

Lemma fmap_nil_iff_list {A B : Type} (f : A -> B) (l : list A) :
  f <$> l = [] <-> l = [].
Proof. split; [apply fmap_nil_inv|intros ->; reflexivity]. Qed.

Lemma expected_details_nil_from (rest : list Bidder) :
  forall pre : list Bidder,
    concat (imap (fun j => validation.details_at TrimSpace Sprintf_2f
                             (pre ++ rest) (length pre + j)) rest) = [] <->
    (forall k, k ∈ ID <$> rest -> k ∉ ID <$> pre) /\
    NoDup (ID <$> rest) /\
    Forall (validation.acceptable TrimSpace) rest.
Proof.
  induction rest as [|b rest IH]; intros pre.
  - simpl. split; [|reflexivity]. intros _.
    split; [intros k Hk; apply elem_of_nil in Hk; contradiction|].
    split; constructor.
  - rewrite imap_cons, details_at_tail, details_at_head.
    cbn [concat]. rewrite app_nil, IH.
    rewrite fmap_cons, NoDup_cons, Forall_cons.
    destruct (decide (ID b ∈ ID <$> pre)) as [Hin|Hin].
    + split; [intros [? _]; discriminate|].
      intros (Hk & _). exfalso. apply (Hk (ID b)); [left|exact Hin].
    + rewrite fmap_nil_iff_list, bidder_details_nil. split.
      * intros (Hb & Hk & Hnd & Hall).
        split; [|split; [split|split]]; try assumption.
        -- intros k Hin'. apply elem_of_cons in Hin' as [-> |Hin'];
             [exact Hin|].
           intros Hpre. apply (Hk k Hin').
           rewrite fmap_app. apply elem_of_app. left. exact Hpre.
        -- intros Hin'. apply (Hk _ Hin').
           rewrite fmap_app. apply elem_of_app. right. left.
      * intros (Hk & (Hb & Hnd) & Hacc & Hall).
        split; [exact Hacc|]. split; [|split; assumption].
        intros k Hin'. rewrite fmap_app, elem_of_app. intros [Hpre|Heq].
        -- apply (Hk k); [right; exact Hin'|exact Hpre].
        -- apply list_elem_of_singleton in Heq. subst k. contradiction.
Qed.

Lemma expected_details_nil (bidders : list Bidder) :
  validation.expected_details TrimSpace Sprintf_2f bidders = [] <->
  NoDup (ID <$> bidders) /\ Forall (validation.acceptable TrimSpace) bidders.
Proof.
  unfold validation.expected_details.
  rewrite (expected_details_nil_from bidders []). split.
  - intros (_ & H). exact H.
  - intros H. split; [|exact H]. intros k _. apply not_elem_of_nil.
Qed.

Lemma ValidateBidders_None (bidders : list Bidder) :
  validation.ValidateBidders TrimSpace Sprintf_2f bidders = None <->
  bidders <> [] /\ NoDup (ID <$> bidders) /\
  Forall (validation.acceptable TrimSpace) bidders.
Proof.
  unfold validation.ValidateBidders.
  destruct bidders as [|b bidders]; [simpl; split; [discriminate|tauto]|].
  cbn [length Nat.eqb]. rewrite ValidateBidders_loop_start.
  rewrite <- expected_details_nil.
  destruct (validation.expected_details TrimSpace Sprintf_2f (b :: bidders))
    as [|d ds]; simpl.
  - split; [intros _; split; [discriminate|reflexivity]|reflexivity].
  - split; [discriminate|]. intros [_ ?]. discriminate.
Qed.

Lemma ValidateBidders_Some (bidders : list Bidder)
    (e : errors.AuctionError) :
  validation.ValidateBidders TrimSpace Sprintf_2f bidders = Some e ->
  errors.Type_ e = ErrorTypeValidation /\
  errors.Operation e = "ValidateBidders" /\
  (bidders = [] ->
   errors.Message e = "no bidders provided" /\ errors.Details e = [] /\
   errors.GetContext e "bidder_count" = ("0", true)) /\
  (bidders <> [] ->
   errors.Details e
   = validation.expected_details TrimSpace Sprintf_2f bidders /\
   errors.Details e <> [] /\
   errors.GetContext e "total_bidders"
   = (Sprintf_d (Z.of_nat (length bidders)), true) /\
   errors.GetContext e "valid_bidders"
   = (Sprintf_d
        (Z.of_nat
           (length
              (filter (fun ds : list errors.ValidationError =>
                         length ds = 0%nat)
                 (imap (validation.details_at TrimSpace Sprintf_2f bidders)
                    bidders)))), true) /\
   errors.GetContext e "total_validation_errors"
   = (Sprintf_d (Z.of_nat (length (errors.Details e))), true)).
Proof.
  unfold validation.ValidateBidders.
  destruct bidders as [|b bidders].
  - simpl. intros [= <-]. repeat split; try reflexivity; congruence.
  - cbn [length Nat.eqb]. rewrite ValidateBidders_loop_start.
    destruct (validation.expected_details TrimSpace Sprintf_2f (b :: bidders))
      as [|d ds] eqn:Hd; [discriminate|].
    cbn [length Nat.ltb Nat.leb]. intros [= <-].
    split; [reflexivity|]. split; [reflexivity|].
    split; [discriminate|]. intros _.
    split; [reflexivity|]. split; [discriminate|].
    rewrite !AddContext_lookup. repeat split; reflexivity.
Qed.

(** X21. [ValidateBidders] returns nil exactly when the slice is not
    empty, no two bidders carry the same id, and every bidder passes
    [ValidateBidder]. *)
Theorem ValidateBidders_accepts_iff (bidders : list Bidder) :
  validation.ValidateBidders TrimSpace Sprintf_2f bidders = None <->
  bidders <> [] /\ NoDup (ID <$> bidders) /\
  Forall (validation.acceptable TrimSpace) bidders.
Proof. apply ValidateBidders_None. Qed.

(** X22. The error of [ValidateBidders] is a validation error of
    operation "ValidateBidders".  For the empty slice it says "no bidders
    provided" and has no details.  Otherwise its details are, bidder by
    bidder in the order of the slice: for a bidder whose id occurred
    before, the one detail "duplicate bidder ID", the bidder not being
    examined further; for any other bidder, the details of
    [ValidateBidder] with the bidder's position, counted from 1, put in
    front of their value.  The context gives the number of bidders, the
    number of bidders without a detail and the number of details. *)
Theorem ValidateBidders_details (bidders : list Bidder)
    (e : errors.AuctionError) :
  validation.ValidateBidders TrimSpace Sprintf_2f bidders = Some e ->
  errors.Type_ e = ErrorTypeValidation /\
  errors.Operation e = "ValidateBidders" /\
  (bidders = [] ->
   errors.Message e = "no bidders provided" /\ errors.Details e = [] /\
   errors.GetContext e "bidder_count" = ("0", true)) /\
  (bidders <> [] ->
   errors.Details e
   = validation.expected_details TrimSpace Sprintf_2f bidders /\
   errors.Details e <> [] /\
   errors.GetContext e "total_bidders"
   = (Sprintf_d (Z.of_nat (length bidders)), true) /\
   errors.GetContext e "valid_bidders"
   = (Sprintf_d
        (Z.of_nat
           (length
              (filter (fun ds : list errors.ValidationError =>
                         length ds = 0%nat)
                 (imap (validation.details_at TrimSpace Sprintf_2f bidders)
                    bidders)))), true) /\
   errors.GetContext e "total_validation_errors"
   = (Sprintf_d (Z.of_nat (length (errors.Details e))), true)).
Proof. apply ValidateBidders_Some. Qed.

End validator_facts.

Lemma ValidateBidders_details_witness :
  exists e,
    validation.ValidateBidders ascii_TrimSpace decimal_2f rejected_bidders
    = Some e /\
    length (errors.Details e) = 3%nat /\
    errors.GetContext e "total_bidders" = ("3", true) /\
    errors.GetContext e "valid_bidders" = ("1", true) /\
    errors.GetContext e "total_validation_errors" = ("3", true).
Proof.
  destruct (validation.ValidateBidders ascii_TrimSpace decimal_2f
              rejected_bidders) as [e|] eqn:He;
    [|vm_compute in He; discriminate].
  exists e. split; [reflexivity|].
  destruct (ValidateBidders_details ascii_TrimSpace decimal_2f
              rejected_bidders e He) as (_ & _ & _ & H).
  destruct (H ltac:(discriminate)) as (Hd & _ & H1 & H2 & H3).
  rewrite H1, H2, H3, Hd. vm_compute. repeat split; reflexivity.
Defined.

(** * The service *)

Lemma AddContext_fields (ae : errors.AuctionError) (key value : string) :
  errors.Type_ (errors.AddContext ae key value) = errors.Type_ ae /\
  errors.Message (errors.AddContext ae key value) = errors.Message ae /\
  errors.Details (errors.AddContext ae key value) = errors.Details ae /\
  errors.Cause (errors.AddContext ae key value) = errors.Cause ae /\
  errors.Operation (errors.AddContext ae key value) = errors.Operation ae.
Proof.
  unfold errors.AddContext.
  destruct (errors.Context_ ae); repeat split; reflexivity.
Qed.

Lemma AddContext_Operation (ae : errors.AuctionError) (key value : string) :
  errors.Operation (errors.AddContext ae key value) = errors.Operation ae.
Proof. apply AddContext_fields. Qed.

(** X23. [DetermineWinner] returns a result exactly when the validator
    accepts the bidders and the engine then returns that result without
    an error.  When the validator objects the engine is not called: the
    store is as before.  Every error the service returns is a
    [*models.AuctionError] whose context names the service and whose
    operation is one of the three stages of [DetermineWinner]. *)
Theorem DetermineWinner_outcome (as_ : auction.AuctionService)
    (bidders : slice) (h : store) :
  let verdict :=
    auction.BidValidator_ValidateBidders (auction.validator as_)
      (slice_contents h bidders) in
  (forall h' br,
     auction.DetermineWinner as_ bidders h = (h', inr br) <->
     verdict = None /\
     auction.BiddingEngine_ProcessBids (auction.engine as_) bidders h
     = (h', (Some br, None))) /\
  (verdict <> None ->
   exists ae,
     auction.DetermineWinner as_ bidders h
     = (h, inl (auction.of_AuctionError ae)) /\
     errors.Operation ae = "DetermineWinner.Validation") /\
  (forall h' err,
     auction.DetermineWinner as_ bidders h = (h', inl err) ->
     exists ae,
       err = auction.of_AuctionError ae /\
       errors.GetContext ae "service" = ("AuctionService", true) /\
       (errors.Operation ae = "DetermineWinner.Validation" \/
        errors.Operation ae = "DetermineWinner.Processing" \/
        errors.Operation ae = "DetermineWinner.ResultValidation")).
Proof.
  unfold auction.DetermineWinner.
  destruct (auction.BidValidator_ValidateBidders _ _) as [[ae|e]|]; simpl.
  - split; [|split].
    + intros h' br. split; [discriminate|intros [? _]; discriminate].
    + intros _. eexists. split; [reflexivity|].
      rewrite AddContext_Operation. reflexivity.
    + intros h' err [= <- <-]. eexists. split; [reflexivity|].
      rewrite AddContext_lookup, AddContext_Operation.
      split; [reflexivity|left; reflexivity].
  - split; [|split].
    + intros h' br. split; [discriminate|intros [? _]; discriminate].
    + intros _. eexists. split; [reflexivity|].
      rewrite AddContext_Operation. reflexivity.
    + intros h' err [= <- <-]. eexists. split; [reflexivity|].
      rewrite AddContext_lookup, AddContext_Operation.
      split; [reflexivity|left; reflexivity].
  - destruct (auction.BiddingEngine_ProcessBids _ _ _)
      as [h1 [result [[ae|e]|]]]; [| |destruct result as [br1|]]; simpl;
      (split; [|split; [congruence|]]).
    + intros h' br. split; [discriminate|intros [_ ?]; discriminate].
    + intros h' err [= <- <-]. eexists. split; [reflexivity|].
      rewrite AddContext_lookup, AddContext_Operation.
      split; [reflexivity|right; left; reflexivity].
    + intros h' br. split; [discriminate|intros [_ ?]; discriminate].
    + intros h' err [= <- <-]. eexists. split; [reflexivity|].
      rewrite AddContext_lookup, AddContext_Operation.
      split; [reflexivity|right; left; reflexivity].
    + intros h' br. split.
      * intros [= <- <-]. split; reflexivity.
      * intros [_ [= <- <-]]. reflexivity.
    + discriminate.
    + intros h' br. split; [discriminate|intros [_ ?]; discriminate].
    + intros h' err [= <- <-]. eexists. split; [reflexivity|].
      rewrite !AddContext_lookup, !AddContext_Operation.
      split; [reflexivity|right; right; reflexivity].
Qed.

Section service_facts.

Variable TrimSpace : string -> string.
Variable Sprintf_2f : float64 -> string.

Lemma default_service_rejects (srt : Sorter) (now : Time) (bidders : slice)
    (h : store) (e : errors.AuctionError) :
  validation.ValidateBidders TrimSpace Sprintf_2f (slice_contents h bidders)
  = Some e ->
  auction.DetermineWinner
    (auction.NewAuctionService TrimSpace Sprintf_2f srt now) bidders h
  = (h, inl (auction.of_AuctionError
               (errors.AddContext
                  (errors.WithOperation e "DetermineWinner.Validation")
                  "service" "AuctionService"))).
Proof.
  intros He. unfold auction.DetermineWinner. simpl. rewrite He. reflexivity.
Qed.

Lemma default_service_accepts (srt : Sorter) (now : Time) (bidders : slice)
    (h : store) :
  validation.ValidateBidders TrimSpace Sprintf_2f (slice_contents h bidders)
  = None ->
  auction.DetermineWinner
    (auction.NewAuctionService TrimSpace Sprintf_2f srt now) bidders h
  = match ProcessBids srt NewBiddingEngine now bidders h with
    | (h', inr br) => (h', inr br)
    | (h', inl err) =>
        (h', inl (auction.of_AuctionError
                    (errors.AddContext
                       (errors.WithOperation
                          (errors.NewAuctionErrorWithCause ErrorTypeProcessing
                             "unexpected processing error" err)
                          "DetermineWinner.Processing")
                       "service" "AuctionService")))
    end.
Proof.
  intros He. unfold auction.DetermineWinner. simpl. rewrite He. simpl.
  destruct (ProcessBids srt NewBiddingEngine now bidders h) as [h' [err|br]];
    reflexivity.
Qed.

(** X24. The service with its default validator and engine.  An
    objection of [ValidateBidders] comes back with its type, message and
    details, under the operation "DetermineWinner.Validation"; this is
    what happens to the empty slice, which the engine on its own would
    answer with an empty result.  When the validator accepts, a result of
    [ProcessBids] is passed on unchanged, and an error of [ProcessBids],
    the timeout included, comes back as a processing error "unexpected
    processing error" that has the engine's error as its cause. *)
Theorem default_service_outcome (srt : Sorter) (now : Time)
    (bidders : slice) (h : store) :
  let svc := auction.NewAuctionService TrimSpace Sprintf_2f srt now in
  let input := slice_contents h bidders in
  (forall e,
     validation.ValidateBidders TrimSpace Sprintf_2f input = Some e ->
     exists ae,
       auction.DetermineWinner svc bidders h
       = (h, inl (auction.of_AuctionError ae)) /\
       errors.Type_ ae = ErrorTypeValidation /\
       errors.Message ae = errors.Message e /\
       errors.Details ae = errors.Details e /\
       errors.Operation ae = "DetermineWinner.Validation") /\
  (input = [] ->
   exists ae,
     auction.DetermineWinner svc bidders h
     = (h, inl (auction.of_AuctionError ae)) /\
     errors.Message ae = "no bidders provided") /\
  (validation.ValidateBidders TrimSpace Sprintf_2f input = None ->
   forall h' r,
     ProcessBids srt NewBiddingEngine now bidders h = (h', r) ->
     match r with
     | inr br => auction.DetermineWinner svc bidders h = (h', inr br)
     | inl err =>
         exists ae,
           auction.DetermineWinner svc bidders h
           = (h', inl (auction.of_AuctionError ae)) /\
           errors.Type_ ae = ErrorTypeProcessing /\
           errors.Message ae = "unexpected processing error" /\
           errors.Cause ae = Some err /\
           errors.Operation ae = "DetermineWinner.Processing"
     end).
Proof.
  intros svc input. split; [|split].
  - intros e He. eexists. split; [apply default_service_rejects, He|].
    destruct (ValidateBidders_Some TrimSpace Sprintf_2f input e He)
      as (Ht & _).
    destruct (AddContext_fields
                (errors.WithOperation e "DetermineWinner.Validation")
                "service" "AuctionService") as (H1 & H2 & H3 & _ & H5).
    rewrite H1, H2, H3, H5. repeat split. exact Ht.
  - intros Hnil. eexists. split.
    + apply default_service_rejects. unfold input in Hnil.
      rewrite Hnil. reflexivity.
    + rewrite !(proj1 (proj2 (AddContext_fields _ _ _))). reflexivity.
  - intros He h' r Hrun. subst svc.
    rewrite (default_service_accepts srt now bidders h He), Hrun.
    destruct r as [err|br]; [|reflexivity].
    eexists. split; [reflexivity|].
    destruct (AddContext_fields
                (errors.WithOperation
                   (errors.NewAuctionErrorWithCause ErrorTypeProcessing
                      "unexpected processing error" err)
                   "DetermineWinner.Processing")
                "service" "AuctionService") as (H1 & H2 & _ & H4 & H5).
    rewrite H1, H2, H4, H5. repeat split; reflexivity.
Qed.

Lemma fmap_ID_params (l k : list Bidder) :
  map params l = map params k -> ID <$> l = ID <$> k.
Proof.
  intros H.
  assert (Hid : forall l : list Bidder,
            ID <$> l = (fun p : string * Time * Z * Z * Z => p.1.1.1.1)
                       <$> map params l).
  { intros l0. rewrite <- list_fmap_compose. reflexivity. }
  rewrite (Hid l), (Hid k), H. reflexivity.
Qed.

(** X25. A result of the default service is a result of the engine on a
    slice that is not empty, whose ids are pairwise distinct and whose
    bidders all pass [ValidateBidder].  The final bidder list carries the
    ids of the input, each once, and the result has a winner, which is
    the only bidder of the final list with its id: the bidders other than
    the winner are the other positions of the list. *)
Theorem default_service_result (srt : Sorter) (now : Time) (bidders : slice)
    (h h' : store) (br : BidResult) :
  Sorter_contract srt ->
  auction.DetermineWinner
    (auction.NewAuctionService TrimSpace Sprintf_2f srt now) bidders h
  = (h', inr br) ->
  let input := slice_contents h bidders in
  let final := slice_contents h' (AllBidders br) in
  input <> [] /\ NoDup (ID <$> input) /\
  Forall (validation.acceptable TrimSpace) input /\
  ProcessBids srt NewBiddingEngine now bidders h = (h', inr br) /\
  ID <$> final ≡ₚ ID <$> input /\ NoDup (ID <$> final) /\
  exists (i : nat) (w : Bidder),
    Winner br = Some (AllBidders br, i) /\ final !! i = Some w /\
    others w final = delete i final.
Proof.
  intros Hsrt Hrun input final.
  destruct (validation.ValidateBidders TrimSpace Sprintf_2f input)
    as [e|] eqn:He.
  { unfold input in He.
    rewrite (default_service_rejects srt now bidders h e He) in Hrun.
    discriminate. }
  pose proof He as Hacc.
  apply ValidateBidders_None in Hacc as (Hne & Hnd & Hall).
  unfold input in He.
  rewrite (default_service_accepts srt now bidders h He) in Hrun.
  destruct (ProcessBids srt NewBiddingEngine now bidders h)
    as [h1 [err|br1]] eqn:Hpb; [discriminate|].
  injection Hrun as -> ->.
  destruct (ProcessBids_success srt NewBiddingEngine now bidders h h' br
              Hsrt Hne Hpb)
    as (ws & i & wb & _ & _ & _ & _ & Hwb & _ & Hbr & Hfinal & Hparams).
  assert (Hids : ID <$> final ≡ₚ ID <$> input).
  { unfold final. rewrite Hfinal.
    transitivity (ID <$> ws).
    { rewrite <- list_fmap_compose. reflexivity. }
    rewrite (fmap_ID_params _ _ Hparams).
    rewrite (prepare_Permutation srt now (slice_contents h bidders) Hsrt).
    rewrite <- list_fmap_compose. reflexivity. }
  assert (Hndf : NoDup (ID <$> final)) by (rewrite Hids; exact Hnd).
  repeat split; try assumption.
  exists i, (SyncFloatFields wb).
  assert (Hi : final !! i = Some (SyncFloatFields wb)).
  { unfold final. rewrite Hfinal, list_lookup_fmap, Hwb. reflexivity. }
  split; [rewrite Hbr; reflexivity|]. split; [exact Hi|].
  apply others_unique_ids; assumption.
Qed.

End service_facts.

Lemma default_service_result_witness :
  exists h' br (i : nat) (w : Bidder),
    auction.DetermineWinner
      (auction.NewAuctionService ascii_TrimSpace decimal_2f insertion_Sorter 0)
      1%positive (store_of second_price_auction)
    = (h', inr br) /\
    Winner br = Some (AllBidders br, i) /\
    slice_contents h' (AllBidders br) !! i = Some w /\
    others w (slice_contents h' (AllBidders br))
    = delete i (slice_contents h' (AllBidders br)).
Proof.
  assert (Hrun : exists h' br,
            auction.DetermineWinner
              (auction.NewAuctionService ascii_TrimSpace decimal_2f
                 insertion_Sorter 0)
              1%positive (store_of second_price_auction)
            = (h', inr br)).
  { eexists _, _. vm_compute. reflexivity. }
  destruct Hrun as (h' & br & Hrun).
  destruct (default_service_result ascii_TrimSpace decimal_2f
              insertion_Sorter 0 1%positive (store_of second_price_auction)
              h' br insertion_Sorter_contract Hrun)
    as (_ & _ & _ & _ & _ & _ & i & w & H1 & H2 & H3).
  exists h', br, i, w. repeat split; assumption.
Defined.

(** * Amounts in range *)

Lemma binary_round_aux_not_negative (m e : Z) (l : location) :
  not_negative (binary_round_aux 53 1024 false m e l).
Proof.
  unfold binary_round_aux.
  destruct (shr_fexp 53 1024 m e l) as [mrs' e'].
  destruct (shr_fexp 53 1024 _ e' loc_Exact) as [mrs'' e''].
  destruct (shr_m mrs''); [exact I| |exact I].
  destruct (_ <=? _); exact I.
Qed.

Lemma f64_mul_not_negative (x : float64) :
  not_negative x -> not_negative (f64_mul x (f64_of_Z 100)).
Proof.
  intros Hx. destruct (f64_of_Z 100) as [s|s| |s m e] eqn:H100;
    try (vm_compute in H100; discriminate).
  assert (Hs : s = false) by (vm_compute in H100; congruence).
  subst s. unfold f64_mul.
  destruct x as [sx|[|]| |[|] mx ex]; simpl in *; try exact I;
    try contradiction.
  apply binary_round_aux_not_negative.
Qed.

Lemma round_half_away_nonneg (m : positive) (e : Z) :
  0 <= round_half_away m e.
Proof.
  unfold round_half_away.
  assert (0 <= Z.shiftr (Z.pos m) (- e)) by (apply Z.shiftr_nonneg; lia).
  destruct (_ <=? _); lia.
Qed.

Lemma math_Round_not_negative (x : float64) :
  not_negative x -> not_negative (math_Round x).
Proof.
  destruct x as [s|s| |s m e]; try (intros H; exact H).
  intros Hx. destruct s; [contradiction|]. unfold math_Round.
  destruct (0 <=? e); [exact I|].
  pose proof (round_half_away_nonneg m e) as Hn.
  destruct (round_half_away m e) as [|p|p]; [exact I| |lia].
  unfold binary_normalize, binary_round.
  destruct (shl_align _ _ _) as [mz ez].
  apply binary_round_aux_not_negative.
Qed.

Lemma int64_of_f64_not_negative (x : float64) :
  not_negative x -> int64_of_f64 x <> - 2 ^ 63 -> 0 <= int64_of_f64 x.
Proof.
  destruct x as [s|s| |s m e]; simpl; try congruence; [lia|].
  intros Hx. destruct s; [contradiction|].
  set (a := if 0 <=? e then Z.shiftl (Z.pos m) e
            else Z.shiftr (Z.pos m) (- e)).
  assert (Ha : 0 <= a).
  { unfold a. destruct (0 <=? e);
      [apply Z.shiftl_nonneg|apply Z.shiftr_nonneg]; lia. }
  destruct ((- 2 ^ 63 <=? a) && (a <? 2 ^ 63)); [lia|congruence].
Qed.

Lemma DollarsToCents_not_negative (x : float64) :
  not_negative x -> DollarsToCents x <> - 2 ^ 63 -> 0 <= DollarsToCents x.
Proof.
  intros Hx. apply int64_of_f64_not_negative, math_Round_not_negative,
    f64_mul_not_negative, Hx.
Qed.

Lemma f64_lt_zero_false (x : float64) :
  validation.f64_lt x (f64_of_Z 0) = false -> not_negative x.
Proof.
  destruct x as [s|[|]| |[|] m e]; simpl; try (intros _; exact I);
    vm_compute; discriminate.
Qed.

Lemma f64_le_zero_false (x : float64) :
  validation.f64_le x (f64_of_Z 0) = false -> not_negative x.
Proof.
  destruct x as [s|[|]| |[|] m e]; simpl; try (intros _; exact I);
    vm_compute; discriminate.
Qed.

Lemma round_step_start (H : Z) (b : Bidder) :
  startingBidCents (round_step H b) = startingBidCents b.
Proof.
  pose proof (round_step_params H b) as Hp. unfold params in Hp.
  congruence.
Qed.

Lemma IncrementBids_roomy (ws : list Bidder) :
  Forall (fun b => roomy b /\ 0 <= startingBidCents b) ws ->
  exists ws' inc,
    IncrementBids ws = (ws', inr inc) /\
    Forall (fun b => roomy b /\ 0 <= startingBidCents b) ws'.
Proof.
  intros Hws. unfold IncrementBids.
  destruct (length ws <=? 1)%nat eqn:Hlen; [eauto|].
  destruct (findHighestBidCents_total ws) as [H HH].
  { eapply Forall_impl; [exact Hws|]. intros x ((Hx & _) & _). lia. }
  rewrite HH. pose proof (IncrementBids_loop_spec H ws [] false) as Hl.
  simpl in Hl. rewrite Hl. eexists _, _. split; [reflexivity|].
  apply Forall_fmap. eapply Forall_impl; [exact Hws|].
  intros x [Hx Hs]. split; [apply round_step_roomy, Hx|].
  simpl. rewrite round_step_start. exact Hs.
Qed.

Lemma rounds_from_roomy (fuel : nat) :
  forall (rounds : Z) (ws : list Bidder),
    Forall (fun b => roomy b /\ 0 <= startingBidCents b) ws ->
    Forall (fun b => roomy b /\ 0 <= startingBidCents b)
      (fst (rounds_from fuel rounds ws)) /\
    exists r, snd (rounds_from fuel rounds ws) = inr r.
Proof.
  induction fuel as [|fuel IH]; intros rounds ws Hws; simpl; [eauto|].
  destruct (IncrementBids_roomy ws Hws) as (ws' & inc & Hrun & Hws').
  rewrite Hrun. destruct inc; [apply IH, Hws'|simpl; eauto].
Qed.

Lemma highest_lt (f : Bidder -> Z) (l : list Bidder) (B : Z) :
  0 < B -> Forall (fun b => f b < B) l -> highest f l < B.
Proof.
  intros HB Hl. induction Hl as [|b l Hb _ IH]; simpl; lia.
Qed.

Lemma CalculateMinimumWinningBidCents_roomy (ws : list Bidder) (w : Bidder) :
  Forall (fun b => roomy b /\ 0 <= startingBidCents b) ws -> w ∈ ws ->
  exists c, CalculateMinimumWinningBidCents ws (Some w) = inr c.
Proof.
  intros Hws Hw.
  destruct (CalculateMinimumWinningBidCents_cases ws w)
    as (_ & _ & _ & Hfound).
  destruct Hfound as [Hzero Hpos]; [exists w; split; [exact Hw|reflexivity]|].
  pose proof (proj1 (Forall_forall _ _) Hws w Hw) as [(_ & Hi & _) Hs].
  pose proof (highest_nonneg maxBidCents (others w ws)) as HS0.
  assert (HS : highest maxBidCents (others w ws) < 2 ^ 62).
  { apply highest_lt; [lia|]. unfold others. apply Forall_forall.
    intros x Hx. apply list_elem_of_filter in Hx as [_ Hx].
    pose proof (proj1 (Forall_forall _ _) Hws x Hx) as ((_ & _ & Hm) & _).
    exact Hm. }
  destruct (Z.eq_dec (highest maxBidCents (others w ws)) 0) as [H0|H0].
  - eexists. apply Hzero, H0.
  - rewrite (Hpos H0) by (unfold in_int64; lia).
    destruct (Z.ltb_spec
                (Z.max (startingBidCents w)
                   (Z.min (maxBidCents w)
                      (highest maxBidCents (others w ws)
                       + autoIncrementCents w))) 0); [lia|eauto].
Qed.

Lemma ProcessBids_roomy_error (srt : Sorter) (be : BiddingEngine)
    (now : Time) (bidders : slice) (h : store) (e : AuctionError) :
  Sorter_contract srt ->
  Forall roomy_input (slice_contents h bidders) ->
  snd (ProcessBids srt be now bidders h) = inl e ->
  e = NewTimeoutError "bidding process exceeded maximum rounds".
Proof.
  intros Hsrt Hin.
  destruct (decide (slice_contents h bidders = [])) as [Hnil|Hne].
  { rewrite (ProcessBids_empty srt be now bidders h Hnil). discriminate. }
  rewrite (ProcessBids_run _ _ _ _ _ Hne). simpl. unfold run.
  pose proof (prepare_Permutation srt now (slice_contents h bidders) Hsrt)
    as Hperm.
  assert (Hv0 : Forall (fun b => roomy b /\ 0 <= startingBidCents b)
                  (prepare srt now (slice_contents h bidders))).
  { rewrite Hperm. apply Forall_fmap.
    eapply Forall_impl; [exact Hin|]. intros x Hx.
    split; [apply reinitialize_roomy, Hx|]. apply Hx. }
  destruct (rounds_from_roomy (Z.to_nat (maxRounds be)) 0 _ Hv0)
    as [Hv [r Hr]].
  pose proof (rounds_from_length (Z.to_nat (maxRounds be)) 0
                (prepare srt now (slice_contents h bidders))) as Hlen.
  destruct (rounds_from _ 0 _) as [ws res]. simpl in *. subst res.
  destruct (maxRounds be <=? r); simpl; [congruence|].
  assert (Hws : ws <> []).
  { intros ->. simpl in Hlen. rewrite Hperm, length_fmap in Hlen.
    destruct (slice_contents h bidders); [congruence|discriminate]. }
  destruct (findWinner_total ws Hws) as (i & wb & -> & Hi).
  { eapply Forall_impl; [exact Hv|]. intros x ((Hx & _) & _). lia. }
  rewrite Hi.
  destruct (CalculateMinimumWinningBidCents_roomy ws wb Hv) as [c ->];
    [eapply list_elem_of_lookup_2, Hi|discriminate].
Qed.

Section service_range_facts.

Variable TrimSpace : string -> string.
Variable Sprintf_2f : float64 -> string.

Lemma acceptable_roomy (b : Bidder) :
  validation.acceptable TrimSpace b -> amounts_in_range b -> roomy_input b.
Proof.
  intros (_ & _ & Hs & _ & Hi & _) ((Hs1 & Hs2) & (_ & Hm) & (Hi1 & Hi2)).
  pose proof (DollarsToCents_not_negative _ (f64_lt_zero_false _ Hs)).
  pose proof (DollarsToCents_not_negative _ (f64_le_zero_false _ Hi)).
  unfold roomy_input. lia.
Qed.

(** X26. With amounts in range (the cents of every starting bid, maximum
    bid and increment are below 2^62 and not the out-of-range value of
    the conversion) the default service fails in two ways only: with the
    validator's objection, or with the engine's timeout error as the
    cause of a processing error.  The system and input errors of the
    engine do not reach a caller of the service. *)
Theorem default_service_errors (srt : Sorter) (now : Time)
    (bidders : slice) (h h' : store) (err : auction.go_error) :
  Sorter_contract srt ->
  Forall amounts_in_range (slice_contents h bidders) ->
  auction.DetermineWinner
    (auction.NewAuctionService TrimSpace Sprintf_2f srt now) bidders h
  = (h', inl err) ->
  exists ae,
    err = auction.of_AuctionError ae /\
    ((errors.Type_ ae = ErrorTypeValidation /\ errors.Cause ae = None /\
      h' = h) \/
     (errors.Type_ ae = ErrorTypeProcessing /\
      errors.Cause ae
      = Some (NewTimeoutError "bidding process exceeded maximum rounds"))).
Proof.
  intros Hsrt Hrange Hrun.
  destruct (validation.ValidateBidders TrimSpace Sprintf_2f
              (slice_contents h bidders)) as [e|] eqn:He.
  - rewrite (default_service_rejects TrimSpace Sprintf_2f srt now bidders h e
               He) in Hrun.
    injection Hrun as <- <-. eexists. split; [reflexivity|]. left.
    destruct (AddContext_fields
                (errors.WithOperation e "DetermineWinner.Validation")
                "service" "AuctionService") as (H1 & _ & _ & H4 & _).
    rewrite H1, H4. simpl.
    destruct (ValidateBidders_Some TrimSpace Sprintf_2f _ e He) as (Ht & _).
    split; [exact Ht|]. split; [|reflexivity].
    revert He. unfold validation.ValidateBidders.
    destruct (length (slice_contents h bidders) =? 0)%nat;
      [intros [= <-]; reflexivity|].
    destruct (validation.ValidateBidders_loop _ _ _ _ _ _ _) as [all valid].
    destruct (0 <? length all)%nat; [|discriminate].
    intros [= <-]. rewrite !(proj1 (proj2 (proj2 (proj2
      (AddContext_fields _ _ _))))). reflexivity.
  - rewrite (default_service_accepts TrimSpace Sprintf_2f srt now bidders h
               He) in Hrun.
    apply ValidateBidders_None in He as (_ & _ & Hacc).
    assert (Hroomy : Forall roomy_input (slice_contents h bidders)).
    { apply Forall_forall. intros b Hb. apply acceptable_roomy.
      - exact (proj1 (Forall_forall _ _) Hacc b Hb).
      - exact (proj1 (Forall_forall _ _) Hrange b Hb). }
    pose proof (ProcessBids_roomy_error srt NewBiddingEngine now bidders h)
      as Herr.
    destruct (ProcessBids srt NewBiddingEngine now bidders h)
      as [h1 [e|br]]; [|discriminate].
    injection Hrun as <- <-. eexists. split; [reflexivity|]. right.
    destruct (AddContext_fields
                (errors.WithOperation
                   (errors.NewAuctionErrorWithCause ErrorTypeProcessing
                      "unexpected processing error" e)
                   "DetermineWinner.Processing")
                "service" "AuctionService") as (H1 & _ & _ & H4 & _).
    rewrite H1, H4. simpl. split; [reflexivity|].
    f_equal. apply Herr; [exact Hsrt|exact Hroomy|reflexivity].
Qed.

End service_range_facts.

Lemma default_service_errors_witness :
  exists h' ae,
    auction.DetermineWinner
      (auction.NewAuctionService ascii_TrimSpace decimal_2f insertion_Sorter 0)
      1%positive (store_of sub_cent_auction)
    = (h', inl (auction.of_AuctionError ae)) /\
    errors.Type_ ae = ErrorTypeProcessing /\
    errors.Cause ae
    = Some (NewTimeoutError "bidding process exceeded maximum rounds").
Proof.
  destruct (auction.DetermineWinner
              (auction.NewAuctionService ascii_TrimSpace decimal_2f
                 insertion_Sorter 0)
              1%positive (store_of sub_cent_auction))
    as [h' [err|br]] eqn:Hrun; [|vm_compute in Hrun; discriminate].
  destruct (default_service_errors ascii_TrimSpace decimal_2f
              insertion_Sorter 0 1%positive (store_of sub_cent_auction)
              h' err insertion_Sorter_contract)
    as (ae & -> & [(Ht & _)|(Ht & Hc)]).
  - repeat constructor; vm_compute; congruence.
  - exact Hrun.
  - exfalso. vm_compute in Hrun. injection Hrun as _ Hae.
    rewrite <- Hae in Ht. discriminate.
  - exists h', ae. repeat split; assumption.
Defined.

(** * What the outcome does not depend on *)

Lemma rounds_from_more_fuel (fuel : nat) :
  forall (rounds r : Z) (ws ws' : list Bidder) (fuel' : nat),
    rounds_from fuel rounds ws = (ws', inr r) ->
    r < rounds + Z.of_nat fuel -> (fuel <= fuel')%nat ->
    rounds_from fuel' rounds ws = (ws', inr r).
Proof.
  induction fuel as [|fuel IH]; intros rounds r ws ws' fuel' Hrun Hr Hle.
  - simpl in Hrun. injection Hrun as <- <-. lia.
  - destruct fuel' as [|fuel']; [lia|]. simpl in *.
    destruct (IncrementBids ws) as [ws1 [err|[|]]]; [discriminate| |exact Hrun].
    apply (IH (rounds + 1) r ws1 ws' fuel' Hrun); lia.
Qed.

(** X27. The round cap decides only whether the auction times out: a
    result obtained under one cap is the result, with the same final
    store, under every larger cap. *)
Theorem ProcessBids_cap_irrelevant (srt : Sorter) (be be' : BiddingEngine)
    (now : Time) (bidders : slice) (h h1 : store) (br : BidResult) :
  maxRounds be <= maxRounds be' ->
  ProcessBids srt be now bidders h = (h1, inr br) ->
  ProcessBids srt be' now bidders h = (h1, inr br).
Proof.
  intros Hcap Hrun.
  destruct (decide (slice_contents h bidders = [])) as [Hnil|Hne].
  { rewrite (ProcessBids_empty srt be now bidders h Hnil) in Hrun.
    rewrite (ProcessBids_empty srt be' now bidders h Hnil). exact Hrun. }
  rewrite (ProcessBids_run _ _ _ _ _ Hne) in Hrun.
  rewrite (ProcessBids_run _ _ _ _ _ Hne).
  assert (Heq : run srt be' now (fresh (dom h)) (slice_contents h bidders)
                = run srt be now (fresh (dom h)) (slice_contents h bidders));
    [|rewrite Heq; exact Hrun].
  injection Hrun as _ Hres. revert Hres. unfold run.
  destruct (rounds_from (Z.to_nat (maxRounds be)) 0
              (prepare srt now (slice_contents h bidders)))
    as [ws [err|r]] eqn:Hr; [discriminate|].
  destruct (Z.leb_spec (maxRounds be) r) as [|Hlt]; [discriminate|].
  intros _.
  assert (H0 : 0 <= r).
  { pose proof (rounds_from_range (Z.to_nat (maxRounds be)) 0 r
                  (prepare srt now (slice_contents h bidders))) as Hrange.
    rewrite Hr in Hrange. specialize (Hrange eq_refl). lia. }
  rewrite (rounds_from_more_fuel _ _ _ _ _ (Z.to_nat (maxRounds be')) Hr)
    by lia.
  destruct (Z.leb_spec (maxRounds be') r); [lia|reflexivity].
Qed.

Lemma ProcessBids_cap_irrelevant_witness :
  exists h1 br,
    ProcessBids insertion_Sorter {| maxRounds := 5000 |} 0 1%positive
      (store_of second_price_auction) = (h1, inr br) /\
    BiddingRounds br = 4.
Proof.
  destruct second_price_run as (h1 & br & Hrun). exists h1, br.
  split.
  - apply (ProcessBids_cap_irrelevant insertion_Sorter NewBiddingEngine
             {| maxRounds := 5000 |} 0 1%positive
             (store_of second_price_auction) h1 br);
      [vm_compute; discriminate|exact Hrun].
  - vm_compute in Hrun. injection Hrun as _ <-. reflexivity.
Defined.

Lemma NoDup_fmap_eq {A : Type} (f : A -> Z) (l : list A) (x y : A) :
  NoDup (f <$> l) -> x ∈ l -> y ∈ l -> f x = f y -> x = y.
Proof.
  induction l as [|z l IH]; intros Hnd Hx Hy Hf.
  - apply elem_of_nil in Hx. contradiction.
  - rewrite fmap_cons in Hnd. apply NoDup_cons in Hnd as [Hz Hnd].
    apply elem_of_cons in Hx as [-> |Hx], Hy as [-> |Hy].
    + reflexivity.
    + exfalso. apply Hz. rewrite Hf. apply list_elem_of_fmap. eauto.
    + exfalso. apply Hz. rewrite <- Hf. apply list_elem_of_fmap. eauto.
    + apply IH; assumption.
Qed.

Lemma sorted_unique {A : Type} (f : A -> Z) (l1 : list A) :
  forall l2 : list A,
    l1 ≡ₚ l2 -> NoDup (f <$> l1) ->
    StronglySorted (fun a b => f a <= f b) l1 ->
    StronglySorted (fun a b => f a <= f b) l2 ->
    l1 = l2.
Proof.
  induction l1 as [|x l1 IH]; intros l2 Hperm Hnd Hs1 Hs2.
  - apply Permutation_nil_l in Hperm. congruence.
  - destruct l2 as [|y l2];
      [apply Permutation_nil_r in Hperm; discriminate|].
    apply StronglySorted_inv in Hs1 as [Hs1 Hx].
    apply StronglySorted_inv in Hs2 as [Hs2 Hy].
    assert (Hxy : x = y).
    { apply (NoDup_fmap_eq f (x :: l1)); [exact Hnd|left| |].
      - rewrite Hperm. left.
      - assert (Hle1 : f x <= f y).
        { assert (Hin : y ∈ x :: l1) by (rewrite Hperm; left).
          apply elem_of_cons in Hin as [-> |Hin]; [lia|].
          exact (proj1 (Forall_forall _ _) Hx y Hin). }
        assert (Hle2 : f y <= f x).
        { assert (Hin : x ∈ y :: l2) by (rewrite <- Hperm; left).
          apply elem_of_cons in Hin as [-> |Hin]; [lia|].
          exact (proj1 (Forall_forall _ _) Hy x Hin). }
        lia. }
    subst y. f_equal. apply Permutation_cons_inv in Hperm.
    rewrite fmap_cons in Hnd. apply NoDup_cons in Hnd as [_ Hnd].
    apply IH; assumption.
Qed.

Lemma prepare_unique (srt srt' : Sorter) (now : Time)
    (input input' : list Bidder) :
  Sorter_contract srt -> Sorter_contract srt' ->
  input' ≡ₚ input -> NoDup (EntryTime <$> input) ->
  prepare srt' now input' = prepare srt now input.
Proof.
  intros Hsrt Hsrt' Hperm Hnd.
  apply (sorted_unique EntryTime).
  - rewrite (prepare_Permutation srt' now input' Hsrt'),
      (prepare_Permutation srt now input Hsrt), Hperm. reflexivity.
  - rewrite (prepare_Permutation srt' now input' Hsrt'), Hperm.
    rewrite <- list_fmap_compose. exact Hnd.
  - apply prepare_sorted, Hsrt'.
  - apply prepare_sorted, Hsrt.
Qed.

(** X28. When the entry times are pairwise distinct, the outcome depends
    neither on the order in which the bidders are handed in nor on the
    sorting algorithm: for two slices holding the same bidders in any
    order, in stores with the same addresses, and two sorts that meet the
    contract of [sort.Slice], [ProcessBids] returns the same result or
    error and leaves the same final bidder list. *)
Theorem ProcessBids_order_irrelevant (srt srt' : Sorter) (be : BiddingEngine)
    (now : Time) (bidders bidders' : slice) (h h' : store) :
  Sorter_contract srt -> Sorter_contract srt' ->
  slice_contents h' bidders' ≡ₚ slice_contents h bidders ->
  NoDup (EntryTime <$> slice_contents h bidders) ->
  slice_contents h bidders <> [] ->
  dom h' = dom h ->
  snd (ProcessBids srt' be now bidders' h')
  = snd (ProcessBids srt be now bidders h) /\
  slice_contents (fst (ProcessBids srt' be now bidders' h')) (fresh (dom h))
  = slice_contents (fst (ProcessBids srt be now bidders h)) (fresh (dom h)).
Proof.
  intros Hsrt Hsrt' Hperm Hnd Hne Hdom.
  assert (Hne' : slice_contents h' bidders' <> []).
  { intros Hnil. rewrite Hnil in Hperm.
    apply Permutation_nil_l in Hperm. congruence. }
  rewrite (ProcessBids_run _ _ _ _ _ Hne), (ProcessBids_run _ _ _ _ _ Hne').
  rewrite Hdom. simpl. rewrite !slice_contents_insert.
  assert (Heq : run srt' be now (fresh (dom h)) (slice_contents h' bidders')
                = run srt be now (fresh (dom h)) (slice_contents h bidders)).
  { unfold run.
    rewrite (prepare_unique srt srt' now _ _ Hsrt Hsrt' Hperm Hnd).
    rewrite (Permutation_length Hperm). reflexivity. }
  rewrite Heq. split; reflexivity.
Qed.

Lemma ProcessBids_order_irrelevant_witness :
  snd (ProcessBids ties_reversing_Sorter NewBiddingEngine 0 1%positive
         (store_of (reverse second_price_auction)))
  = snd (ProcessBids insertion_Sorter NewBiddingEngine 0 1%positive
           (store_of second_price_auction)).
Proof.
  refine (proj1 (ProcessBids_order_irrelevant insertion_Sorter
                   ties_reversing_Sorter NewBiddingEngine 0 1%positive
                   1%positive (store_of second_price_auction)
                   (store_of (reverse second_price_auction))
                   insertion_Sorter_contract ties_reversing_Sorter_contract
                   _ _ _ _)).
  - apply perm_swap.
  - apply NoDup_cons. split; [|apply NoDup_singleton].
    intros Hin. apply list_elem_of_singleton in Hin. discriminate.
  - discriminate.
  - vm_compute. reflexivity.
Defined.
